(** * Bulk property creation server: name sanitising, option parsing,
      cursor pagination, reference extraction, the usage scan, the CSV
      upload and the routes that create, count, delete and list.

    The development follows the server source function by function.  A
    JavaScript string is the list of its UTF-16 code units, a code unit is a
    number of type [N]. *)

From Stdlib Require Import NArith ZArith Lia List Bool Ascii String DecimalString
  DecimalNat.
From stdpp Require Import base decidable option numbers relations list.

Local Open Scope N_scope.

(** ** JavaScript strings *)

Module JsString.

Definition char := N.
Definition jstring := list char.

(** A Rocq string literal as code units (the literals of the source are
    ASCII). *)
Definition str (s : String.string) : jstring :=
  List.map N_of_ascii (list_ascii_of_string s).

Definition in_range (lo hi c : char) : bool := (lo <=? c) && (c <=? hi).

(** The character classes of the regular expressions of the source. *)
Definition is_lower (c : char) : bool := in_range 97 122 c.      (* [a-z] *)
Definition is_upper (c : char) : bool := in_range 65 90 c.       (* [A-Z] *)
Definition is_digit (c : char) : bool := in_range 48 57 c.       (* [0-9] *)
Definition is_letter (c : char) : bool := is_lower c || is_upper c. (* [a-zA-Z] *)
Definition underscore : char := 95.
Definition is_name_char (c : char) : bool :=                      (* [a-z0-9_] *)
  is_lower c || is_digit c || (c =? underscore).
Definition is_lower_us (c : char) : bool :=                       (* [a-z_] *)
  is_lower c || (c =? underscore).

(** [\s] and the characters removed by [String.prototype.trim]: the
    ECMAScript WhiteSpace and LineTerminator code points. *)
Definition is_space (c : char) : bool :=
  in_range 9 13 c || (c =? 32) || (c =? 160) || (c =? 5760)
  || in_range 8192 8202 c || (c =? 8232) || (c =? 8233) || (c =? 8239)
  || (c =? 8287) || (c =? 12288) || (c =? 65279).

(** [String.prototype.toLowerCase], code unit by code unit.  ASCII capitals
    move to their small letters.  Outside ASCII two code points have a
    lower-case form that contains an ASCII letter: U+212A KELVIN SIGN gives
    [k], and U+0130 gives [i] followed by U+0307.  Every other code unit has
    a lower-case form outside ASCII that is not white space; the model keeps
    such a code unit as it is. *)
Definition lower_unit (c : char) : jstring :=
  if is_upper c then [c + 32]
  else if c =? 8490 then [107]
  else if c =? 304 then [105; 775]
  else [c].

Definition toLowerCase (s : jstring) : jstring := flat_map lower_unit s.

Fixpoint trimStart (s : jstring) : jstring :=
  match s with
  | c :: s' => if is_space c then trimStart s' else s
  | [] => []
  end.

Definition trimEnd (s : jstring) : jstring := rev (trimStart (rev s)).

Definition trim (s : jstring) : jstring := trimEnd (trimStart s).

(** [s.replace(/\s+/g, '_')]: every maximal run of white space becomes one
    underscore.  [in_run] tells that the previous code unit was white
    space. *)
Fixpoint replace_ws_from (in_run : bool) (s : jstring) : jstring :=
  match s with
  | [] => []
  | c :: s' =>
      if is_space c
      then (if in_run then replace_ws_from true s'
            else underscore :: replace_ws_from true s')
      else c :: replace_ws_from false s'
  end.

Definition replace_ws (s : jstring) : jstring := replace_ws_from false s.

(** [s.replace(/[^a-z0-9_]/g, '')]. *)
Definition strip_other (s : jstring) : jstring := List.filter is_name_char s.

(** [/^[0-9]/.test(s)]. *)
Definition starts_with_digit (s : jstring) : bool :=
  match s with
  | c :: _ => is_digit c
  | [] => false
  end.

(** [s.slice(0, n)] for [n] not negative. *)
Definition slice0 (n : nat) (s : jstring) : jstring := take n s.

(** [s.split(d)] for a separator of one code unit. *)
Fixpoint split (d : char) (s : jstring) : list jstring :=
  match s with
  | [] => [[]]
  | c :: s' =>
      if c =? d then [] :: split d s'
      else match split d s' with
           | p :: ps => (c :: p) :: ps
           | [] => [[c]]
           end
  end.

(** A string is truthy when it is not empty. *)
Definition nonempty (s : jstring) : bool :=
  match s with [] => false | _ :: _ => true end.

(** The decimal digits of an array index, as a template literal prints
    them. *)
Definition of_nat (n : nat) : jstring := str (NilZero.string_of_uint (Nat.to_uint n)).

Abbreviation all_name s := (Forall (fun c => is_name_char c = true) s).
Abbreviation all_space s := (Forall (fun c => is_space c = true) s).
Abbreviation no_space s := (Forall (fun c => is_space c = false) s).

End JsString.

Import JsString.

(** ** Helpers of the server *)

(** [toInternalName(label)]. *)
Definition toInternalName (label : jstring) : jstring :=
  let name := strip_other (replace_ws (trim (toLowerCase label))) in
  let name := if starts_with_digit name then str "p_" ++ name else name in
  slice0 250 name.

(** One entry of the options array built by [parseOptions]. *)
Record ChoiceOption := mkChoiceOption {
  label : jstring;
  value : jstring;
  displayOrder : nat;
  hidden : bool
}.

(** [toInternalName(label) || `option_${i}`]. *)
Definition option_value (i : nat) (l : jstring) : jstring :=
  if nonempty (toInternalName l) then toInternalName l
  else str "option_" ++ of_nat i.

(** [parseOptions(optionsStr)].  [None] stands for an [optionsStr] that is
    [undefined] or [null]. *)
Definition parseOptions (optionsStr : option jstring) : list ChoiceOption :=
  match optionsStr with
  | None => []
  | Some s =>
      if negb (nonempty s) || negb (nonempty (trim s)) then []
      else imap (fun i l => mkChoiceOption l (option_value i l) i false)
                (List.filter nonempty (List.map trim (split 59 s)))
  end.

(** ** JSON values *)

(** A value parsed from a response body.  A number is kept as the text
    JavaScript prints for it (the same text in [String(n)] and in
    [JSON.stringify(n)]), so that two numbers are the same value exactly when
    their texts are equal; the text of zero is [0].  An object is the list of
    its own properties in enumeration order. *)
#[local] Set Warnings "-register-all".

Inductive json :=
| JNull
| JBool (b : bool)
| JNum (text : jstring)
| JStr (s : jstring)
| JArr (items : list json)
| JObj (props : list (jstring * json)).

Module Json.

Definition hex_digit (d : N) : char := if d <? 10 then 48 + d else 87 + d.

(** [\uXXXX] with four lower-case hexadecimal digits. *)
Definition unicode_escape (c : char) : jstring :=
  [92; 117; hex_digit (c / 4096 mod 16); hex_digit (c / 256 mod 16);
   hex_digit (c / 16 mod 16); hex_digit (c mod 16)].

Definition is_lead_surrogate (c : char) : bool := in_range 55296 56319 c.
Definition is_trail_surrogate (c : char) : bool := in_range 56320 57343 c.

(** One code unit that is not part of a surrogate pair, as
    [QuoteJSONString] writes it. *)
Definition escape_unit (c : char) : jstring :=
  if c =? 8 then str "\b"
  else if c =? 9 then str "\t"
  else if c =? 10 then str "\n"
  else if c =? 12 then str "\f"
  else if c =? 13 then str "\r"
  else if c =? 34 then [92; 34]
  else if c =? 92 then [92; 92]
  else if (c <? 32) || is_lead_surrogate c || is_trail_surrogate c
       then unicode_escape c
  else [c].

Fixpoint quote_body (s : jstring) : jstring :=
  match s with
  | [] => []
  | c :: s' =>
      if is_lead_surrogate c then
        match s' with
        | d :: s'' =>
            if is_trail_surrogate d then c :: d :: quote_body s''
            else unicode_escape c ++ quote_body s'
        | [] => unicode_escape c
        end
      else escape_unit c ++ quote_body s'
  end.

Definition quote (s : jstring) : jstring := [34] ++ quote_body s ++ [34].

Fixpoint join_comma (l : list jstring) : jstring :=
  match l with
  | [] => []
  | [x] => x
  | x :: l' => x ++ [44] ++ join_comma l'
  end.

(** [JSON.stringify(v)] without indentation. *)
Fixpoint stringify (v : json) : jstring :=
  match v with
  | JNull => str "null"
  | JBool true => str "true"
  | JBool false => str "false"
  | JNum text => text
  | JStr s => quote s
  | JArr items => [91] ++ join_comma (List.map stringify items) ++ [93]
  | JObj props =>
      [123]
      ++ join_comma (List.map (fun kv => let '(k, x) := kv in
                                         quote k ++ [58] ++ stringify x) props)
      ++ [125]
  end.

End Json.

(** ** Regular expressions *)

Module Regex.

(** The fragment of the regular expressions the source uses: literals,
    classes, a greedy star or plus over a class, a greedy optional group and
    concatenation. *)
Inductive regex :=
| Lit (c : char)
| Cls (p : char -> bool)
| Star (p : char -> bool)
| Plus (p : char -> bool)
| Opt (r : regex)
| Seq (r1 r2 : regex).

(** The remainders after a greedy run over a class, the longest run first. *)
Fixpoint star_runs (p : char -> bool) (s : jstring) : list jstring :=
  match s with
  | c :: s' => if p c then star_runs p s' ++ [s] else [s]
  | [] => [[]]
  end.

(** Backtracking matcher: the remainders of [s] after every way of matching
    [r] at the start of [s], in the order the engine tries them. *)
Fixpoint run (r : regex) (s : jstring) : list jstring :=
  match r with
  | Lit c => match s with
             | d :: s' => if d =? c then [s'] else []
             | [] => []
             end
  | Cls p => match s with
             | d :: s' => if p d then [s'] else []
             | [] => []
             end
  | Star p => star_runs p s
  | Plus p => match s with
              | d :: s' => if p d then star_runs p s' else []
              | [] => []
              end
  | Opt r' => run r' s ++ [s]
  | Seq r1 r2 => flat_map (run r2) (run r1 s)
  end.

(** [run] followed by a continuation on every remainder. *)
Definition runk {A : Type} (r : regex) (k : jstring -> list A) (s : jstring) : list A :=
  flat_map k (run r s).

(** A sequence of literals. *)
Fixpoint lits (cs : jstring) (k : regex) : regex :=
  match cs with
  | [] => k
  | c :: cs' => Seq (Lit c) (lits cs' k)
  end.

(** A regular expression with one capturing group:
    [before (group) after]. *)
Record cregex := mkCregex { before : regex; group : regex; after : regex }.

(** The first match at the start of [s]: the text of group 1 and the
    remainder after the whole match. *)
Definition match_at (r : cregex) (s : jstring) : option (jstring * jstring) :=
  head (flat_map (fun s1 =>
          flat_map (fun s2 =>
            List.map (fun s3 => (take (length s1 - length s2) s1, s3))
                     (run (after r) s2))
            (run (group r) s1))
          (run (before r) s)).

(** The loop [while ((m = re.exec(str)) !== null) ...] for a global regular
    expression: the group texts [m[1]] of the successive matches.  [exec]
    looks for the leftmost match from [lastIndex] on and moves [lastIndex] to
    its end; [skip] counts the code units that remain inside the last match.
    The expressions of the source match at least four code units, so a match
    is never empty. *)
Fixpoint exec_all (r : cregex) (skip : nat) (s : jstring) : list jstring :=
  match s with
  | [] => []
  | _ :: s' =>
      match skip with
      | S k => exec_all r k s'
      | O =>
          match match_at r s with
          | Some (m1, rest) => m1 :: exec_all r (length s - length rest - 1) s'
          | None => exec_all r 0 s'
          end
      end
  end.

End Regex.

Import Json Regex.

(** ** The reference extractor *)

(** A JavaScript [Set] of strings: the members in insertion order. *)
Definition set_add (x : jstring) (names : list jstring) : list jstring :=
  if decide (x ∈ names) then names else names ++ [x].

Definition set_add_all (xs : list jstring) (names : list jstring) : list jstring :=
  fold_left (fun acc x => set_add x acc) xs names.

(** The regular expression of [extractPropNamesFromJson], piece by piece
    (Q stands for the double quote character):
    - Q, then [a-zA-Z] any number of times, then [Pp] and the letters roperty;
    - optionally [Nn] and the letters ame;
    - Q, white space, a colon, white space, Q;
    - group 1: [a-z] and then [a-z0-9_] any number of times;
    - Q.
    It has the global flag. *)
Definition propRe : cregex :=
  {| before :=
       Seq (Lit 34)
      (Seq (Star is_letter)
      (Seq (Cls (fun c => (c =? 80) || (c =? 112)))
      (lits (str "roperty")
      (Seq (Opt (Seq (Cls (fun c => (c =? 78) || (c =? 110))) (lits (str "am") (Lit 101))))
      (Seq (Lit 34)
      (Seq (Star is_space)
      (Seq (Lit 58)
      (Seq (Star is_space)
           (Lit 34)))))))));
     group := Seq (Cls is_lower) (Star is_name_char);
     after := Lit 34 |}.

(** [extractPropNamesFromJson(str)]. *)
Definition extractPropNamesFromJson (s : jstring) : list jstring :=
  set_add_all (exec_all propRe 0 s) [].

(** The regular expression of the token scan: two opening braces, [a-z_]
    once or more, a dot, group 1 made of [a-z0-9_] once or more, two closing
    braces.  It has the global flag. *)
Definition tokenRe : cregex :=
  {| before := Seq (Lit 123) (Seq (Lit 123) (Seq (Plus is_lower_us) (Lit 46)));
     group := Plus is_name_char;
     after := Seq (Lit 125) (Lit 125) |}.

(** [extractPropsFromJsonWithTokens(obj)]. *)
Definition extractPropsFromJsonWithTokens (obj : json) : list jstring :=
  let s := stringify obj in
  let names := extractPropNamesFromJson s in
  set_add_all (exec_all tokenRe 0 s) names.

Definition extractWorkflowProps (workflow : json) := extractPropsFromJsonWithTokens workflow.
Definition extractEmailProps (email : json) := extractPropsFromJsonWithTokens email.
Definition extractListProps (list : json) := extractPropNamesFromJson (stringify list).
Definition extractPipelineProps (pipeline : json) := extractPropNamesFromJson (stringify pipeline).
Definition extractReportProps (report : json) := extractPropNamesFromJson (stringify report).

(** *** What the scans are expected to find *)

(** The identifier shape of the structural scan: [a-z] followed by
    [a-z0-9_] any number of times. *)
Definition ident_shape (v : jstring) : bool :=
  match v with
  | c :: r => is_lower c && forallb is_name_char r
  | [] => false
  end.

(** The shape the token scan accepts for a field id: [a-z0-9_] once or
    more. *)
Definition token_field_shape (v : jstring) : bool :=
  nonempty v && forallb is_name_char v.

(** [s] starts with a placeholder: two opening braces, a source made of
    [a-z_] once or more, a dot, the field id [v] of shape [shape], two
    closing braces, and then [rest]. *)
Definition token_at (shape : jstring -> bool) (v rest s : jstring) : Prop :=
  exists src : jstring,
    s = [123; 123] ++ src ++ [46] ++ v ++ [125; 125] ++ rest
    /\ nonempty src = true /\ forallb is_lower_us src = true
    /\ shape v = true.

(** The text contains a placeholder with field id [v]. *)
Definition token_occurs (shape : jstring -> bool) (v text : jstring) : Prop :=
  exists pre rest s, text = pre ++ s /\ token_at shape v rest s.

(** ** Exceptions *)

(** A thrown value, as the [catch] blocks read it: [err.response?.data?.message]
    (absent for an error that is not a failed request) and [err.message]. *)
Record js_error := mkError {
  response_message : option json;
  message : jstring
}.

(** The result of running a piece of the program.  [OutOfFuel] is not a
    behaviour of the program: it marks a model run that was given too few
    steps. *)
Inductive outcome (A : Type) :=
| Ok (a : A)
| Throw (e : js_error)
| OutOfFuel.
Arguments Ok {A} a.
Arguments Throw {A} e.
Arguments OutOfFuel {A}.

Definition bind {A B : Type} (m : outcome A) (k : A -> outcome B) : outcome B :=
  match m with
  | Ok a => k a
  | Throw e => Throw e
  | OutOfFuel => OutOfFuel
  end.

Notation "'let*' x ':=' m 'in' k" := (bind m (fun x => k))
  (at level 10, x name, m at level 100, k at level 200).

(** [for (const x of xs) body], the loop variable threaded as a state. *)
Fixpoint for_each {A S : Type} (xs : list A) (body : A -> S -> outcome S) (st : S)
  : outcome S :=
  match xs with
  | [] => Ok st
  | x :: xs' => let* st' := body x st in for_each xs' body st'
  end.

(** A [TypeError] with the given text.  The texts are those of V8; nothing
    below depends on them. *)
Definition type_error (text : String.string) : js_error :=
  mkError None (str text).

(** ** JavaScript values *)

Module Js.

(** [undefined] is [None]; every other value met here is a JSON value. *)
Definition jsvalue := option json.

Definition is_zero_text (t : jstring) : bool := bool_decide (t = str "0").

Definition truthy (v : json) : bool :=
  match v with
  | JNull => false
  | JBool b => b
  | JNum t => negb (is_zero_text t)
  | JStr s => nonempty s
  | JArr _ | JObj _ => true
  end.

Definition truthy_value (v : jsvalue) : bool :=
  match v with Some x => truthy x | None => false end.

Definition is_primitive (v : json) : bool :=
  match v with JArr _ | JObj _ => false | _ => true end.

(** SameValueZero on two primitive values. *)
Definition prim_eqb (x y : json) : bool :=
  match x, y with
  | JNull, JNull => true
  | JBool a, JBool b => Bool.eqb a b
  | JNum a, JNum b => bool_decide (a = b)
  | JStr a, JStr b => bool_decide (a = b)
  | _, _ => false
  end.

(** The own property [k] of an object. *)
Definition lookup_prop (k : jstring) (props : list (jstring * json)) : jsvalue :=
  snd <$> List.find (fun kv => bool_decide (fst kv = k)) props.

(** [v.k] for a property name [k] that is not an array index, not [length]
    and not a member of a built-in prototype (the names the source reads:
    name, id, fields, paging and so on).  Reading a property of [null]
    throws; a primitive or an array has no such property. *)
Definition get (v : json) (k : String.string) : outcome jsvalue :=
  match v with
  | JNull => Throw (type_error "Cannot read properties of null")
  | JObj props => Ok (lookup_prop (str k) props)
  | _ => Ok None
  end.

(** [v?.k] on a value that may be [undefined]. *)
Definition get_opt (v : jsvalue) (k : String.string) : jsvalue :=
  match v with
  | Some (JObj props) => lookup_prop (str k) props
  | _ => None
  end.

(** [a || b]. *)
Definition or_else (a : jsvalue) (b : jsvalue) : jsvalue :=
  if truthy_value a then a else b.

(** The elements a [for ... of] loop takes from a string: its code points. *)
Fixpoint code_points (s : jstring) : list json :=
  match s with
  | [] => []
  | c :: s' =>
      match s' with
      | d :: s'' =>
          if is_lead_surrogate c && is_trail_surrogate d
          then JStr [c; d] :: code_points s''
          else JStr [c] :: code_points s'
      | [] => [JStr [c]]
      end
  end.

(** The elements of [for (const x of (v || []))]: nothing for a falsy [v],
    the elements of an array, the code points of a string; any other value is
    not iterable. *)
Definition iterate_or_empty (v : jsvalue) : outcome (list json) :=
  match v with
  | None => Ok []
  | Some x =>
      if negb (truthy x) then Ok []
      else match x with
           | JArr items => Ok items
           | JStr s => Ok (code_points s)
           | _ => Throw (type_error "is not iterable")
           end
  end.

Definition has_own (k : String.string) (props : list (jstring * json)) : bool :=
  match lookup_prop (str k) props with Some _ => true | None => false end.

(** [String(v)], as a template literal and a property key compute it.  An
    array joins the strings of its elements, with nothing for [null]; an
    object gives [[object Object]], unless it has an own property toString,
    which is not a function and makes the conversion throw. *)
Fixpoint to_string (v : json) : outcome jstring :=
  match v with
  | JNull => Ok (str "null")
  | JBool true => Ok (str "true")
  | JBool false => Ok (str "false")
  | JNum t => Ok t
  | JStr s => Ok s
  | JArr items =>
      (fix join (l : list json) : outcome jstring :=
         match l with
         | [] => Ok []
         | x :: l' =>
             let* sx := match x with JNull => Ok [] | _ => to_string x end in
             match l' with
             | [] => Ok sx
             | _ :: _ => let* rest := join l' in Ok (sx ++ [44] ++ rest)
             end
         end) items
  | JObj props =>
      if has_own "toString" props
      then Throw (type_error "Cannot convert object to primitive value")
      else Ok (str "[object Object]")
  end.

End Js.

Import Js.

(** ** The form walk *)

(** [names.add(x)] on a [Set] of values.  Two primitive values are the same
    member when they are equal; an array or an object read from a parsed item
    is a reference of its own and is always a new member. *)
Definition jset_add (x : json) (names : list json) : list json :=
  if is_primitive x && existsb (prim_eqb x) names then names else names ++ [x].

(** The nesting depth of a value, the bound on the recursion of
    [scanFields]. *)
Fixpoint json_depth (v : json) : nat :=
  match v with
  | JArr items => S (foldr Nat.max 0%nat (List.map json_depth items))
  | JObj props =>
      S (foldr Nat.max 0%nat
           (List.map (fun kv => let '(_, x) := kv in json_depth x) props))
  | _ => 0%nat
  end.

Section ScanFields.
(** The recursive calls of [scanFields]. *)
Variable recur : jsvalue -> list json -> outcome (list json).

(** The body of [for (const filter of (dep.dependentFieldFilters || []))]. *)
Definition scanFilter (filter : json) (names : list json) : outcome (list json) :=
  let* dff := get filter "dependentFormField" in
  match dff with
  | Some f => if truthy f then recur (Some (JArr [f])) names else Ok names
  | None => Ok names
  end.

(** The body of [for (const dep of (field.dependentFields || []))]. *)
Definition scanDep (dep : json) (names : list json) : outcome (list json) :=
  let* filters := get dep "dependentFieldFilters" in
  let* fl := iterate_or_empty filters in
  let* names1 := for_each fl scanFilter names in
  let* fs := get dep "fields" in
  recur fs names1.

(** The body of [for (const field of (fields || []))]. *)
Definition scanField (field : json) (names : list json) : outcome (list json) :=
  let* n := get field "name" in
  let names1 := match n with
                | Some x => if truthy x then jset_add x names else names
                | None => names
                end in
  let* deps := get field "dependentFields" in
  let* dl := iterate_or_empty deps in
  for_each dl scanDep names1.
End ScanFields.

(** [scanFields(fields)]; [names] is the set the closure adds to. *)
Fixpoint scanFields (fuel : nat) (fields : jsvalue) (names : list json)
  : outcome (list json) :=
  match fuel with
  | O => OutOfFuel
  | S n =>
      let* fl := iterate_or_empty fields in
      for_each fl (scanField (scanFields n)) names
  end.

(** [extractFormProps(form)]. *)
Definition extractFormProps (form : json) : outcome (list json) :=
  let fuel := S (json_depth form) in
  let* groups := get form "fieldGroups" in
  let* gl := iterate_or_empty groups in
  let* names1 :=
    for_each gl (fun group names =>
                   let* fs := get group "fields" in scanFields fuel fs names) [] in
  let* legacyFields := get form "formFields" in
  match legacyFields with
  | Some (JArr l) =>
      match l with
      | JArr _ :: _ => for_each l (fun row names => scanFields fuel (Some row) names) names1
      | _ => scanFields fuel (Some (JArr l)) names1
      end
  | _ => Ok names1
  end.

(** ** The cursor paginator *)

(** One call [axios.get(url, { headers, params })]. *)
Record request := mkRequest {
  url : jstring;
  authorization : jstring;
  params : list (jstring * json)
}.

(** The remote API: the body [res.data] of the response to a request, or the
    error [axios] throws for a transport failure or a non-success status. *)
Definition http_get := request -> outcome json.

(** [{ ...o, k: v }]: a later key replaces the value of an earlier one and
    keeps its place. *)
Fixpoint assign (k : jstring) (v : json) (o : list (jstring * json))
  : list (jstring * json) :=
  match o with
  | [] => [(k, v)]
  | (k', v') :: o' =>
      if bool_decide (k' = k) then (k, v) :: o' else (k', v') :: assign k v o'
  end.

Definition spread (src o : list (jstring * json)) : list (jstring * json) :=
  fold_left (fun acc kv => assign (fst kv) (snd kv) acc) src o.

(** [{ limit: 100, ...extra, ...(after ? { after } : {}) }]. *)
Definition page_params (extra : list (jstring * json)) (after : json)
  : list (jstring * json) :=
  spread (if truthy after then [(str "after", after)] else [])
         (spread extra [(str "limit", JNum (str "100"))]).

(** A property key that is an array index. *)
Definition array_index (k : jstring) : option nat :=
  match k with
  | [] => None
  | c :: r =>
      if forallb is_digit k && (negb (c =? 48) || negb (nonempty r))
      then Some (fold_left (fun acc d => (10 * acc + N.to_nat (d - 48))%nat) k 0%nat)
      else None
  end.

(** [res.data[key]] when it is an array ([Some]), for any key: an own
    property of an object, or an element of an array when the key is an
    index.  No other property of a JSON value is an array.  Reading a
    property of [null] throws. *)
Definition batch_of (data : json) (key : jstring) : outcome (option (list json)) :=
  match data with
  | JNull => Throw (type_error "Cannot read properties of null")
  | JObj props =>
      match lookup_prop key props with
      | Some (JArr batch) => Ok (Some batch)
      | _ => Ok None
      end
  | JArr items =>
      match array_index key with
      | Some i => match items !! i with
                  | Some (JArr batch) => Ok (Some batch)
                  | _ => Ok None
                  end
      | None => Ok None
      end
  | _ => Ok None
  end.

(** [res.data.paging?.next?.after ?? null]. *)
Definition next_cursor (data : json) : json :=
  match get_opt (get_opt (get_opt (Some data) "paging") "next") "after" with
  | Some a => a
  | None => JNull
  end.

Section Paginate.
Variable http : http_get.
Variables (token url key : jstring) (extra : list (jstring * json)).

(** The [do ... while (after)] loop: the result and the requests issued,
    in order. *)
Fixpoint paginate_loop (fuel : nat) (items : list json) (after : json)
  : outcome (list json) * list request :=
  match fuel with
  | O => (OutOfFuel, [])
  | S n =>
      let req := mkRequest url (str "Bearer " ++ token) (page_params extra after) in
      match http req with
      | Ok data =>
          match batch_of data key with
          | Ok batch =>
              let items' := match batch with
                            | Some b => items ++ b
                            | None => items
                            end in
              let after' := next_cursor data in
              if truthy after'
              then let '(r, log) := paginate_loop n items' after' in (r, req :: log)
              else (Ok items', [req])
          | Throw e => (Throw e, [req])
          | OutOfFuel => (OutOfFuel, [req])
          end
      | Throw e => (Throw e, [req])
      | OutOfFuel => (OutOfFuel, [req])
      end
  end.

(** [paginateHubSpot(token, url, key, extra)]. *)
Definition paginateHubSpot (fuel : nat) : outcome (list json) * list request :=
  paginate_loop fuel [] JNull.
End Paginate.

(** ** The usage scan: provenance *)

(** The six values of the [type] argument of [addUsage]. *)
Inductive kind := Workflows | Forms | Lists | Pipelines | Emails | Reports.

Definition kind_key (k : kind) : jstring :=
  match k with
  | Workflows => str "workflows"
  | Forms => str "forms"
  | Lists => str "lists"
  | Pipelines => str "pipelines"
  | Emails => str "emails"
  | Reports => str "reports"
  end.

Definition all_kinds : list kind := [Workflows; Forms; Lists; Pipelines; Emails; Reports].

#[global] Instance kind_eq_dec : EqDecision kind.
Proof. solve_decision. Defined.

Definition kind_of_key (p : jstring) : option kind :=
  List.find (fun k => bool_decide (kind_key k = p)) all_kinds.

(** The name of the item a reference was found in.  [includes] compares with
    SameValueZero: two primitive names by their value, an array or an object
    by identity, which is the identity of the item that carries it: the pair
    of the number of the fetch inside its source and of its index in the
    fetched list. *)
Record source_name := mkSourceName {
  sn_item : nat * nat;
  sn_value : json
}.

Definition same_source (a b : source_name) : bool :=
  if is_primitive (sn_value a) then prim_eqb (sn_value a) (sn_value b)
  else negb (is_primitive (sn_value b)) && bool_decide (sn_item a = sn_item b).

(** The objects [addUsage] can reach from [usageDetails].  [usageDetails] is
    an ordinary object, so a property name that it does not own is looked up
    in [Object.prototype]: [usageDetails[propName]] is then a built-in
    function, [Object.prototype] itself (for the name __proto__), or an array
    that an earlier call stored in [Object.prototype]. *)
Inductive objid :=
| ObjectPrototype
| Builtin (name : jstring)
| Entry (propName : jstring)
| ArrayOf (o : objid) (k : kind).

#[global] Instance objid_eq_dec : EqDecision objid.
Proof. solve_decision. Defined.

(** The own properties of [Object.prototype] in Node, the accessor __proto__
    apart. *)
Definition builtin_names : list jstring :=
  List.map str
    [ "constructor"; "__defineGetter__"; "__defineSetter__"; "hasOwnProperty";
      "__lookupGetter__"; "__lookupSetter__"; "isPrototypeOf";
      "propertyIsEnumerable"; "toString"; "valueOf"; "toLocaleString" ]%string.

(** The part of the heap [addUsage] works on: the own keys of
    [usageDetails], in insertion order, and the arrays stored under a [type]
    key of an object, in creation order. *)
Record usage := mkUsage {
  own_keys : list jstring;
  arrays : list (objid * kind * list source_name)
}.

Definition empty_usage : usage := mkUsage [] [].

Definition find_array (o : objid) (k : kind)
    (arrs : list (objid * kind * list source_name)) : option (list source_name) :=
  snd <$> List.find (fun e => bool_decide (fst e = (o, k))) arrs.

Fixpoint set_array (o : objid) (k : kind) (names : list source_name)
    (arrs : list (objid * kind * list source_name))
  : list (objid * kind * list source_name) :=
  match arrs with
  | [] => [(o, k, names)]
  | e :: arrs' =>
      if bool_decide (fst e = (o, k)) then (o, k, names) :: arrs'
      else e :: set_array o k names arrs'
  end.

(** [usageDetails[propName]], [None] when it is [undefined]. *)
Definition resolve_prop (u : usage) (p : jstring) : option objid :=
  if bool_decide (p ∈ own_keys u) then Some (Entry p)
  else if bool_decide (p = str "__proto__") then Some ObjectPrototype
  else if bool_decide (p ∈ builtin_names) then Some (Builtin p)
  else match kind_of_key p with
       | Some k => match find_array ObjectPrototype k (arrays u) with
                   | Some _ => Some (ArrayOf ObjectPrototype k)
                   | None => None
                   end
       | None => None
       end.

(** [o[type]]: the object that owns the array, [None] when the property is
    [undefined].  Every object inherits from [Object.prototype]. *)
Definition resolve_type (u : usage) (o : objid) (k : kind) : option objid :=
  match find_array o k (arrays u) with
  | Some _ => Some o
  | None =>
      match find_array ObjectPrototype k (arrays u) with
      | Some _ => Some ObjectPrototype
      | None => None
      end
  end.

(** [addUsage(propName, type, sourceName)] for the property key [p] that
    [propName] converts to. *)
Definition addUsage_key (p : jstring) (k : kind) (sourceName : source_name)
    (u : usage) : usage :=
  let '(o, u1) :=
    match resolve_prop u p with
    | Some o => (o, u)
    | None => (Entry p, mkUsage (own_keys u ++ [p]) (arrays u))
    end in
  let '(owner, u2) :=
    match resolve_type u1 o k with
    | Some owner => (owner, u1)
    | None => (o, mkUsage (own_keys u1) (arrays u1 ++ [(o, k, [])]))
    end in
  let names := default [] (find_array owner k (arrays u2)) in
  if existsb (same_source sourceName) names then u2
  else mkUsage (own_keys u2) (set_array owner k (names ++ [sourceName]) (arrays u2)).

(** [addUsage(propName, type, sourceName)]; the conversion of [propName] to
    a property key can throw. *)
Definition addUsage (propName : json) (k : kind) (sourceName : source_name)
    (u : usage) : outcome usage :=
  let* p := to_string propName in
  Ok (addUsage_key p k sourceName u).

(** [propertyUsageDetails] as the response carries it: the own properties
    only. *)
Definition provenance (u : usage) (p : jstring) (k : kind) : option (list source_name) :=
  if bool_decide (p ∈ own_keys u) then find_array (Entry p) k (arrays u) else None.

(** ** The usage scan: the route *)

(** What the handler of [POST /api/fetch-usage-context] mutates.  A counter
    is [None] once it is no longer a plain count: a length that is not a
    whole number below 2^32 ([undefined], for one) was added to it. *)
Record scan_state := mkScan {
  warnings : list jstring;
  usageDetails : usage;
  props : kind -> list json;
  counts : kind -> option nat;
  requests : list request
}.

Definition initial_state : scan_state :=
  mkScan [] empty_usage (fun _ => []) (fun _ => Some 0%nat) [].

Definition update {A : Type} (f : kind -> A) (k : kind) (a : A) : kind -> A :=
  fun k' => if bool_decide (k' = k) then a else f k'.

(** A statement: it changes the state and completes or throws; what it
    changed before it threw stays changed. *)
Definition stm (A : Type) := scan_state -> outcome A * scan_state.

Definition ret {A : Type} (a : A) : stm A := fun st => (Ok a, st).

Definition lift {A : Type} (m : outcome A) : stm A := fun st => (m, st).

Definition bind_stm {A B : Type} (m : stm A) (k : A -> stm B) : stm B :=
  fun st =>
    match m st with
    | (Ok a, st') => k a st'
    | (Throw e, st') => (Throw e, st')
    | (OutOfFuel, st') => (OutOfFuel, st')
    end.

Notation "'do*' x ':=' m 'in' k" := (bind_stm m (fun x => k))
  (at level 10, x name, m at level 100, k at level 200).

Fixpoint for_each_stm {A : Type} (xs : list A) (body : A -> stm unit) : stm unit :=
  match xs with
  | [] => ret tt
  | x :: xs' => do* _ := body x in for_each_stm xs' body
  end.

(** [try { body } catch (err) { handler(err) }]. *)
Definition try_catch (body : stm unit) (handler : js_error -> stm unit) : stm unit :=
  fun st =>
    match body st with
    | (Throw e, st') => handler e st'
    | r => r
    end.

(** [err.response?.data?.message || err.message]. *)
Definition error_text (e : js_error) : json :=
  match response_message e with
  | Some v => if truthy v then v else JStr (message e)
  | None => JStr (message e)
  end.

(** [warnings.push(`<label>: ${err.response?.data?.message || err.message}`)];
    the conversion of the message to a string can throw. *)
Definition push_warning (label : String.string) (e : js_error) : stm unit :=
  do* text := lift (to_string (error_text e)) in
  fun st => (Ok tt, mkScan (warnings st ++ [str label ++ str ": " ++ text])
                           (usageDetails st) (props st) (counts st) (requests st)).

(** [await axios.get(url, { headers, params })]. *)
Definition axios_get (http : http_get) (req : request) : stm json :=
  fun st => (http req, mkScan (warnings st) (usageDetails st) (props st) (counts st)
                              (requests st ++ [req])).

(** [await paginateHubSpot(token, url, key, extra)]. *)
Definition paginate (http : http_get) (fuel : nat) (token url key : jstring)
    (extra : list (jstring * json)) : stm (list json) :=
  fun st =>
    let '(r, log) := paginateHubSpot http token url key extra fuel in
    (r, mkScan (warnings st) (usageDetails st) (props st) (counts st)
               (requests st ++ log)).

Definition set_count (k : kind) (n : option nat) : stm unit :=
  fun st => (Ok tt, mkScan (warnings st) (usageDetails st) (props st)
                           (update (counts st) k n) (requests st)).

(** [xProps.add(name)] for the set of the kind [k]. *)
Definition add_prop (k : kind) (name : json) : stm unit :=
  fun st => (Ok tt, mkScan (warnings st) (usageDetails st)
                           (update (props st) k (jset_add name (props st k)))
                           (counts st) (requests st)).

(** [addUsage(name, type, sourceName)] as a statement of the handler. *)
Definition add_usage (k : kind) (sourceName : source_name) (name : json) : stm unit :=
  fun st =>
    match addUsage name k sourceName (usageDetails st) with
    | Ok u => (Ok tt, mkScan (warnings st) u (props st) (counts st) (requests st))
    | Throw e => (Throw e, st)
    | OutOfFuel => (OutOfFuel, st)
    end.

(** [xProps.add(name); addUsage(name, type, sourceName);] *)
Definition record_use (k : kind) (sourceName : source_name) (name : json) : stm unit :=
  do* _ := add_prop k name in add_usage k sourceName name.

(** The body of the loop over the items of one source: the name of the item,
    then one [record_use] for every name the extractor returns. *)
Definition scan_item (k : kind) (name_of : json -> outcome json)
    (extract : json -> outcome (list json)) (fetch_no : nat)
    (indexed : nat * json) : stm unit :=
  let '(i, item) := indexed in
  do* v := lift (name_of item) in
  do* names := lift (extract item) in
  for_each_stm names (record_use k (mkSourceName (fetch_no, i) v)).

Definition scan_items (k : kind) (name_of : json -> outcome json)
    (extract : json -> outcome (list json)) (fetch_no : nat)
    (items : list json) : stm unit :=
  for_each_stm (imap (fun i item => (i, item)) items)
               (scan_item k name_of extract fetch_no).

(** [item.k1 || item.k2 || fallback]. *)
Definition first_truthy (item : json) (k1 k2 : String.string) (fallback : String.string)
  : outcome json :=
  let* a := get item k1 in
  if truthy_value a then Ok (default JNull a)
  else let* b := get item k2 in
       if truthy_value b then Ok (default JNull b)
       else Ok (JStr (str fallback)).

(** [wf.name || `Workflow ${wf.id || ''}`.trim()]. *)
Definition workflow_name (wf : json) : outcome json :=
  let* a := get wf "name" in
  if truthy_value a then Ok (default JNull a)
  else let* b := get wf "id" in
       let* text := (if truthy_value b then to_string (default JNull b) else Ok []) in
       Ok (JStr (trim (str "Workflow " ++ text))).

Definition strings (names : list jstring) : list json := List.map JStr names.

(** The number a numeral of decimal digits stands for. *)
Definition digits_value (t : jstring) : N :=
  fold_left (fun acc d => 10 * acc + (d - 48)) t 0.

(** [x.length] for an object read from a response, as a count: the own
    property [length] when it is a whole number in the range of the array
    lengths (below 2^32), [None] for any other value and when the object has
    no such property. *)
Definition own_length (props : list (jstring * json)) : option nat :=
  match lookup_prop (str "length") props with
  | Some (JNum t) =>
      match array_index t with
      | Some _ => if digits_value t <? 4294967296 then Some (N.to_nat (digits_value t))
                  else None
      | None => None
      end
  | _ => None
  end.

(** [res.data.results || []] and the like, as [.length] and then the loop
    see it: the items and their number.  The length is read before the loop
    starts, so that an object, which is not iterable, still gives its own
    [length]; a number or [true] has none. *)
Definition items_of (v : jsvalue) : outcome (list json) * option nat :=
  match v with
  | Some (JArr items) => (Ok items, Some (length items))
  | Some (JStr s) => (Ok (code_points s), Some (length s))
  | Some (JObj props) => (Throw (type_error "is not iterable"), own_length props)
  | Some x => if truthy x then (Throw (type_error "is not iterable"), None)
              else (Ok [], Some 0%nat)
  | None => (Ok [], Some 0%nat)
  end.

Definition add_count (k : kind) (n : option nat) : stm unit :=
  fun st =>
    let total := match counts st k, n with
                 | Some a, Some b => Some (a + b)%nat
                 | _, _ => None
                 end in
    (Ok tt, mkScan (warnings st) (usageDetails st) (props st)
                   (update (counts st) k total) (requests st)).

Section Route.
Variable http : http_get.
Variable fuel : nat.
Variable token : jstring.

Definition api (path : String.string) : jstring := str "https://api.hubapi.com" ++ str path.

Definition workflows_block : stm unit :=
  try_catch
    (do* workflows := paginate http fuel token (api "/automation/v3/workflows")
                               (str "workflows") [] in
     do* _ := set_count Workflows (Some (length workflows)) in
     scan_items Workflows workflow_name
                (fun wf => Ok (strings (extractWorkflowProps wf))) 0 workflows)
    (push_warning "Workflows").

Definition forms_block : stm unit :=
  try_catch
    (do* forms := paginate http fuel token (api "/marketing/v3/forms")
                           (str "results") [] in
     do* _ := set_count Forms (Some (length forms)) in
     scan_items Forms (fun f => first_truthy f "name" "id" "Unnamed Form")
                extractFormProps 0 forms)
    (push_warning "Forms").

Definition lists_block : stm unit :=
  try_catch
    (do* lists := paginate http fuel token (api "/crm/v3/lists") (str "lists")
                           [(str "includeFilters", JBool true)] in
     do* _ := set_count Lists (Some (length lists)) in
     scan_items Lists (fun l => first_truthy l "name" "listId" "Unnamed List")
                (fun l => Ok (strings (extractListProps l))) 0 lists)
    (push_warning "Lists").

(** One round of [for (const pipelineObj of ['deals', 'tickets'])]. *)
Definition pipelines_of (fetch_no : nat) (pipelineObj : String.string) : stm unit :=
  do* data := axios_get http
                (mkRequest (api "/crm/v3/pipelines/" ++ str pipelineObj)
                           (str "Bearer " ++ token) []) in
  do* results := lift (get data "results") in
  let '(pipelines, n) := items_of results in
  do* _ := add_count Pipelines n in
  do* items := lift pipelines in
  scan_items Pipelines (fun x => first_truthy x "label" "id" "Unnamed Pipeline")
             (fun x => Ok (strings (extractPipelineProps x))) fetch_no items.

Definition pipelines_block : stm unit :=
  try_catch
    (do* _ := pipelines_of 0 "deals" in pipelines_of 1 "tickets")
    (push_warning "Pipelines").

Definition emails_block : stm unit :=
  try_catch
    (do* emails := paginate http fuel token (api "/marketing/v3/emails")
                            (str "results") [] in
     do* _ := set_count Emails (Some (length emails)) in
     scan_items Emails (fun e => first_truthy e "name" "id" "Unnamed Email")
                (fun e => Ok (strings (extractEmailProps e))) 0 emails)
    (push_warning "Marketing emails").

Definition reports_block : stm unit :=
  try_catch
    (do* data := axios_get http
                   (mkRequest (api "/reporting/v1/reports") (str "Bearer " ++ token)
                              [(str "limit", JNum (str "300"))]) in
     do* objects := lift (get data "objects") in
     do* found := (if truthy_value objects then ret objects
                   else lift (get data "results")) in
     let '(reports, n) := items_of found in
     do* _ := set_count Reports n in
     do* items := lift reports in
     scan_items Reports (fun x => first_truthy x "name" "id" "Unnamed Report")
                (fun x => Ok (strings (extractReportProps x))) 0 items)
    (push_warning "Reports").

(** The handler after the token check, up to [res.json(...)]: the final
    state is what the response is built from. *)
Definition fetch_usage_context : outcome unit * scan_state :=
  (do* _ := workflows_block in
   do* _ := forms_block in
   do* _ := lists_block in
   do* _ := pipelines_block in
   do* _ := emails_block in
   reports_block) initial_state.
End Route.

(** *** What a drained endpoint looks like *)

Section PaginateSpec.
Variable http : http_get.
Variables (token url key : jstring) (extra : list (jstring * json)).

(** The request for the page after the cursor [after] ([null] for the
    first page). *)
Definition page_request (after : json) : request :=
  mkRequest url (str "Bearer " ++ token) (page_params extra after).



(** The items a body contributes. *)
Definition page_items (data : json) : list json :=
  match batch_of data key with
  | Ok (Some batch) => batch
  | _ => []
  end.

(** The body holds no array under the item key: an object without the key
    or with another value under it; an array, unless the key is the numeral
    of a position that holds an array; a string, a number or a boolean. *)
Definition lacks_items (data : json) : Prop :=
  match data with
  | JObj props => forall b, lookup_prop key props <> Some (JArr b)
  | JArr elems => forall i b, elems !! i = Some (JArr b) -> key <> of_nat i
  | _ => True
  end.

(** A body that is not [null] and carries a further cursor. *)
Definition has_next (data : json) : Prop :=
  data <> JNull /\ truthy (next_cursor data) = true.

End PaginateSpec.

(** A page body with the items under [key] and, when [cursor] is given, the
    section [paging.next.after]. *)
Definition page_body (key : jstring) (items : list json) (cursor : option jstring) : json :=
  JObj ((key, JArr items)
        :: match cursor with
           | Some c => [(str "paging", JObj [(str "next", JObj [(str "after", JStr c)])])]
           | None => []
           end).

(** *** Sample servers *)

Definition sample_items (from n : nat) : list json :=
  List.map (fun i => JNum (of_nat i)) (seq from n).

(** Three pages of 100, 100 and 37 items under [results], chained by the
    cursors 100 and 200. *)
Definition three_pages : http_get := fun r =>
  match lookup_prop (str "after") (params r) with
  | None => Ok (page_body (str "results") (sample_items 0 100) (Some (str "100")))
  | Some (JStr c) =>
      if bool_decide (c = str "100")
      then Ok (page_body (str "results") (sample_items 100 100) (Some (str "200")))
      else Ok (page_body (str "results") (sample_items 200 37) None)
  | Some _ => Ok (JObj [])
  end.


(** Every body is [null]. *)
Definition null_body : http_get := fun _ => Ok JNull.


(** Every body is a bare list whose first element is a list: no object with
    the items under a key. *)
Definition bare_list : http_get := fun _ => Ok (JArr [JArr [JNum (str "1")]]).

(** *** The provenance invariant *)

(** No name of the list is the same value, for [includes], as an earlier
    one. *)
Definition distinct_sources (names : list source_name) : Prop :=
  forall i j a b, (i < j)%nat -> names !! i = Some a -> names !! j = Some b ->
                  same_source b a = false.

(** The invariant of the usage record, on the provenance map as the response
    carries it: the names of a field for a kind are distinct, and a field
    has an entry for a kind only if the set of the kind has a member with
    that property key. *)
Definition provenance_ok (st : scan_state) : Prop :=
  forall p k names,
    provenance (usageDetails st) p k = Some names ->
    distinct_sources names
    /\ exists name, name ∈ props st k /\ to_string name = Ok p.

(** The arrays of the store, for a reading [P p k] of "the set of the kind
    [k] has a member with the key [p]". *)
Definition arrays_ok (P : jstring -> kind -> Prop)
    (arrs : list (objid * kind * list source_name)) : Prop :=
  Forall (fun e => distinct_sources (snd e)) arrs
  /\ forall p k names, (Entry p, k, names) ∈ arrs -> P p k.

(** The set of the kind [k] has a member with the property key [p]. *)
Definition has_member (st : scan_state) (p : jstring) (k : kind) : Prop :=
  exists name, name ∈ props st k /\ to_string name = Ok p.

(** The invariant on the whole store: every array, also one that landed in
    an inherited object, has distinct names. *)
Definition store_ok (st : scan_state) : Prop :=
  arrays_ok (has_member st) (arrays (usageDetails st)).

(** A statement keeps the invariant. *)
Definition preserves {A : Type} (m : stm A) : Prop :=
  forall st, store_ok st -> store_ok (snd (m st)).

(** *** Sources do not depend on each other *)

(** A statement of the source of kind [k]: its outcome, what it adds to the
    set of the kind and the warnings it pushes depend on the state only
    through the set of the kind, and it leaves the sets of the other kinds
    alone. *)
Definition uniform {A : Type} (k : kind) (m : stm A) : Prop :=
  forall st1 st2, props st1 k = props st2 k ->
    fst (m st1) = fst (m st2)
    /\ props (snd (m st1)) k = props (snd (m st2)) k
    /\ (exists ws, warnings (snd (m st1)) = warnings st1 ++ ws
                   /\ warnings (snd (m st2)) = warnings st2 ++ ws)
    /\ (forall k', k' <> k -> props (snd (m st1)) k' = props st1 k').

(** The six sources in the order of the handler, each with its kind. *)
Definition all_sources (http : http_get) (fuel : nat) (token : jstring)
  : list (stm unit * kind) :=
  [ (workflows_block http fuel token, Workflows);
    (forms_block http fuel token, Forms);
    (lists_block http fuel token, Lists);
    (pipelines_block http token, Pipelines);
    (emails_block http fuel token, Emails);
    (reports_block http token, Reports) ].

(** The five sources other than the forms, each with its kind. *)
Definition other_sources (http : http_get) (fuel : nat) (token : jstring)
  : list (stm unit * kind) :=
  [ (workflows_block http fuel token, Workflows);
    (lists_block http fuel token, Lists);
    (pipelines_block http token, Pipelines);
    (emails_block http fuel token, Emails);
    (reports_block http token, Reports) ].

(** A statement only adds to the set of the kind [k]. *)
Definition grows {A : Type} (k : kind) (m : stm A) : Prop :=
  forall st x, x ∈ props st k -> x ∈ props (snd (m st)) k.

(** The three sources that go through the paginator and the regular
    expression scans: endpoint, item key, extra parameters and extractor. *)
Definition paged_source (k : kind)
  : option (jstring * jstring * list (jstring * json) * (json -> list jstring)) :=
  match k with
  | Workflows => Some (api "/automation/v3/workflows", str "workflows", [],
                       extractWorkflowProps)
  | Lists => Some (api "/crm/v3/lists", str "lists",
                   [(str "includeFilters", JBool true)], extractListProps)
  | Emails => Some (api "/marketing/v3/emails", str "results", [], extractEmailProps)
  | _ => None
  end.

(** A statement pushes no warning. *)
Definition silent {A : Type} (m : stm A) : Prop :=
  forall st, warnings (snd (m st)) = warnings st.

(** *** A sample account *)

Definition ends_with (suffix s : jstring) : bool :=
  bool_decide (drop (length s - length suffix) s = suffix).

(** An account whose forms endpoint answers 403 while the other endpoints
    answer with one page each. *)
Definition forms_down : http_get := fun r =>
  if ends_with (str "/forms") (url r) then
    Throw (mkError (Some (JStr (str "This app lacks the forms scope")))
                   (str "Request failed with status code 403"))
  else if ends_with (str "/workflows") (url r) then
    Ok (JObj [(str "workflows",
               JArr [JObj [(str "id", JNum (str "7"));
                           (str "name", JStr (str "Welcome"));
                           (str "actions",
                            JArr [JObj [(str "propertyName", JStr (str "lead_status"))]]);
                           (str "body", JStr (str "Hi {{contact.favorite_color}}"))]])])
  else if ends_with (str "/lists") (url r) then
    Ok (JObj [(str "lists",
               JArr [JObj [(str "listId", JNum (str "3"));
                           (str "name", JStr (str "Hot leads"));
                           (str "filters",
                            JArr [JObj [(str "property", JStr (str "lead_status"))]])]])])
  else if ends_with (str "/deals") (url r) then
    Ok (JObj [(str "results",
               JArr [JObj [(str "label", JStr (str "Sales"));
                           (str "stages",
                            JArr [JObj [(str "requiredProperty", JStr (str "amount"))]])]])])
  else if ends_with (str "/tickets") (url r) then
    Ok (JObj [(str "results", JArr [])])
  else if ends_with (str "/emails") (url r) then
    Ok (JObj [(str "results",
               JArr [JObj [(str "name", JStr (str "News"));
                           (str "subject", JStr (str "{{contact.firstname}}, hello"))]])])
  else
    Ok (JObj [(str "objects",
               JArr [JObj [(str "name", JStr (str "Closed deals"));
                           (str "filterProperty", JStr (str "closedate"))]])]).

(** The same account when the failure of the forms endpoint carries, as its
    message, an object with an own property toString. *)
Definition forms_unprintable : http_get := fun r =>
  if ends_with (str "/forms") (url r) then
    Throw (mkError (Some (JObj [(str "toString", JNull)]))
                   (str "Request failed with status code 400"))
  else forms_down r.

(** The request for the reports. *)
Definition reports_request (token : jstring) : request :=
  mkRequest (api "/reporting/v1/reports") (str "Bearer " ++ token)
            [(str "limit", JNum (str "300"))].

(** *** The fields of a form, in the words of the specification *)

(** The property [k] of a value, [None] when the value has none. *)
Definition prop_of (v : json) (k : String.string) : jsvalue := get_opt (Some v) k.

(** The elements of a list property, none when the property is absent. *)
Definition list_of (v : jsvalue) : list json :=
  match v with
  | Some (JArr items) => items
  | _ => []
  end.

(** [sub] is a conditional field right under [field]: the
    [dependentFormField] of one of the [dependentFieldFilters] of one of
    its [dependentFields], or a member of the legacy [fields] list of one of
    its [dependentFields]. *)
Definition sub_field (field sub : json) : Prop :=
  exists dep, dep ∈ list_of (prop_of field "dependentFields")
    /\ ((exists filter, filter ∈ list_of (prop_of dep "dependentFieldFilters")
                        /\ prop_of filter "dependentFormField" = Some sub
                        /\ truthy sub = true)
        \/ sub ∈ list_of (prop_of dep "fields")).

Definition is_array (v : json) : bool :=
  match v with JArr _ => true | _ => false end.

(** The legacy field list, flattened when it is a list of rows. *)
Definition legacy_fields (form : json) : list json :=
  match prop_of form "formFields" with
  | Some (JArr l) =>
      if forallb is_array l then concat (List.map (fun row => list_of (Some row)) l)
      else l
  | _ => []
  end.

(** The fields at the top of a form: those of the field groups and the
    legacy ones. *)
Definition top_field (form f : json) : Prop :=
  (exists g, g ∈ list_of (prop_of form "fieldGroups")
             /\ f ∈ list_of (prop_of g "fields"))
  \/ f ∈ legacy_fields form.

(** The fields of a form: the top ones and every conditional field under
    them, at any depth. *)
Definition form_field (form f : json) : Prop :=
  exists f0, top_field form f0 /\ rtc sub_field f0 f.

(** [n] is the name the field carries. *)
Definition field_name (f n : json) : Prop :=
  prop_of f "name" = Some n /\ truthy n = true.

(** *** The shape of a form *)

(** A list property of the expected shape: absent, [null], or an array
    whose elements have the shape [elem]. *)
Definition list_shape (elem : json -> bool) (v : json) : bool :=
  match v with
  | JNull => true
  | JArr items => forallb elem items
  | _ => false
  end.

(** An object whose property [k], when present, has the shape [shape]. *)
Definition on_key (k : String.string) (shape : json -> bool) (kv : jstring * json) : bool :=
  if bool_decide (fst kv = str k) then shape (snd kv) else true.

(** A field: an object whose [dependentFields], when present, is a list of
    objects, each with a list [dependentFieldFilters] of objects whose
    [dependentFormField] is falsy or a field, and with a list [fields] of
    fields. *)
Fixpoint field_shape (v : json) : bool :=
  match v with
  | JObj props =>
      forallb (fun kv => let '(k, x) := kv in
        if bool_decide (k = str "dependentFields") then
          match x with
          | JNull => true
          | JArr deps =>
              forallb (fun dep =>
                match dep with
                | JObj dprops =>
                    forallb (fun kv2 => let '(k2, y) := kv2 in
                      if bool_decide (k2 = str "dependentFieldFilters") then
                        match y with
                        | JNull => true
                        | JArr filters =>
                            forallb (fun filter =>
                              match filter with
                              | JObj fprops =>
                                  forallb (fun kv3 => let '(k3, z) := kv3 in
                                    if bool_decide (k3 = str "dependentFormField")
                                    then negb (truthy z) || field_shape z
                                    else true) fprops
                              | _ => false
                              end) filters
                        | _ => false
                        end
                      else if bool_decide (k2 = str "fields") then
                        match y with
                        | JNull => true
                        | JArr fs => forallb field_shape fs
                        | _ => false
                        end
                      else true) dprops
                | _ => false
                end) deps
          | _ => false
          end
        else true) props
  | _ => false
  end.

(** The shapes inside [field_shape], by name. *)
Definition filter_shape (filter : json) : bool :=
  match filter with
  | JObj fprops =>
      forallb (fun kv3 => let '(k3, z) := kv3 in
        if bool_decide (k3 = str "dependentFormField")
        then negb (truthy z) || field_shape z
        else true) fprops
  | _ => false
  end.

Definition dep_shape (dep : json) : bool :=
  match dep with
  | JObj dprops =>
      forallb (fun kv2 => let '(k2, y) := kv2 in
        if bool_decide (k2 = str "dependentFieldFilters") then list_shape filter_shape y
        else if bool_decide (k2 = str "fields") then list_shape field_shape y
        else true) dprops
  | _ => false
  end.

(** The argument of [scanFields]: [undefined] or a list of fields. *)
Definition fields_shape (v : jsvalue) : Prop :=
  match v with
  | Some x => list_shape field_shape x = true
  | None => True
  end.

Definition depth_of (v : jsvalue) : nat :=
  match v with Some x => json_depth x | None => 0%nat end.

(** [y] is the name of [f] or of a conditional field under it. *)
Definition reach (f y : json) : Prop :=
  exists f', rtc sub_field f f' /\ field_name f' y.

(** What the recursive call of [scanFields] does on values of depth below
    [d]: it adds the names reachable from the fields of the list. *)
Definition recur_ok (d : nat) (recur : jsvalue -> list json -> outcome (list json)) : Prop :=
  forall fields names,
    fields_shape fields -> (depth_of fields < d)%nat ->
    exists names', recur fields names = Ok names'
      /\ forall y, y ∈ names' <-> y ∈ names \/ exists f, f ∈ list_of fields /\ reach f y.

(** A form: an object whose [fieldGroups], when present, is a list of
    objects with a list [fields] of fields, and whose [formFields], when
    present, is a list of fields or a list of rows of fields. *)
Definition group_shape (g : json) : bool :=
  match g with
  | JObj props => forallb (on_key "fields" (list_shape field_shape)) props
  | _ => false
  end.

Definition legacy_shape (v : json) : bool :=
  match v with
  | JNull => true
  | JArr l => forallb field_shape l
              || forallb (fun row => is_array row && list_shape field_shape row) l
  | _ => false
  end.

Definition form_shape (form : json) : bool :=
  match form with
  | JObj props =>
      forallb (on_key "fieldGroups" (list_shape group_shape)) props
      && forallb (on_key "formFields" legacy_shape) props
  | _ => false
  end.

(** A sample form: a field with a conditional field two levels deep and a
    legacy sub-list, and legacy rows. *)
Definition sample_field (n : String.string) (deps : list json) : json :=
  JObj [(str "name", JStr (str n)); (str "dependentFields", JArr deps)].

Definition sample_form : json :=
  JObj [(str "fieldGroups",
         JArr [JObj [(str "fields",
                      JArr [sample_field "email"
                              [JObj [(str "dependentFieldFilters",
                                      JArr [JObj [(str "dependentFormField",
                                                   sample_field "phone" [])]]);
                                     (str "fields", JArr [sample_field "city" []])]]])]]);
        (str "formFields",
         JArr [JArr [sample_field "firstname" []; sample_field "email" []];
               JArr [sample_field "lastname" []]])].

(** Every body carries the same cursor. *)
Definition endless_pages : http_get := fun _ =>
  Ok (page_body (str "results") [JNum (str "1")] (Some (str "again"))).

(** *** The words of a regular expression *)

(** [matches r w]: the text [w] is a word of [r]. *)
Inductive matches : regex -> jstring -> Prop :=
| matches_lit c : matches (Lit c) [c]
| matches_cls (p : char -> bool) c : p c = true -> matches (Cls p) [c]
| matches_star (p : char -> bool) w : forallb p w = true -> matches (Star p) w
| matches_plus (p : char -> bool) c w :
    p c = true -> forallb p w = true -> matches (Plus p) (c :: w)
| matches_opt_some r w : matches r w -> matches (Opt r) w
| matches_opt_none r : matches (Opt r) []
| matches_seq r1 r2 w1 w2 :
    matches r1 w1 -> matches r2 w2 -> matches (Seq r1 r2) (w1 ++ w2).

(** The six key endings of the structural scan: Property or property,
    alone or followed by Name or name. *)
Definition key_words : list jstring :=
  List.map str [ "Property"; "property"; "PropertyName"; "Propertyname";
                 "propertyName"; "propertyname" ]%string.

(** [s] starts with a quoted key made of letters that ends in a key word,
    then white space, a colon, white space and the quoted value [v] of the
    identifier shape, and then [rest]. *)
Definition key_at (v rest s : jstring) : Prop :=
  exists letters kw ws1 ws2 : jstring,
    s = [34] ++ letters ++ kw ++ [34] ++ ws1 ++ [58] ++ ws2 ++ [34] ++ v ++ [34] ++ rest
    /\ forallb is_letter letters = true /\ kw ∈ key_words
    /\ forallb is_space ws1 = true /\ forallb is_space ws2 = true
    /\ ident_shape v = true.

(** The text contains such a key with the value [v]. *)
Definition key_occurs (v text : jstring) : Prop :=
  exists pre rest s, text = pre ++ s /\ key_at v rest s.

(** A code unit that [JSON.stringify] writes as it is: not a control
    character, not a double quote, not a backslash, not a surrogate. *)
Definition plain_unit (c : char) : bool :=
  (32 <=? c) && negb (c =? 34) && negb (c =? 92)
  && negb (is_lead_surrogate c) && negb (is_trail_surrogate c).

(** *** What the scan as a whole keeps *)

(** The labels of the six sources, in the order of the handler. *)
Definition source_labels : list jstring :=
  List.map str [ "Workflows"; "Forms"; "Lists"; "Pipelines"; "Marketing emails";
                 "Reports" ]%string.

(** A warning of the source with the label [l]: the label, a colon and a
    text. *)
Definition warning_of (l w : jstring) : Prop :=
  exists text, w = l ++ str ": " ++ text.

(** A statement pushes at most one warning for each of the labels, in their
    order, and nothing else. *)
Definition warns {A : Type} (labels : list jstring) (m : stm A) : Prop :=
  forall st, exists picked ws,
    sublist picked labels /\ Forall2 warning_of picked ws
    /\ warnings (snd (m st)) = warnings st ++ ws.

(** An error whose message the [catch] blocks can print:
    [err.response?.data?.message || err.message] converts to a string. *)
Definition printable (e : js_error) : Prop :=
  exists text, to_string (error_text e) = Ok text.

(** A statement throws printable errors only. *)
Definition throws_printable {A : Type} (m : stm A) : Prop :=
  forall st e, fst (m st) = Throw e -> printable e.

(** A request to the HubSpot API that carries the token. *)
Definition to_hubspot (token : jstring) (r : request) : Prop :=
  authorization r = str "Bearer " ++ token
  /\ exists path, url r = str "https://api.hubapi.com" ++ path.

(** A statement keeps a property of the state. *)
Definition keeps {A : Type} (I : scan_state -> Prop) (m : stm A) : Prop :=
  forall st, I st -> I (snd (m st)).

(** An account whose ticket pipelines cannot be read, while its deal
    pipelines can. *)
Definition tickets_down : http_get := fun r =>
  if ends_with (str "/tickets") (url r) then
    Throw (mkError (Some (JStr (str "This app lacks the tickets scope")))
                   (str "Request failed with status code 403"))
  else forms_down r.

(** An error raised by the code itself (a [TypeError]), not by a failed
    request: it carries no response. *)
Definition internal (e : js_error) : Prop := response_message e = None.

(** A computation throws errors of the code itself only. *)
Definition raises_internal {A : Type} (m : outcome A) : Prop :=
  forall e, m = Throw e -> internal e.

(** A statement never throws. *)
Definition never_throws {A : Type} (m : stm A) : Prop :=
  forall st e, fst (m st) <> Throw e.

(** An API whose failures all carry a printable message, and a sample of
    it: every request fails with the same error. *)
Definition printable_failures (http : http_get) : Prop :=
  forall r e, http r = Throw e -> printable e.

Definition all_down : http_get := fun _ =>
  Throw (mkError (Some (JStr (str "Service unavailable")))
                 (str "Request failed with status code 503")).

(** The request for the pipelines of one object type. *)
Definition pipelines_request (token : jstring) (pipelineObj : String.string) : request :=
  mkRequest (api "/crm/v3/pipelines/" ++ str pipelineObj) (str "Bearer " ++ token) [].

(** Two states with the same warnings, counters and requests. *)
Definition same_frame (st st' : scan_state) : Prop :=
  warnings st' = warnings st /\ counts st' = counts st /\ requests st' = requests st.

(** ** The property types and the CSV upload *)

(** One entry of [PROPERTY_TYPES]; [enumeration] is [false] where the
    source leaves it out. *)
Record type_info := mkTypeInfo {
  ti_type : jstring;
  ti_fieldType : jstring;
  ti_enumeration : bool
}.

Definition PROPERTY_TYPES : list (jstring * type_info) :=
  [ (str "Drop-down Select", mkTypeInfo (str "enumeration") (str "select") true);
    (str "Radio Select", mkTypeInfo (str "enumeration") (str "radio") true);
    (str "Multiple Checkboxes", mkTypeInfo (str "enumeration") (str "checkbox") true);
    (str "Single Line Text", mkTypeInfo (str "string") (str "text") false);
    (str "Multi-line Text", mkTypeInfo (str "string") (str "textarea") false);
    (str "Phone Number", mkTypeInfo (str "string") (str "phonenumber") false);
    (str "URL", mkTypeInfo (str "string") (str "text") false);
    (str "Rich Text", mkTypeInfo (str "string") (str "html") false);
    (str "Number", mkTypeInfo (str "number") (str "number") false);
    (str "Date Picker", mkTypeInfo (str "date") (str "date") false);
    (str "Date and Time Picker", mkTypeInfo (str "datetime") (str "date") false) ].

(** [Object.keys(PROPERTY_TYPES)]. *)
Definition VALID_TYPES : list jstring := List.map fst PROPERTY_TYPES.

Definition DEFAULT_GROUPS : list (jstring * jstring) :=
  [ (str "contacts", str "contactinformation");
    (str "companies", str "companyinformation");
    (str "deals", str "dealinformation");
    (str "tickets", str "ticketinformation");
    (str "products", str "productinformation") ].

(** [STANDARD_OBJECTS]: value and label. *)
Definition STANDARD_OBJECTS : list (jstring * jstring) :=
  [ (str "contacts", str "Contacts");
    (str "companies", str "Companies");
    (str "deals", str "Deals");
    (str "tickets", str "Tickets");
    (str "products", str "Products") ].

(** The names every object literal answers to without owning them: the
    members of [Object.prototype] and the accessor __proto__.  The value
    read under such a name is a function, or [Object.prototype] itself, and
    is truthy. *)
Definition inherited_names : list jstring := str "__proto__" :: builtin_names.

(** [table[k]] for an object literal [table] and a string key: an own
    property, an inherited member, or [undefined]. *)
Inductive looked_up (A : Type) :=
| Own (a : A)
| Inherited
| Missing.
Arguments Own {A} a.
Arguments Inherited {A}.
Arguments Missing {A}.

Definition object_lookup {A : Type} (table : list (jstring * A)) (k : jstring)
  : looked_up A :=
  match List.find (fun kv => bool_decide (fst kv = k)) table with
  | Some kv => Own (snd kv)
  | None => if bool_decide (k ∈ inherited_names) then Inherited else Missing
  end.

(** [!!table[k]]. *)
Definition has_truthy {A : Type} (table : list (jstring * A)) (k : jstring) : bool :=
  match object_lookup table k with Missing => false | _ => true end.

(** A response of the server: [res.status(s).json(body)]; [res.json(body)]
    answers with status 200. *)
Record response := mkResponse {
  res_status : nat;
  res_body : json
}.

(** One record of the parsed CSV ([columns: true]): the cells of a line
    under the names of the header line. *)
Definition record := list (jstring * jstring).

(** [row.k], [None] for [undefined]. *)
Definition cell (row : record) (k : String.string) : option jstring :=
  snd <$> List.find (fun kv => bool_decide (fst kv = str k)) row.

(** [!v || !v.trim()]. *)
Definition blank (v : option jstring) : bool :=
  match v with
  | None => true
  | Some s => negb (nonempty s) || negb (nonempty (trim s))
  end.

(** [l.join(sep)]. *)
Fixpoint join (sep : jstring) (l : list jstring) : jstring :=
  match l with
  | [] => []
  | [x] => x
  | x :: l' => x ++ sep ++ join sep l'
  end.

(** The messages the row with index [i] adds to [errors]. *)
Definition row_errors (i : nat) (row : record) : list jstring :=
  let rowNum := of_nat (i + 2) in
  (if blank (cell row "Name")
   then [str "Row " ++ rowNum ++ str ": Name is required"] else [])
  ++ match cell row "Type" with
     | Some t =>
         if blank (Some t) then [str "Row " ++ rowNum ++ str ": Type is required"]
         else if has_truthy PROPERTY_TYPES (trim t) then []
         else [str "Row " ++ rowNum ++ str ": Invalid type " ++ [34] ++ t ++ [34]
               ++ str ". Must be one of: " ++ join (str ", ") VALID_TYPES]
     | None => [str "Row " ++ rowNum ++ str ": Type is required"]
     end.

(** [(v || '').trim()]. *)
Definition trimmed (v : option jstring) : jstring := trim (default [] v).

(** The normalised row. *)
Definition normalise (row : record) : record :=
  [ (str "Name", trimmed (cell row "Name"));
    (str "Type", trimmed (cell row "Type"));
    (str "Description", trimmed (cell row "Description"));
    (str "Options", trimmed (cell row "Options")) ].

Definition record_json (row : record) : json :=
  JObj (List.map (fun kv => (fst kv, JStr (snd kv))) row).

(** What the handler of [POST /api/parse-csv] starts from: no file, a file
    the CSV parser rejects with a message, or the records it returns. *)
Inductive upload :=
| NoFile
| Unparsable (message : jstring)
| Parsed (records : list record).

Definition rejected (errors : list jstring) : response :=
  mkResponse 400 (JObj [(str "success", JBool false);
                        (str "errors", JArr (List.map JStr errors))]).

Definition accepted (data : list record) : response :=
  mkResponse 200 (JObj [(str "success", JBool true);
                        (str "data", JArr (List.map record_json data));
                        (str "count", JNum (of_nat (length data)))]).

(** The handler of [POST /api/parse-csv]. *)
Definition parse_csv (u : upload) : response :=
  match u with
  | NoFile => rejected [str "No file uploaded."]
  | Unparsable message => rejected [message]
  | Parsed records =>
      match records with
      | [] => rejected [str "The CSV file is empty."]
      | first :: _ =>
          let headers := List.map (fun kv => trim (fst kv)) first in
          if negb (bool_decide (str "Name" ∈ headers))
             || negb (bool_decide (str "Type" ∈ headers))
          then rejected [str "CSV must have at least the columns: Name, Type"]
          else
            match concat (imap row_errors records) with
            | [] => accepted (List.map normalise records)
            | errors => rejected errors
            end
      end
  end.

(** The header line names the columns Name and Type. *)
Definition header_ok (first : record) : bool :=
  bool_decide (str "Name" ∈ List.map (fun kv => trim (fst kv)) first)
  && bool_decide (str "Type" ∈ List.map (fun kv => trim (fst kv)) first).

(** A row that passes the validation. *)
Definition row_valid (row : record) : bool :=
  negb (blank (cell row "Name")) && negb (blank (cell row "Type"))
  && has_truthy PROPERTY_TYPES (trimmed (cell row "Type")).

(** A sample upload: the second row names a member of [Object.prototype] as
    its type. *)
Definition sample_upload : upload :=
  Parsed [ [(str "Name", str " Deal size "); (str "Type", str "Number")];
           [(str "Name", str "Owner"); (str "Type", str "constructor")] ].

(** ** Calls to the HubSpot API from the other routes *)

(** A thrown value as these handlers read it: [err.response] (its status
    and its body) when the API answered with a failure status, and
    [err.message]. *)
Record api_error := mkApiError {
  err_response : option (nat * json);
  err_message : jstring
}.

(** A [TypeError] of the code itself.  The texts are not those of V8 to the
    letter; nothing below depends on them. *)
Definition type_failure (text : String.string) : api_error :=
  mkApiError None (str text).

Inductive attempt (A : Type) :=
| Done (a : A)
| Raised (e : api_error).
Arguments Done {A} a.
Arguments Raised {A} e.

(** One call through [axios]. *)
Inductive call :=
| GetCall (target authorization : jstring) (query : list (jstring * json))
| PostCall (target authorization : jstring) (payload : json)
| DeleteCall (target authorization : jstring).

(** The remote API: the body [res.data] of the response, or the error
    [axios] throws. *)
Definition hubspot := call -> attempt json.

(** A piece of a handler: it may call the API, and it returns or throws;
    the calls are logged in order. *)
Definition io (A : Type) := list call -> attempt A * list call.

Definition io_ret {A : Type} (a : A) : io A := fun log => (Done a, log).

Definition io_lift {A : Type} (m : attempt A) : io A := fun log => (m, log).

Definition io_bind {A B : Type} (m : io A) (k : A -> io B) : io B :=
  fun log =>
    match m log with
    | (Done a, log') => k a log'
    | (Raised e, log') => (Raised e, log')
    end.

Notation "'run*' x ':=' m 'in' k" := (io_bind m (fun x => k))
  (at level 10, x name, m at level 100, k at level 200).

(** [try { body } catch (err) { handler(err) }]. *)
Definition io_catch {A : Type} (body : io A) (handler : api_error -> io A) : io A :=
  fun log =>
    match body log with
    | (Raised e, log') => handler e log'
    | r => r
    end.

(** [await axios.get(...)], [await axios.post(...)], [await axios.delete(...)]. *)
Definition request_of (hs : hubspot) (c : call) : io json :=
  fun log => (hs c, log ++ [c]).

(** [String(v)] in a template literal or as a property key. *)
Definition text_of (v : json) : attempt jstring :=
  match to_string v with
  | Ok s => Done s
  | _ => Raised (type_failure "Cannot convert object to primitive value")
  end.

(** The same for a value that may be [undefined]. *)
Definition template (v : jsvalue) : attempt jstring :=
  match v with
  | None => Done (str "undefined")
  | Some x => text_of x
  end.

(** [v.k]; reading a property of [null] throws. *)
Definition read (v : json) (k : String.string) : attempt jsvalue :=
  match get v k with
  | Ok x => Done x
  | _ => Raised (type_failure "Cannot read properties of null")
  end.

(** An object literal as [JSON.stringify] writes it: a property whose value
    is [undefined] is left out. *)
Definition json_obj (fields : list (jstring * jsvalue)) : json :=
  JObj (omap (fun kv => match snd kv with
                        | Some v => Some (fst kv, v)
                        | None => None
                        end) fields).

(** [v?.[0]]. *)
Definition index0 (v : jsvalue) : jsvalue :=
  match v with
  | Some (JArr (x :: _)) => Some x
  | Some (JStr (c :: _)) => Some (JStr [c])
  | Some (JObj props) => lookup_prop (str "0") props
  | _ => None
  end.

(** [err.response?.status || 500]. *)
Definition status_of (e : api_error) : nat :=
  match err_response e with
  | Some (S n, _) => S n
  | _ => 500%nat
  end.

(** [err.response?.data?.message || err.message]. *)
Definition message_of (e : api_error) : jsvalue :=
  or_else (get_opt (snd <$> err_response e) "message") (Some (JStr (err_message e))).

(** The [catch] of the routes that answer with the status and the message
    of the failure. *)
Definition failure_response (e : api_error) : response :=
  mkResponse (status_of e)
             (json_obj [(str "success", Some (JBool false)); (str "error", message_of e)]).

Definition bad_request (text : String.string) : response :=
  mkResponse 400 (json_obj [(str "success", Some (JBool false));
                            (str "error", Some (JStr (str text)))]).

Definition bearer (auth : jstring) : jstring := str "Bearer " ++ auth.

(** ** Property groups *)

(** [groups.find(g => !g.hubspotDefined)]; the callback throws on an element
    that is [null]. *)
Fixpoint find_group (groups : list json) : attempt jsvalue :=
  match groups with
  | [] => Done None
  | g :: rest =>
      match g with
      | JNull => Raised (type_failure "Cannot read properties of null")
      | _ => if truthy_value (get_opt (Some g) "hubspotDefined")
             then find_group rest else Done (Some g)
      end
  end.

(** [res.data.results || []] as the receiver of [find] or [map]: a truthy
    value that is not an array has no such method. *)
Definition array_or_empty (results : jsvalue) : attempt (list json) :=
  match results with
  | Some (JArr l) => Done l
  | Some x => if truthy x then Raised (type_failure "is not a function") else Done []
  | None => Done []
  end.

(** [groups.find(g => !g.hubspotDefined) || groups[0]] for the body [data]
    of the answer to the request for the groups. *)
Definition preferred_group (data : json) : attempt jsvalue :=
  match read data "results" with
  | Done results =>
      match array_or_empty results with
      | Done groups =>
          match find_group groups with
          | Done found => Done (or_else found (head groups))
          | Raised e => Raised e
          end
      | Raised e => Raised e
      end
  | Raised e => Raised e
  end.

(** A value read from an object literal under an inherited name, as
    [JSON.stringify] writes it into a request body: a function is left out,
    [Object.prototype] is written as an empty object. *)
Definition inherited_json (k : jstring) : jsvalue :=
  if bool_decide (k = str "__proto__") then Some (JObj []) else None.

Definition groups_url (objectType : jstring) : jstring :=
  str "https://api.hubapi.com/crm/v3/properties/groups/" ++ objectType.

(** [resolveGroupName(token, objectType)]: the value it returns, as the
    request body of the caller carries it. *)
Definition resolveGroupName (hs : hubspot) (token objectType : json) : io jsvalue :=
  run* key := io_lift (text_of objectType) in
  match object_lookup DEFAULT_GROUPS key with
  | Own group => io_ret (Some (JStr group))
  | Inherited => io_ret (inherited_json key)
  | Missing =>
      run* answer :=
        io_catch
          (run* auth := io_lift (text_of token) in
           run* data := request_of hs (GetCall (groups_url key) (bearer auth) []) in
           run* preferred := io_lift (preferred_group data) in
           match preferred with
           | Some p => if truthy p then io_ret (Some (get_opt (Some p) "name"))
                       else io_ret None
           | None => io_ret None
           end)
          (fun _ => io_ret None) in
      match answer with
      | Some name => io_ret name
      | None => io_ret (Some (JStr (key ++ str "information")))
      end
  end.

(** ** Creating a property *)

(** One entry of the options array, as the request body carries it. *)
Definition option_json (o : ChoiceOption) : json :=
  JObj [ (str "label", JStr (label o));
         (str "value", JStr (value o));
         (str "displayOrder", JNum (of_nat (displayOrder o)));
         (str "hidden", JBool (hidden o)) ].

(** [parseOptions(v)] for any value: a falsy value gives no option, and a
    truthy value that is not a string has no [trim] method. *)
Definition parse_options_of (v : jsvalue) : attempt (list ChoiceOption) :=
  match v with
  | None => Done (parseOptions None)
  | Some (JStr s) => Done (parseOptions (Some s))
  | Some x => if truthy x then Raised (type_failure "optionsStr.trim is not a function")
              else Done []
  end.

(** [toInternalName(v)] for any value: only a string has [toLowerCase]. *)
Definition internal_name_of (v : jsvalue) : attempt jstring :=
  match v with
  | Some (JStr s) => Done (toInternalName s)
  | _ => Raised (type_failure "label.toLowerCase is not a function")
  end.

(** [hsError?.message || hsError?.errors?.[0]?.message || err.message
    || 'Unknown error'] with [hsError = err.response?.data]. *)
Definition create_error_message (e : api_error) : jsvalue :=
  let hsError := snd <$> err_response e in
  or_else (get_opt hsError "message")
    (or_else (get_opt (index0 (get_opt hsError "errors")) "message")
       (or_else (Some (JStr (err_message e))) (Some (JStr (str "Unknown error"))))).

Definition properties_url (objectType : jstring) : jstring :=
  str "https://api.hubapi.com/crm/v3/properties/" ++ objectType.

(** The spread [...(typeInfo.enumeration ? { options: parseOptions(...) } : {})]:
    the value of [options], [None] when the property is left out. *)
Definition options_of (found : looked_up type_info) (property : json)
  : attempt jsvalue :=
  match found with
  | Own info =>
      if ti_enumeration info then
        match read property "Options" with
        | Done opts =>
            match parse_options_of opts with
            | Done l => Done (Some (JArr (List.map option_json l)))
            | Raised e => Raised e
            end
        | Raised e => Raised e
        end
      else Done None
  | _ => Done None
  end.

(** [typeInfo.type] and [typeInfo.fieldType]: a function or
    [Object.prototype] has neither. *)
Definition type_of (found : looked_up type_info) : jsvalue :=
  match found with Own info => Some (JStr (ti_type info)) | _ => None end.

Definition fieldType_of (found : looked_up type_info) : jsvalue :=
  match found with Own info => Some (JStr (ti_fieldType info)) | _ => None end.

(** The handler of [POST /api/create-property] on the parsed body of the
    request.  It answers, or it throws and sends no answer. *)
Definition create_property (hs : hubspot) (body : json) : io response :=
  run* token := io_lift (read body "token") in
  run* objectType := io_lift (read body "objectType") in
  run* property := io_lift (read body "property") in
  run* defaultGroup := io_lift (read body "defaultGroup") in
  match token, objectType, property with
  | Some t, Some o, Some p =>
      if truthy t && truthy o && truthy p then
        run* type := io_lift (read p "Type") in
        run* key := io_lift (template type) in
        match object_lookup PROPERTY_TYPES key with
        | Missing =>
            io_ret (mkResponse 400
                      (json_obj [(str "success", Some (JBool false));
                                 (str "error",
                                  Some (JStr (str "Unknown property type: " ++ key)))]))
        | typeInfo =>
            run* groupName :=
              (if truthy_value defaultGroup then io_ret defaultGroup
               else resolveGroupName hs t o) in
            run* name := io_lift (read p "Name") in
            run* internalName := io_lift (internal_name_of name) in
            run* description := io_lift (read p "Description") in
            run* options := io_lift (options_of typeInfo p) in
            let payload :=
              json_obj [ (str "name", Some (JStr internalName));
                         (str "label", name);
                         (str "type", type_of typeInfo);
                         (str "fieldType", fieldType_of typeInfo);
                         (str "groupName", groupName);
                         (str "description", or_else description (Some (JStr [])));
                         (str "options", options) ] in
            io_catch
              (run* path := io_lift (text_of o) in
               run* auth := io_lift (text_of t) in
               run* data := request_of hs (PostCall (properties_url path) (bearer auth)
                                                    payload) in
               run* internalName' := io_lift (read data "name") in
               run* label' := io_lift (read data "label") in
               io_ret (mkResponse 200
                         (json_obj [ (str "success", Some (JBool true));
                                     (str "internalName", internalName');
                                     (str "label", label') ])))
              (fun err =>
                 io_ret (mkResponse (status_of err)
                           (json_obj [ (str "success", Some (JBool false));
                                       (str "error", create_error_message err) ])))
        end
      else io_ret (bad_request "Missing required fields.")
  | _, _, _ => io_ret (bad_request "Missing required fields.")
  end.

(** ** Counting and deleting *)

Definition search_url (objectType : jstring) : jstring :=
  str "https://api.hubapi.com/crm/v3/objects/" ++ objectType ++ str "/search".

(** The body of the search: the records that have the property, one at
    most. *)
Definition search_payload (propertyName : json) : json :=
  JObj [ (str "filterGroups",
          JArr [JObj [(str "filters",
                       JArr [JObj [(str "propertyName", propertyName);
                                   (str "operator", JStr (str "HAS_PROPERTY"))]])]]);
         (str "limit", JNum (str "1"));
         (str "properties", JArr []) ].

(** [response.data.total ?? 0]. *)
Definition total_or_zero (total : jsvalue) : json :=
  match total with
  | None | Some JNull => JNum (str "0")
  | Some v => v
  end.

(** The three fields both routes require, when all are truthy. *)
Definition required_fields (body : json)
  : attempt (option (json * json * json)) :=
  match read body "token", read body "objectType", read body "propertyName" with
  | Done token, Done objectType, Done propertyName =>
      match token, objectType, propertyName with
      | Some t, Some o, Some n =>
          if truthy t && truthy o && truthy n then Done (Some (t, o, n)) else Done None
      | _, _, _ => Done None
      end
  | Raised e, _, _ | _, Raised e, _ | _, _, Raised e => Raised e
  end.

(** The handler of [POST /api/check-property-records]. *)
Definition check_property_records (hs : hubspot) (body : json) : io response :=
  run* fields := io_lift (required_fields body) in
  match fields with
  | None => io_ret (bad_request "token, objectType, propertyName are required.")
  | Some (t, o, n) =>
      io_catch
        (run* path := io_lift (text_of o) in
         run* auth := io_lift (text_of t) in
         run* data := request_of hs (PostCall (search_url path) (bearer auth)
                                              (search_payload n)) in
         run* total := io_lift (read data "total") in
         io_ret (mkResponse 200
                   (json_obj [ (str "success", Some (JBool true));
                               (str "total", Some (total_or_zero total)) ])))
        (fun err => io_ret (failure_response err))
  end.

(** The handler of [DELETE /api/delete-property]. *)
Definition delete_property (hs : hubspot) (body : json) : io response :=
  run* fields := io_lift (required_fields body) in
  match fields with
  | None => io_ret (bad_request "token, objectType, propertyName are required.")
  | Some (t, o, n) =>
      io_catch
        (run* path := io_lift (text_of o) in
         run* name := io_lift (text_of n) in
         run* auth := io_lift (text_of t) in
         run* _ := request_of hs (DeleteCall (properties_url path ++ str "/" ++ name)
                                             (bearer auth)) in
         io_ret (mkResponse 200 (json_obj [(str "success", Some (JBool true))])))
        (fun err => io_ret (failure_response err))
  end.

(** ** Listing the object types *)

Definition schemas_url : jstring := str "https://api.hubapi.com/crm/v3/schemas".

(** [Promise.all(items.map(async item => ...))]: every callback runs up to
    its first [await] during the [map], in the order of the items, so that
    the calls of all of them are made, in that order, before any answer is
    looked at; the result is the list of their results, or the error of the
    first one that throws. *)
Fixpoint promise_all {A : Type} (tasks : list (io A)) : io (list A) :=
  fun log =>
    match tasks with
    | [] => (Done [], log)
    | task :: tasks' =>
        let '(r, log1) := task log in
        let '(rs, log2) := promise_all tasks' log1 in
        (match r, rs with
         | Done a, Done l => Done (a :: l)
         | Raised e, _ => Raised e
         | Done _, Raised e => Raised e
         end, log2)
    end.

(** [v || null]: the value of a truthy [v], [null] otherwise. *)
Definition or_null (v : jsvalue) : json :=
  match v with
  | Some x => if truthy x then x else JNull
  | None => JNull
  end.

(** The callback of the map over the schemas; [auth] is the token as the
    request for the schemas printed it. *)
Definition schema_entry (hs : hubspot) (auth : jstring) (schema : json) : io json :=
  run* defaultGroup :=
    io_catch
      (run* id := io_lift (read schema "objectTypeId") in
       run* path := io_lift (template id) in
       run* data := request_of hs (GetCall (groups_url path) (bearer auth) []) in
       run* preferred := io_lift (preferred_group data) in
       io_ret (or_null (get_opt preferred "name")))
      (fun _ => io_ret JNull) in
  run* value := io_lift (read schema "objectTypeId") in
  run* labels := io_lift (read schema "labels") in
  run* name := io_lift (read schema "name") in
  io_ret (json_obj [ (str "value", value);
                     (str "label", or_else (get_opt labels "plural") name);
                     (str "defaultGroup", Some defaultGroup) ]).

Definition standard_entries : list json :=
  List.map (fun vl => JObj [(str "value", JStr (fst vl)); (str "label", JStr (snd vl))])
           STANDARD_OBJECTS.

Definition object_types_response (custom : list json) (warning : json) : response :=
  mkResponse 200
    (json_obj [ (str "success", Some (JBool true));
                (str "objectTypes", Some (JArr (standard_entries ++ custom)));
                (str "warning", Some warning) ]).

(** The handler of [GET /api/list-object-types] on the parsed query of the
    request. *)
Definition list_object_types (hs : hubspot) (query : json) : io response :=
  run* token := io_lift (read query "token") in
  match token with
  | Some t =>
      if truthy t then
        run* loaded :=
          io_catch
            (run* auth := io_lift (text_of t) in
             run* data := request_of hs (GetCall schemas_url (bearer auth)
                                                 [(str "archived", JBool false)]) in
             run* results := io_lift (read data "results") in
             run* schemas := io_lift (array_or_empty results) in
             run* custom := promise_all (List.map (schema_entry hs auth) schemas) in
             io_ret (custom, JNull))
            (fun err =>
               run* text := io_lift (template (message_of err)) in
               io_ret ([], JStr (str "Custom objects could not be loaded: " ++ text))) in
        io_ret (object_types_response (fst loaded) (snd loaded))
      else io_ret (bad_request "token is required.")
  | None => io_ret (bad_request "token is required.")
  end.

(** *** Sample accounts for these routes *)

(** An API that answers every call with status 403 and a message. *)
Definition forbidden : hubspot := fun _ =>
  Raised (mkApiError (Some (403%nat, JObj [(str "message", JStr (str "Missing scope"))]))
                     (str "Request failed with status code 403")).

(** An API with one custom object, its groups, and no trouble creating,
    counting or deleting. *)
Definition sample_hubspot : hubspot := fun c =>
  match c with
  | GetCall target _ _ =>
      if bool_decide (target = schemas_url) then
        Done (JObj [(str "results",
                     JArr [JObj [(str "objectTypeId", JStr (str "2-1"));
                                 (str "name", JStr (str "car"));
                                 (str "labels", JObj [(str "plural", JStr (str "Cars"))])]])])
      else
        Done (JObj [(str "results",
                     JArr [JObj [(str "name", JStr (str "hs_group"));
                                 (str "hubspotDefined", JBool true)];
                           JObj [(str "name", JStr (str "car_information"))]])])
  | PostCall target _ payload =>
      if ends_with (str "/search") target then Done (JObj [(str "total", JNum (str "12"))])
      else Done (JObj [(str "name", default JNull (get_opt (Some payload) "name"));
                       (str "label", default JNull (get_opt (Some payload) "label"))])
  | DeleteCall _ _ => Done (JStr [])
  end.

(** *** A row of the upload on its way to HubSpot *)

(** The body the page posts to create the property of a row. *)
Definition create_body (token objectType : jstring) (row : record) : json :=
  JObj [ (str "token", JStr token);
         (str "objectType", JStr objectType);
         (str "property", record_json row) ].

(** The body of the request to HubSpot for the row [row] of the upload, of
    a type with the entry [info], in the group [group]. *)
Definition create_payload (row : record) (info : type_info) (group : jstring) : json :=
  json_obj
    [ (str "name", Some (JStr (toInternalName (trimmed (cell row "Name")))));
      (str "label", Some (JStr (trimmed (cell row "Name"))));
      (str "type", Some (JStr (ti_type info)));
      (str "fieldType", Some (JStr (ti_fieldType info)));
      (str "groupName", Some (JStr group));
      (str "description", Some (JStr (trimmed (cell row "Description"))));
      (str "options",
       if ti_enumeration info
       then Some (JArr (List.map option_json
                          (parseOptions (Some (trimmed (cell row "Options"))))))
       else None) ].

(** A call that reads. *)
Definition is_get (c : call) : Prop :=
  match c with GetCall _ _ _ => True | _ => False end.

(** *** What the listing gives for a custom object *)

(** The default group the listing finds for the object type [id]: the name
    of the preferred group, [null] when the call for the groups fails, when
    there is no group, or when the group has no truthy name. *)
Definition default_group_of (hs : hubspot) (auth id : jstring) : json :=
  match hs (GetCall (groups_url id) (bearer auth) []) with
  | Done data =>
      match preferred_group data with
      | Done preferred => or_null (get_opt preferred "name")
      | Raised _ => JNull
      end
  | Raised _ => JNull
  end.

(** The entry of the listing for a schema whose [objectTypeId] is the
    string [id]. *)
Definition custom_entry (hs : hubspot) (auth : jstring) (schema : json) (id : jstring)
  : json :=
  json_obj [ (str "value", Some (JStr id));
             (str "label", or_else (get_opt (get_opt (Some schema) "labels") "plural")
                                   (get_opt (Some schema) "name"));
             (str "defaultGroup", Some (default_group_of hs auth id)) ].

(** The [objectTypeId] of a schema, when it is a string. *)
Definition schema_id (schema : json) : option jstring :=
  match get_opt (Some schema) "objectTypeId" with
  | Some (JStr id) => Some id
  | _ => None
  end.

Definition schemas_call (auth : jstring) : call :=
  GetCall schemas_url (bearer auth) [(str "archived", JBool false)].

(** ** The page: escaping *)

(** [s.replace(/c/g, by)] for a pattern of one character. *)
Definition replace_char (c : char) (by_ : jstring) (s : jstring) : jstring :=
  flat_map (fun d => if d =? c then by_ else [d]) s.

(** [esc(str)] of the page, for a string. *)
Definition esc (s : jstring) : jstring :=
  replace_char 34 (str "&quot;")
    (replace_char 62 (str "&gt;")
       (replace_char 60 (str "&lt;")
          (replace_char 38 (str "&amp;") s))).

(** [str.includes(c)] for one character. *)
Definition includes (c : char) (s : jstring) : bool := existsb (N.eqb c) s.

(** [escapeCSV(value)] of the page, for a string. *)
Definition escapeCSV (s : jstring) : jstring :=
  if includes 44 s || includes 34 s || includes 10 s
  then [34] ++ replace_char 34 [34; 34] s ++ [34]
  else s.

(** What [esc] writes for one code unit. *)
Definition esc_unit (c : char) : jstring :=
  if c =? 38 then str "&amp;"
  else if c =? 60 then str "&lt;"
  else if c =? 62 then str "&gt;"
  else if c =? 34 then str "&quot;"
  else [c].

(** *** The set a form walk builds *)

(** Every member is truthy and no primitive value is a member twice. *)
Definition name_set (names : list json) : Prop :=
  Forall (fun n => truthy n = true) names /\ NoDup (List.filter is_primitive names).

(** [Object.prototype] holds no array of source names. *)
Definition prototype_clean (u : usage) : Prop :=
  forall k, find_array ObjectPrototype k (arrays u) = None.

(* ================================================================== *)
(** * Theorems *)

(** ** Character classes *)

(** Case analysis on every comparison of the goal; the hypotheses about
    character classes stay in the goal as premises. *)
Ltac class_cases :=
  unfold is_name_char, is_lower_us, is_letter, is_space, is_lower, is_upper,
    is_digit, underscore, in_range;
  repeat (match goal with
          | |- context [N.leb ?a ?b] => destruct (N.leb_spec a b)
          | |- context [N.eqb ?a ?b] => destruct (N.eqb_spec a b)
          end;
          simpl; try reflexivity; try lia;
          try (intros; discriminate); try (intros; reflexivity)).

Lemma name_char_not_space c : is_name_char c = true -> is_space c = false.
Proof. class_cases. Qed.

Lemma name_char_lower_unit c : is_name_char c = true -> lower_unit c = [c].
Proof. unfold lower_unit. class_cases. Qed.

Lemma space_lower_unit c : is_space c = true -> lower_unit c = [c].
Proof. unfold lower_unit. class_cases. Qed.

(** ** The name sanitiser *)

Lemma all_name_no_space s : all_name s -> no_space s.
Proof. intros H. eapply Forall_impl; [exact H|]. intros c. apply name_char_not_space. Qed.

Lemma toLowerCase_name s : all_name s -> toLowerCase s = s.
Proof.
  unfold toLowerCase. induction 1 as [|c s Hc _ IH]; simpl; [done|].
  by rewrite name_char_lower_unit, IH.
Qed.

Lemma toLowerCase_space s : all_space s -> toLowerCase s = s.
Proof.
  unfold toLowerCase. induction 1 as [|c s Hc _ IH]; simpl; [done|].
  by rewrite space_lower_unit, IH.
Qed.

Lemma trimStart_all_space s : all_space s -> trimStart s = [].
Proof. induction 1 as [|c s Hc _ IH]; simpl; [done|]. by rewrite Hc. Qed.

Lemma trimStart_no_space s : no_space s -> trimStart s = s.
Proof. destruct 1 as [|c s Hc _]; simpl; [done|]. by rewrite Hc. Qed.

Lemma trim_all_space s : all_space s -> trim s = [].
Proof. intros H. unfold trim. by rewrite trimStart_all_space. Qed.

Lemma trim_no_space s : no_space s -> trim s = s.
Proof.
  intros H. unfold trim, trimEnd. rewrite (trimStart_no_space s H).
  rewrite trimStart_no_space; [apply rev_involutive|].
  by apply List.Forall_rev.
Qed.

Lemma replace_ws_no_space s : no_space s -> replace_ws s = s.
Proof.
  unfold replace_ws. induction 1 as [|c s Hc _ IH]; simpl; [done|].
  by rewrite Hc, IH.
Qed.

Lemma strip_other_name s : all_name (strip_other s).
Proof.
  unfold strip_other. induction s as [|c s IH]; simpl; [constructor|].
  destruct (is_name_char c) eqn:Hc; [by constructor | done].
Qed.

Lemma strip_other_fix s : all_name s -> strip_other s = s.
Proof.
  unfold strip_other. induction 1 as [|c s Hc _ IH]; simpl; [done|].
  by rewrite Hc, IH.
Qed.

Lemma starts_with_digit_take n s :
  starts_with_digit s = false -> starts_with_digit (take n s) = false.
Proof. destruct n, s; simpl; auto. Qed.

(** The string before truncation: stripped, and prefixed when it starts with
    a digit. *)
Lemma prefixed_shape s :
  all_name s ->
  let name := if starts_with_digit s then str "p_" ++ s else s in
  all_name name /\ starts_with_digit name = false.
Proof.
  intros Hs. destruct (starts_with_digit s) eqn:Hd; simpl.
  - split; [|reflexivity]. repeat constructor. exact Hs.
  - by split.
Qed.

(** The three facts about a sanitised name that its later uses rely on. *)
Lemma toInternalName_sane (L : jstring) :
  all_name (toInternalName L)
  /\ starts_with_digit (toInternalName L) = false
  /\ (length (toInternalName L) <= 250)%nat.
Proof.
  unfold toInternalName.
  destruct (prefixed_shape _ (strip_other_name (replace_ws (trim (toLowerCase L)))))
    as [Hn Hd].
  unfold slice0. repeat split.
  - by apply Forall_take.
  - by apply starts_with_digit_take.
  - rewrite length_take. lia.
Qed.

(** C7: for every label, the sanitised name has only characters of
    [a-z0-9_], does not start with a digit (the [p_] prefix is put in front of
    a stripped name that starts with one), has at most 250 code units, and is
    empty for an empty or white-space-only label.  The function is total:
    it has a value at every label. *)
Theorem toInternalName_shape (L : jstring) :
  let stripped := strip_other (replace_ws (trim (toLowerCase L))) in
  all_name (toInternalName L)
  /\ starts_with_digit (toInternalName L) = false
  /\ (starts_with_digit stripped = true ->
      toInternalName L = slice0 250 (str "p_" ++ stripped))
  /\ (length (toInternalName L) <= 250)%nat
  /\ (all_space L -> toInternalName L = []).
Proof.
  intros stripped. destruct (toInternalName_sane L) as (Hn & Hd & Hl).
  split; [done|]. split; [done|]. split; [|split; [done|]].
  - unfold toInternalName. fold stripped. by intros ->.
  - intros Hs. unfold toInternalName.
    rewrite (toLowerCase_space L Hs), (trim_all_space L Hs). reflexivity.
Qed.

Lemma toInternalName_shape_witness :
  toInternalName (str "  ") = []
  /\ toInternalName (str "9 Lives!") = str "p_9_lives".
Proof.
  split.
  - apply (toInternalName_shape (str "  ")). repeat constructor.
  - destruct (toInternalName_shape (str "9 Lives!")) as (_ & _ & H & _).
    rewrite H; reflexivity.
Defined.

(** C8: the sanitiser is idempotent. *)
Theorem toInternalName_idempotent (L : jstring) :
  toInternalName (toInternalName L) = toInternalName L.
Proof.
  destruct (toInternalName_sane L) as (Hn & Hd & Hl).
  set (s := toInternalName L) in *. clearbody s.
  unfold toInternalName.
  rewrite (toLowerCase_name s Hn), (trim_no_space s (all_name_no_space s Hn)).
  rewrite (replace_ws_no_space s (all_name_no_space s Hn)), (strip_other_fix s Hn).
  rewrite Hd. unfold slice0. by apply take_ge.
Qed.

(** ** The option list parser *)

Lemma trimStart_nil s : trimStart s = [] -> all_space s.
Proof.
  induction s as [|c s IH]; simpl; [constructor|].
  destruct (is_space c) eqn:Hc; [|discriminate].
  intros H. constructor; auto.
Qed.

Lemma trim_nil s : trim s = [] -> all_space s.
Proof.
  unfold trim, trimEnd. intros H.
  apply (f_equal (@rev char)) in H. rewrite rev_involutive in H. simpl in H.
  apply trimStart_nil, List.Forall_rev in H. rewrite rev_involutive in H.
  destruct (trimStart s) as [|c r] eqn:Ht; [by apply trimStart_nil|].
  exfalso. inversion H as [|? ? Hc _]; subst.
  clear H. induction s as [|d s IH]; simpl in Ht; [discriminate|].
  destruct (is_space d) eqn:Hd; [auto|]. injection Ht as -> _. congruence.
Qed.

Lemma split_all_space s : all_space s -> split 59 s = [s].
Proof.
  induction 1 as [|c s Hc _ IH]; simpl; [done|].
  assert ((c =? 59) = false) as -> by (revert Hc; class_cases).
  by rewrite IH.
Qed.

(** The labels that survive: pieces between semicolons, trimmed, the empty
    ones dropped. *)
Lemma labels_all_space s :
  all_space s -> List.filter nonempty (List.map trim (split 59 s)) = [].
Proof.
  intros H. rewrite (split_all_space s H). simpl.
  by rewrite (trim_all_space s H).
Qed.

(** C9: the parser splits on [;], trims, drops the empty pieces, and gives
    the label at index [i] after the filter the value [toInternalName label]
    or, when that is empty, [option_<i>], with display order [i] and
    [hidden = false]; [A;B;;  C ;] gives three options, and an empty or
    white-space-only input gives none. *)
Theorem parseOptions_spec (s : jstring) :
  let labels := List.filter nonempty (List.map trim (split 59 s)) in
  length (parseOptions (Some s)) = length labels
  /\ (forall i l, labels !! i = Some l ->
        parseOptions (Some s) !! i =
        Some {| label := l;
                value := if nonempty (toInternalName l) then toInternalName l
                         else str "option_" ++ of_nat i;
                displayOrder := i;
                hidden := false |})
  /\ parseOptions (Some (str "A;B;;  C ;")) =
       [ mkChoiceOption (str "A") (str "a") 0 false;
         mkChoiceOption (str "B") (str "b") 1 false;
         mkChoiceOption (str "C") (str "c") 2 false ]
  /\ (all_space s -> parseOptions (Some s) = []).
Proof.
  intros labels.
  assert (Heq : parseOptions (Some s) =
                imap (fun i l => mkChoiceOption l (option_value i l) i false) labels).
  { unfold parseOptions.
    destruct (negb (nonempty s) || negb (nonempty (trim s))) eqn:He; [|done].
    assert (Hs : all_space s).
    { apply orb_true_iff in He as [He|He].
      - destruct s; [constructor | discriminate].
      - apply trim_nil. destruct (trim s); [done | discriminate]. }
    subst labels. by rewrite (labels_all_space s Hs). }
  split; [|split; [|split]].
  - by rewrite Heq, length_imap.
  - intros i l Hl. rewrite Heq, list_lookup_imap, Hl. reflexivity.
  - reflexivity.
  - intros Hs. rewrite Heq. subst labels. by rewrite (labels_all_space s Hs).
Qed.

Lemma parseOptions_spec_witness :
  parseOptions (Some (str "   ")) = []
  /\ parseOptions (Some (str "!;x")) !! 0%nat =
       Some (mkChoiceOption (str "!") (str "option_0") 0 false).
Proof.
  split.
  - apply (parseOptions_spec (str "   ")). repeat constructor.
  - apply (parseOptions_spec (str "!;x")). reflexivity.
Defined.

(** ** Greedy runs *)

Section GreedyRun.
Context {A : Type} (p : char -> bool) (k : jstring -> list A).
Hypothesis k_fails : forall c s, p c = true -> k (c :: s) = [].

(** A continuation that fails on the characters of the class sees only the
    longest run. *)
Lemma star_runs_then (w t : jstring) :
  forallb p w = true ->
  flat_map k (star_runs p (w ++ t)) = flat_map k (star_runs p t).
Proof.
  induction w as [|c w IH]; simpl; [done|].
  intros [Hc Hw]%andb_true_iff. rewrite Hc, flat_map_app, (IH Hw). simpl.
  by rewrite (k_fails c _ Hc), !app_nil_r.
Qed.

Lemma star_runs_stop (t : jstring) :
  head (List.map p t) <> Some true -> star_runs p t = [t].
Proof. destruct t as [|c t]; simpl; [done|]. destruct (p c); congruence. Qed.
End GreedyRun.

(** Every string is a run over the class followed by a remainder that does
    not start in the class. *)
Lemma run_split (p : char -> bool) (s : jstring) :
  exists w t, s = w ++ t /\ forallb p w = true /\ head (List.map p t) <> Some true.
Proof.
  induction s as [|c s (w & t & -> & Hw & Ht)].
  - exists [], []. by simpl.
  - destruct (p c) eqn:Hc.
    + exists (c :: w), t. simpl. by rewrite Hc, Hw.
    + exists [], (c :: w ++ t). simpl. rewrite Hc. by repeat split.
Qed.

(** ** The matcher in continuation form *)

Section Runk.
Context {A : Type} (k : jstring -> list A).

Lemma runk_lit c s :
  runk (Lit c) k s =
  match s with d :: s' => if d =? c then k s' else [] | [] => [] end.
Proof.
  unfold runk. destruct s as [|d s]; simpl; [done|].
  destruct (d =? c); simpl; [apply app_nil_r | done].
Qed.

Lemma runk_cls p s :
  runk (Cls p) k s =
  match s with d :: s' => if p d then k s' else [] | [] => [] end.
Proof.
  unfold runk. destruct s as [|d s]; simpl; [done|].
  destruct (p d); simpl; [apply app_nil_r | done].
Qed.

Lemma runk_seq r1 r2 s : runk (Seq r1 r2) k s = runk r1 (runk r2 k) s.
Proof.
  unfold runk. simpl. induction (run r1 s) as [|x l IH]; simpl; [done|].
  by rewrite flat_map_app, IH.
Qed.

Lemma runk_star p s : runk (Star p) k s = flat_map k (star_runs p s).
Proof. reflexivity. Qed.

Lemma runk_plus p s :
  runk (Plus p) k s =
  match s with
  | d :: s' => if p d then flat_map k (star_runs p s') else []
  | [] => []
  end.
Proof. unfold runk. destruct s as [|d s]; simpl; [done|]. by destruct (p d). Qed.

(** A greedy run followed by a continuation that fails inside the class
    stops exactly where the class stops. *)
Lemma greedy_exact p w t :
  (forall c s, p c = true -> k (c :: s) = []) ->
  forallb p w = true -> head (List.map p t) <> Some true ->
  flat_map k (star_runs p (w ++ t)) = k t.
Proof.
  intros Hk Hw Ht. rewrite (star_runs_then p k Hk w t Hw), (star_runs_stop p t Ht).
  simpl. apply app_nil_r.
Qed.
End Runk.

Lemma match_at_runk (r : cregex) (s : jstring) :
  match_at r s =
  head (runk (before r) (fun s1 =>
          runk (group r) (fun s2 =>
            runk (after r) (fun s3 => [(take (length s1 - length s2) s1, s3)]) s2)
          s1) s).
Proof.
  unfold match_at, runk. apply (f_equal head).
  apply flat_map_ext. intros s1. apply flat_map_ext. intros s2.
  induction (run (after r) s2) as [|x l IH]; simpl; [done|]. by rewrite IH.
Qed.

Lemma take_consumed (a b : jstring) :
  take (length (a ++ b) - length b) (a ++ b) = a.
Proof.
  rewrite length_app. replace (length a + length b - length b)%nat with (length a) by lia.
  by rewrite take_app_length.
Qed.

(** ** The token scan *)

Lemma dot_not_lower_us c : is_lower_us c = true -> (c =? 46) = false.
Proof. class_cases. Qed.

Lemma brace_not_name c : is_name_char c = true -> (c =? 125) = false.
Proof. class_cases. Qed.

Lemma match_at_token_sound (s v rest : jstring) :
  match_at tokenRe s = Some (v, rest) -> token_at token_field_shape v rest s.
Proof.
  rewrite match_at_runk. unfold tokenRe. cbn [before group after].
  rewrite runk_seq, runk_lit. destruct s as [|c1 s]; [done|].
  destruct (N.eqb_spec c1 123) as [->|]; [|done].
  rewrite runk_seq, runk_lit. destruct s as [|c2 s]; [done|].
  destruct (N.eqb_spec c2 123) as [->|]; [|done].
  rewrite runk_seq, runk_plus. destruct s as [|c3 s]; [done|].
  destruct (is_lower_us c3) eqn:H3; [|done].
  destruct (run_split is_lower_us s) as (w & t & -> & Hw & Ht).
  rewrite greedy_exact; [| | done | done].
  2:{ intros c s Hc. by rewrite runk_lit, (dot_not_lower_us c Hc). }
  rewrite runk_lit. destruct t as [|d t]; [done|].
  destruct (N.eqb_spec d 46) as [->|]; [|done].
  rewrite runk_plus. destruct t as [|e t]; [done|].
  destruct (is_name_char e) eqn:He; [|done].
  destruct (run_split is_name_char t) as (w2 & u & -> & Hw2 & Hu).
  rewrite greedy_exact; [| | done | done].
  2:{ intros c s Hc. by rewrite runk_seq, runk_lit, (brace_not_name c Hc). }
  rewrite runk_seq, runk_lit. destruct u as [|f u]; [done|].
  destruct (N.eqb_spec f 125) as [->|]; [|done].
  rewrite runk_lit. destruct u as [|g u]; [done|].
  destruct (N.eqb_spec g 125) as [->|]; [|done].
  simpl head. intros [= <- <-].
  match goal with |- token_at _ ?t _ _ => assert (Hv : t = e :: w2) end.
  { rewrite length_app. simpl.
    replace (length w2 + S (S (length u)) - S (length u))%nat
      with (S (length w2)) by lia.
    simpl. by rewrite take_app_length. }
  rewrite Hv. exists (c3 :: w). repeat split.
  - simpl. by rewrite H3.
  - unfold token_field_shape. simpl. by rewrite He.
Qed.

Lemma match_at_token_found (s v rest : jstring) :
  token_at token_field_shape v rest s -> match_at tokenRe s = Some (v, rest).
Proof.
  intros (src & -> & Hne & Hsrc & Hv).
  destruct src as [|c3 w]; [done|]. simpl in Hsrc.
  apply andb_true_iff in Hsrc as [H3 Hw].
  unfold token_field_shape in Hv. destruct v as [|e w2]; [done|]. simpl in Hv.
  apply andb_true_iff in Hv as [He Hw2].
  rewrite match_at_runk. unfold tokenRe. cbn [before group after].
  simpl app.
  rewrite runk_seq, runk_lit; cbv beta iota; rewrite N.eqb_refl.
  rewrite runk_seq, runk_lit; cbv beta iota; rewrite N.eqb_refl.
  rewrite runk_seq, runk_plus; cbv beta iota; rewrite H3.
  rewrite greedy_exact; [| | done | by simpl].
  2:{ intros c s Hc. by rewrite runk_lit, (dot_not_lower_us c Hc). }
  rewrite runk_lit; cbv beta iota; rewrite N.eqb_refl.
  rewrite runk_plus; cbv beta iota; rewrite He.
  rewrite greedy_exact; [| | done | by simpl].
  2:{ intros c s Hc. by rewrite runk_seq, runk_lit, (brace_not_name c Hc). }
  rewrite runk_seq, runk_lit; cbv beta iota; rewrite N.eqb_refl.
  rewrite runk_lit; cbv beta iota; rewrite N.eqb_refl.
  change (e :: w2 ++ 125 :: 125 :: rest) with ((e :: w2) ++ 125 :: 125 :: rest).
  by rewrite take_consumed.
Qed.


(** ** The exec loop *)

Section ExecLoop.
Variable r : cregex.
(** [found v rest s]: a match starts at [s], its group is [v] and [rest]
    follows it. *)
Variable found : jstring -> jstring -> jstring -> Prop.
Hypothesis match_sound :
  forall s v rest, match_at r s = Some (v, rest) -> found v rest s.
Hypothesis match_complete :
  forall s v rest, found v rest s -> match_at r s = Some (v, rest).
Hypothesis found_nonempty : forall v rest, ~ found v rest [].
(** No match starts strictly inside another one. *)
Hypothesis no_overlap :
  forall s v rest, found v rest s ->
  forall j, (0 < j < length s - length rest)%nat ->
  forall v' rest', ~ found v' rest' (drop j s).

Lemma exec_all_sound (s : jstring) :
  forall skip v, v ∈ exec_all r skip s ->
  exists pre rest s', s = pre ++ s' /\ found v rest s'.
Proof.
  induction s as [|c s IH]; intros skip v Hv; simpl in Hv.
  - by apply elem_of_nil in Hv.
  - assert (Hrec : forall k, v ∈ exec_all r k s ->
              exists pre rest s', c :: s = pre ++ s' /\ found v rest s').
    { intros k Hk. destruct (IH k v Hk) as (pre & rest & s' & -> & Hf).
      by exists (c :: pre), rest, s'. }
    destruct skip as [|k]; [|by eapply Hrec].
    destruct (match_at r (c :: s)) as [[m1 rest]|] eqn:Hm; [|by eapply Hrec].
    apply elem_of_cons in Hv as [->|Hv]; [|by eapply Hrec].
    exists [], rest, (c :: s). split; [done|]. by apply match_sound.
Qed.

Lemma exec_all_complete (s : jstring) :
  forall skip pre s' v rest,
  (forall j, (j < skip)%nat -> forall v' rest', ~ found v' rest' (drop j s)) ->
  s = pre ++ s' -> found v rest s' ->
  v ∈ exec_all r skip s.
Proof.
  induction s as [|c s IH]; intros skip pre s' v rest Hclear Hs Hf.
  - symmetry in Hs. apply app_eq_nil in Hs as [-> ->].
    by apply found_nonempty in Hf.
  - simpl. destruct skip as [|k].
    + destruct (match_at r (c :: s)) as [[m1 rest1]|] eqn:Hm.
      * destruct pre as [|d pre]; simpl in Hs.
        -- subst s'. apply match_complete in Hf. rewrite Hf in Hm.
           injection Hm as <- <-. apply elem_of_cons. by left.
        -- injection Hs as <- ->. apply elem_of_cons. right.
           eapply (IH _ pre s' v rest); [|done|done].
           intros j Hj v' rest'. apply match_sound in Hm.
           apply (no_overlap _ _ _ Hm (S j)). simpl in *. lia.
      * destruct pre as [|d pre]; simpl in Hs.
        -- subst s'. apply match_complete in Hf. congruence.
        -- injection Hs as <- ->.
           eapply (IH _ pre s' v rest); [|done|done]. intros j Hj. lia.
    + destruct pre as [|d pre]; simpl in Hs.
      * subst s'. exfalso. apply (Hclear 0%nat ltac:(lia) v rest). by simpl.
      * injection Hs as <- ->.
        eapply (IH _ pre s' v rest); [|done|done].
        intros j Hj. apply (Hclear (S j)). lia.
Qed.

(** The loop collects exactly the groups of the matches of the text. *)
Lemma exec_all_spec (s v : jstring) :
  v ∈ exec_all r 0 s <-> exists pre rest s', s = pre ++ s' /\ found v rest s'.
Proof.
  split.
  - apply exec_all_sound.
  - intros (pre & rest & s' & Hs & Hf).
    eapply exec_all_complete; [|done|done]. intros j Hj. lia.
Qed.
End ExecLoop.

Lemma token_body_no_brace (src v : jstring) :
  forallb is_lower_us src = true -> forallb is_name_char v = true ->
  Forall (fun c => c <> 123) (src ++ [46] ++ v ++ [125; 125]).
Proof.
  intros Hs Hv. rewrite !Forall_app. repeat split.
  - apply Forall_forall. intros c Hc ->.
    rewrite forallb_forall in Hs. apply list_elem_of_In, Hs in Hc. done.
  - by repeat constructor.
  - apply Forall_forall. intros c Hc ->.
    rewrite forallb_forall in Hv. apply list_elem_of_In, Hv in Hc. done.
  - by repeat constructor.
Qed.

Lemma token_at_nonempty v rest : ~ token_at token_field_shape v rest [].
Proof. by intros (src & Hs & _). Qed.

Lemma token_no_overlap (s v rest : jstring) :
  token_at token_field_shape v rest s ->
  forall j, (0 < j < length s - length rest)%nat ->
  forall v' rest', ~ token_at token_field_shape v' rest' (drop j s).
Proof.
  intros (src & -> & Hne & Hsrc & Hv) j Hj v' rest' (src' & Heq & _).
  unfold token_field_shape in Hv. apply andb_true_iff in Hv as [_ Hv].
  pose proof (token_body_no_brace src v Hsrc Hv) as Hbody.
  set (body := src ++ [46] ++ v ++ [125; 125]) in *.
  assert (Hs : [123; 123] ++ src ++ [46] ++ v ++ [125; 125] ++ rest
               = 123 :: 123 :: body ++ rest).
  { subst body. simpl. do 2 f_equal. rewrite <- app_assoc. simpl.
    do 2 f_equal. by rewrite <- app_assoc. }
  rewrite Hs in Heq, Hj. clear Hs. simpl in Hj. rewrite length_app in Hj.
  assert (Hb : exists c body', body = c :: body').
  { subst body. destruct src as [|c w]; [done|]. by eexists _, _. }
  clearbody body. clear Hne Hsrc Hv.
  destruct j as [|[|j]]; [lia| |].
  - simpl in Heq. destruct Hb as (c & body' & ->).
    inversion Hbody; subst. simpl in Heq. congruence.
  - simpl in Heq.
    destruct (lookup_lt_is_Some_2 body j ltac:(lia)) as [x Hx].
    rewrite (drop_S (body ++ rest) x j) in Heq
      by (by rewrite lookup_app_l by lia).
    rewrite Forall_lookup in Hbody. specialize (Hbody j x Hx).
    simpl in Heq. congruence.
Qed.

(** The token loop finds the field id of every placeholder of the text, and
    nothing else. *)
Lemma token_scan_spec (text v : jstring) :
  v ∈ exec_all tokenRe 0 text <-> token_occurs token_field_shape v text.
Proof.
  unfold token_occurs.
  apply (exec_all_spec tokenRe (token_at token_field_shape)).
  - intros s v' rest. apply match_at_token_sound.
  - intros s v' rest. apply match_at_token_found.
  - apply token_at_nonempty.
  - apply token_no_overlap.
Qed.

(** ** Sets of names *)

Lemma elem_of_set_add (x y : jstring) (names : list jstring) :
  y ∈ set_add x names <-> y ∈ names \/ y = x.
Proof.
  unfold set_add. destruct (decide (x ∈ names)) as [Hx|Hx].
  - split; [by left | intros [H| ->]; done].
  - rewrite elem_of_app, list_elem_of_singleton. done.
Qed.

Lemma elem_of_set_add_all (xs names : list jstring) (y : jstring) :
  y ∈ set_add_all xs names <-> y ∈ names \/ y ∈ xs.
Proof.
  unfold set_add_all. revert names.
  induction xs as [|x xs IH]; intros names; simpl.
  - rewrite elem_of_nil. tauto.
  - rewrite IH, elem_of_set_add, elem_of_cons. tauto.
Qed.

Lemma NoDup_set_add (x : jstring) (names : list jstring) :
  NoDup names -> NoDup (set_add x names).
Proof.
  intros H. unfold set_add. destruct (decide (x ∈ names)) as [Hx|Hx]; [done|].
  apply NoDup_app. repeat split; [done| |apply NoDup_singleton].
  intros y Hy ->%list_elem_of_singleton. done.
Qed.

Lemma NoDup_set_add_all (xs names : list jstring) :
  NoDup names -> NoDup (set_add_all xs names).
Proof.
  unfold set_add_all. revert names.
  induction xs as [|x xs IH]; intros names H; simpl; [done|].
  by apply IH, NoDup_set_add.
Qed.

(** ** The reference extractor *)

(** C1: the structural scan on the two items of the claim, and on two items
    whose key ends in Property without being made of letters with the capital
    or small initial only.  The last two keys end, case-insensitively, in
    Property and carry a value of the identifier shape; the scan returns
    nothing for them. *)
Theorem extractPropNamesFromJson_keys :
  extractPropNamesFromJson
    (stringify (JObj [(str "filterProperty", JStr (str "lead_status"))]))
    = [str "lead_status"]
  /\ extractPropNamesFromJson
       (stringify (JObj [(str "propertyType", JStr (str "ENUMERATION"))])) = []
  /\ extractPropNamesFromJson
       (stringify (JObj [(str "filter_property", JStr (str "lead_status"))])) = []
  /\ extractPropNamesFromJson
       (stringify (JObj [(str "filterPROPERTY", JStr (str "lead_status"))])) = [].
Proof. repeat split; vm_compute; reflexivity. Qed.

(** C3, as the claim states it (field ids of the identifier shape only),
    fails on a placeholder whose field id starts with a digit. *)
Lemma token_claim_counterexample :
  let item := JObj [(str "subject", JStr (str "{{contact.2nd_email}}"))] in
  ~ (forall v : jstring,
       v ∈ extractPropsFromJsonWithTokens item <->
       v ∈ extractPropNamesFromJson (stringify item)
       \/ token_occurs ident_shape v (stringify item)).
Proof.
  intros item H.
  assert (E : extractPropsFromJsonWithTokens item = [str "2nd_email"])
    by (vm_compute; reflexivity).
  assert (E' : extractPropNamesFromJson (stringify item) = [])
    by (vm_compute; reflexivity).
  destruct (H (str "2nd_email")) as [Hin _].
  rewrite E, E' in Hin. destruct (Hin ltac:(by apply list_elem_of_here)) as [Hs|Ht].
  - by apply elem_of_nil in Hs.
  - destruct Ht as (pre & rest & s & _ & src & _ & _ & _ & Hshape).
    vm_compute in Hshape. discriminate.
Qed.

(** C3, amended: for a workflow or a marketing email the extractor returns
    the names of the structural scan together with exactly the field ids of
    the placeholders of the serialized item, where a field id is one or more
    of [a-z0-9_] (it may start with a digit or an underscore); the result has
    no duplicates; a text with the placeholder for contact.favorite_color
    gives favorite_color. *)
Theorem token_scan_exact (obj : json) :
  (forall v : jstring,
     v ∈ extractPropsFromJsonWithTokens obj <->
     v ∈ extractPropNamesFromJson (stringify obj)
     \/ token_occurs token_field_shape v (stringify obj))
  /\ NoDup (extractPropsFromJsonWithTokens obj)
  /\ extractWorkflowProps obj = extractPropsFromJsonWithTokens obj
  /\ extractEmailProps obj = extractPropsFromJsonWithTokens obj
  /\ extractPropsFromJsonWithTokens
       (JObj [(str "subject", JStr (str "Hi {{contact.favorite_color}}!"))])
     = [str "favorite_color"].
Proof.
  split; [|split; [|split; [reflexivity|split; [reflexivity|]]]].
  - intros v. unfold extractPropsFromJsonWithTokens.
    by rewrite elem_of_set_add_all, token_scan_spec.
  - unfold extractPropsFromJsonWithTokens, extractPropNamesFromJson.
    apply NoDup_set_add_all, NoDup_set_add_all. constructor.
  - vm_compute. reflexivity.
Qed.

(** ** The cursor paginator *)






Lemma batch_of_not_null data key : data <> JNull -> exists b, batch_of data key = Ok b.
Proof.
  intros Hd. destruct data as [| | | |items|props]; simpl; eauto; [done| |].
  - destruct (array_index key) as [i|]; eauto.
    destruct (items !! i) as [[]|]; eauto.
  - destruct (lookup_prop key props) as [[]|]; eauto.
Qed.

Section PaginateLoop.
Variable http : http_get.
Variables (token url key : jstring) (extra : list (jstring * json)).

Local Abbreviation loop := (paginate_loop http token url key extra).
Local Abbreviation req := (page_request token url extra).

Lemma paginate_loop_step n items after :
  loop (S n) items after =
  match http (req after) with
  | Ok data =>
      match batch_of data key with
      | Ok batch =>
          let items' := match batch with Some b => items ++ b | None => items end in
          if truthy (next_cursor data)
          then let '(r, log) := loop n items' (next_cursor data) in (r, req after :: log)
          else (Ok items', [req after])
      | Throw e => (Throw e, [req after])
      | OutOfFuel => (OutOfFuel, [req after])
      end
  | Throw e => (Throw e, [req after])
  | OutOfFuel => (OutOfFuel, [req after])
  end.
Proof. reflexivity. Qed.

Lemma add_batch items data b :
  batch_of data key = Ok b ->
  match b with Some x => items ++ x | None => items end
  = items ++ page_items key data.
Proof.
  intros Hb. unfold page_items. rewrite Hb.
  destruct b; [done | by rewrite app_nil_r].
Qed.


End PaginateLoop.

Lemma batch_of_page_body key items cursor :
  batch_of (page_body key items cursor) key = Ok (Some items).
Proof.
  unfold batch_of, page_body, lookup_prop. simpl.
  by rewrite bool_decide_eq_true_2.
Qed.

Lemma page_items_page_body key items cursor :
  page_items key (page_body key items cursor) = items.
Proof. unfold page_items. by rewrite batch_of_page_body. Qed.

Lemma next_cursor_page_body key items c :
  key <> str "paging" ->
  next_cursor (page_body key items (Some c)) = JStr c.
Proof.
  intros Hk. unfold next_cursor, page_body, get_opt, lookup_prop. simpl.
  by rewrite bool_decide_eq_false_2.
Qed.

Lemma next_cursor_page_body_none key items :
  key <> str "paging" ->
  next_cursor (page_body key items None) = JNull.
Proof.
  intros Hk. unfold next_cursor, page_body, get_opt, lookup_prop. simpl.
  by rewrite bool_decide_eq_false_2.
Qed.




(** C10, as the claim states it (a malformed body never makes the paginator
    fail), is false for the body [null]: reading the item key throws. *)
Lemma null_body_counterexample :
  paginateHubSpot null_body (str "t") (str "u") (str "results") [] 5
  = (Throw (type_error "Cannot read properties of null"),
     [page_request (str "t") (str "u") [] JNull])
  /\ ~ (exists items, fst (paginateHubSpot null_body (str "t") (str "u") (str "results") [] 5)
                      = Ok items).
Proof.
  split; [reflexivity|]. intros [items H]. vm_compute in H. discriminate.
Qed.

Lemma is_digit_cases (c : char) :
  is_digit c = true ->
  c = 48 \/ c = 49 \/ c = 50 \/ c = 51 \/ c = 52
  \/ c = 53 \/ c = 54 \/ c = 55 \/ c = 56 \/ c = 57.
Proof.
  unfold is_digit, in_range. intros [H1 H2]%andb_true_iff.
  apply N.leb_le in H1, H2. lia.
Qed.

(** A run of digits is the print of a decimal number with the same value. *)
Lemma digits_uint (k : jstring) :
  forallb is_digit k = true ->
  exists d, str (NilEmpty.string_of_uint d) = k
    /\ (forall acc, Nat.of_uint_acc d acc
                    = fold_left (fun acc c => (10 * acc + N.to_nat (c - 48))%nat) k acc)
    /\ match k with
       | [] => d = Decimal.Nil
       | c :: r => d <> Decimal.Nil /\ (c <> 48 \/ r = [] -> Decimal.unorm d = d)
       end.
Proof.
  induction k as [|c r IH]; simpl.
  - intros _. by exists Decimal.Nil.
  - intros [Hc Hr]%andb_true_iff. destruct (IH Hr) as (d & Hs & Hv & Hn).
    assert (Hnil : r = [] -> d = Decimal.Nil) by (intros ->; exact Hn).
    destruct (is_digit_cases c Hc) as [->|[->|[->|[->|[->|[->|[->|[->|[->| ->]]]]]]]]];
      [exists (Decimal.D0 d)|exists (Decimal.D1 d)|exists (Decimal.D2 d)
      |exists (Decimal.D3 d)|exists (Decimal.D4 d)|exists (Decimal.D5 d)
      |exists (Decimal.D6 d)|exists (Decimal.D7 d)|exists (Decimal.D8 d)
      |exists (Decimal.D9 d)];
      (split; [exact (f_equal (cons _) Hs)|]);
      (split; [intros acc; simpl Nat.of_uint_acc; rewrite Hv, Nat.tail_mul_spec;
               f_equal; simpl; lia|]);
      (split; [done|]); try done.
    intros [H|H]; [done|]. by rewrite (Hnil H).
Qed.

(** The key that [array_index] reads as the position [i] is the numeral of
    [i]. *)
Lemma array_index_of_nat (k : jstring) (i : nat) :
  array_index k = Some i -> k = of_nat i.
Proof.
  unfold array_index. destruct k as [|c r]; [done|].
  destruct (forallb is_digit (c :: r)) eqn:Hd; [|done]. simpl andb.
  destruct (negb (c =? 48) || negb (nonempty r)) eqn:Hc; [|done].
  intros [= <-]. destruct (digits_uint (c :: r) Hd) as (d & Hs & Hv & Hne & Hu).
  assert (Hcan : Decimal.unorm d = d).
  { apply Hu. apply orb_true_iff in Hc as [Hc|Hc].
    - left. apply negb_true_iff, N.eqb_neq in Hc. exact Hc.
    - right. by destruct r. }
  pose proof (Hv 0%nat) as Hv0. cbv beta in Hv0.
  etransitivity; [|exact (f_equal of_nat Hv0)].
  change (Nat.of_uint_acc d 0%nat) with (Nat.of_uint d).
  unfold of_nat. rewrite Unsigned.to_of, Hcan. rewrite <- Hs.
  unfold NilZero.string_of_uint. by destruct d.
Qed.

Lemma page_items_lacking (key : jstring) (data : json) :
  lacks_items key data -> page_items key data = [].
Proof.
  intros Hno. unfold page_items, batch_of.
  destruct data as [| | | |elems|props]; try done.
  - destruct (array_index key) as [i|] eqn:Hi; [|done].
    destruct (elems !! i) as [[]|] eqn:Hl; try done.
    destruct (Hno i _ Hl). by apply array_index_of_nat.
  - destruct (lookup_prop key props) as [[]|] eqn:Hl; try done.
    by destruct (Hno items).
Qed.

(** C10, amended: for every page of a pagination.  A body that is [null]
    makes the read of the item key throw, and the error leaves the
    paginator.  A body that is not [null] never makes the paginator throw at
    that page: the loop continues or stops by the cursor of the body alone,
    with the items of the page added; and a body that holds no array under
    the item key (an object without the key or with another value under it,
    a bare array, a string, a number or a boolean) adds no item, while an
    object with an array under the key adds that array. *)
Theorem paginate_tolerates_body (http : http_get) (token url key : jstring)
    (extra : list (jstring * json)) (n : nat) (items : list json) (after data : json) :
  http (page_request token url extra after) = Ok data ->
  (data = JNull ->
   paginate_loop http token url key extra (S n) items after
   = (Throw (type_error "Cannot read properties of null"),
      [page_request token url extra after]))
  /\ (data <> JNull ->
      paginate_loop http token url key extra (S n) items after
      = (if truthy (next_cursor data)
         then (fst (paginate_loop http token url key extra n
                      (items ++ page_items key data) (next_cursor data)),
               page_request token url extra after
               :: snd (paginate_loop http token url key extra n
                         (items ++ page_items key data) (next_cursor data)))
         else (Ok (items ++ page_items key data), [page_request token url extra after]))
      /\ (lacks_items key data -> items ++ page_items key data = items)
      /\ (forall props b, data = JObj props -> lookup_prop key props = Some (JArr b) ->
            page_items key data = b)).
Proof.
  intros Hreq. split.
  - intros ->. by rewrite paginate_loop_step, Hreq.
  - intros Hnull. split; [|split].
    + rewrite paginate_loop_step, Hreq.
      destruct (batch_of_not_null data key Hnull) as [b Hb]. rewrite Hb. cbv zeta.
      rewrite (add_batch key items data b Hb).
      destruct (truthy (next_cursor data)); [|done].
      by destruct (paginate_loop _ _ _ _ _ n _ _).
    + intros Hno. by rewrite (page_items_lacking key data Hno), app_nil_r.
    + intros props b -> Hl. unfold page_items, batch_of. by rewrite Hl.
Qed.

Lemma paginate_tolerates_body_witness :
  paginate_loop bare_list (str "t") (str "u") (str "results") [] 1
                [JStr (str "kept")] JNull
  = (Ok [JStr (str "kept")], [page_request (str "t") (str "u") [] JNull]).
Proof.
  destruct (paginate_tolerates_body bare_list (str "t") (str "u") (str "results") []
              0 [JStr (str "kept")] JNull (JArr [JArr [JNum (str "1")]]) eq_refl)
    as [_ H].
  destruct (H ltac:(discriminate)) as (Hstep & Hnone & _).
  rewrite Hstep, Hnone; [reflexivity|].
  intros i b Hi. destruct i as [|[|i]]; [|done|done].
  vm_compute. discriminate.
Defined.

(** ** Sets of values *)

Lemma prim_eqb_eq (x y : json) : prim_eqb x y = true -> x = y.
Proof.
  destruct x, y; simpl; try discriminate; try done.
  - intros H. apply Bool.eqb_prop in H. by subst.
  - intros H. apply bool_decide_eq_true_1 in H. by subst.
  - intros H. apply bool_decide_eq_true_1 in H. by subst.
Qed.

Lemma elem_of_jset_add (x y : json) (names : list json) :
  y ∈ jset_add x names <-> y ∈ names \/ y = x.
Proof.
  unfold jset_add.
  destruct (is_primitive x && existsb (prim_eqb x) names) eqn:Hc.
  - split; [by left|]. intros [H| ->]; [done|].
    apply andb_true_iff in Hc as [_ Hc]. apply existsb_exists in Hc as (z & Hz & Heq).
    apply prim_eqb_eq in Heq as ->. by apply list_elem_of_In.
  - rewrite elem_of_app, list_elem_of_singleton. done.
Qed.

(** ** The provenance store *)

Lemma find_array_elem o k arrs names :
  find_array o k arrs = Some names -> (o, k, names) ∈ arrs.
Proof.
  unfold find_array. induction arrs as [|[[o' k'] n'] arrs IH]; simpl; [done|].
  destruct (bool_decide ((o', k') = (o, k))) eqn:He; simpl.
  - apply bool_decide_eq_true_1 in He. injection He as -> ->.
    intros [= ->]. apply list_elem_of_here.
  - intros H. apply list_elem_of_further. by apply IH.
Qed.

Lemma find_array_snoc o k arrs :
  find_array o k arrs = None -> find_array o k (arrs ++ [(o, k, [])]) = Some [].
Proof.
  unfold find_array. induction arrs as [|[[o' k'] n'] arrs IH]; simpl.
  - by rewrite bool_decide_eq_true_2.
  - destruct (bool_decide ((o', k') = (o, k))); simpl; [done | exact IH].
Qed.

Lemma find_array_snoc_some o k o' k' arrs names :
  find_array o k arrs = Some names ->
  find_array o k (arrs ++ [(o', k', [])]) = Some names.
Proof.
  unfold find_array. induction arrs as [|[[o2 k2] n2] arrs IH]; simpl; [done|].
  destruct (bool_decide ((o2, k2) = (o, k))); simpl; [done | exact IH].
Qed.

Lemma set_array_elem o k names arrs e :
  e ∈ set_array o k names arrs -> e ∈ arrs \/ e = (o, k, names).
Proof.
  induction arrs as [|e' arrs IH]; simpl.
  - intros ->%list_elem_of_singleton. by right.
  - destruct (bool_decide (fst e' = (o, k))).
    + intros [->|H]%elem_of_cons; [by right | left; by apply list_elem_of_further].
    + intros [->|H]%elem_of_cons; [left; apply list_elem_of_here|].
      destruct (IH H) as [H'|H']; [left; by apply list_elem_of_further | by right].
Qed.

Lemma distinct_sources_nil : distinct_sources [].
Proof. intros i j a b _ H. by rewrite lookup_nil in H. Qed.

Lemma distinct_sources_snoc names src :
  distinct_sources names -> existsb (same_source src) names = false ->
  distinct_sources (names ++ [src]).
Proof.
  intros Hd Hex i j a b Hij Ha Hb.
  destruct (decide (j < length names)%nat) as [Hj|Hj].
  - rewrite lookup_app_l in Ha, Hb by lia. exact (Hd i j a b Hij Ha Hb).
  - rewrite lookup_app_r in Hb by lia.
    destruct (j - length names)%nat as [|m] eqn:Hm; [|simpl in Hb; by rewrite lookup_nil in Hb].
    injection Hb as <-. rewrite lookup_app_l in Ha by lia.
    destruct (same_source src a) eqn:Hs; [|done].
    assert (Hin : existsb (same_source src) names = true).
    { apply existsb_exists. exists a. split; [|done].
      apply list_elem_of_In. by eapply list_elem_of_lookup_2. }
    congruence.
Qed.

Lemma resolve_prop_entry u p p' : resolve_prop u p = Some (Entry p') -> p' = p.
Proof.
  unfold resolve_prop. repeat case_bool_decide; try congruence.
  destruct (kind_of_key p); [|done].
  by destruct (find_array ObjectPrototype _ _).
Qed.

Section StoreInvariant.
Variable P : jstring -> kind -> Prop.

Lemma arrays_ok_create o k arrs :
  arrays_ok P arrs -> (forall p, o = Entry p -> P p k) ->
  arrays_ok P (arrs ++ [(o, k, [])]).
Proof.
  intros [Hd Hp] Ho. split.
  - apply Forall_app. split; [done|]. repeat constructor. apply distinct_sources_nil.
  - intros p' k' names [H|H]%elem_of_app; [by eapply Hp|].
    apply list_elem_of_singleton in H. injection H as <- <- _. by apply Ho.
Qed.

Lemma arrays_ok_push owner k src arrs names :
  arrays_ok P arrs -> (forall p, owner = Entry p -> P p k) ->
  find_array owner k arrs = Some names ->
  existsb (same_source src) names = false ->
  arrays_ok P (set_array owner k (names ++ [src]) arrs).
Proof.
  intros [Hd Hp] Ho Hf Hex.
  assert (Hnames : distinct_sources names).
  { apply find_array_elem in Hf. rewrite Forall_forall in Hd. exact (Hd _ Hf). }
  split.
  - apply Forall_forall. intros e [He| ->]%set_array_elem.
    + rewrite Forall_forall in Hd. by apply Hd.
    + simpl. by apply distinct_sources_snoc.
  - intros p' k' n [He|He]%set_array_elem; [by eapply Hp|].
    injection He as <- <- _. by apply Ho.
Qed.

Lemma arrays_ok_addUsage_key p k src u :
  arrays_ok P (arrays u) -> P p k -> arrays_ok P (arrays (addUsage_key p k src u)).
Proof.
  intros Hok Hpk. unfold addUsage_key.
  set (r1 := match resolve_prop u p with
             | Some o => (o, u)
             | None => (Entry p, mkUsage (own_keys u ++ [p]) (arrays u))
             end).
  assert (H1 : arrays (snd r1) = arrays u /\ forall p', fst r1 = Entry p' -> P p' k).
  { subst r1. destruct (resolve_prop u p) as [o|] eqn:Hr; simpl.
    - split; [done|]. intros p' ->. by apply resolve_prop_entry in Hr as ->.
    - split; [done|]. by intros p' [= <-]. }
  destruct r1 as [o u1]. simpl in H1. destruct H1 as [Ha Ho].
  unfold resolve_type. rewrite Ha.
  destruct (find_array o k (arrays u)) as [n|] eqn:Hf.
  - simpl. rewrite Ha, Hf. simpl.
    destruct (existsb (same_source src) n) eqn:Hex; simpl; rewrite ?Ha; [done|].
    by apply arrays_ok_push.
  - destruct (find_array ObjectPrototype k (arrays u)) as [n|] eqn:Hf'.
    + simpl. rewrite Ha, Hf'. simpl.
      destruct (existsb (same_source src) n) eqn:Hex; simpl; rewrite ?Ha; [done|].
      by apply arrays_ok_push.
    + simpl. rewrite ?Ha, (find_array_snoc o k (arrays u) Hf). simpl.
      apply (arrays_ok_push o k src _ []); [by apply arrays_ok_create|done| |done].
      by apply find_array_snoc.
Qed.
End StoreInvariant.

Lemma arrays_ok_mono (P Q : jstring -> kind -> Prop) arrs :
  (forall p k, P p k -> Q p k) -> arrays_ok P arrs -> arrays_ok Q arrs.
Proof. intros HPQ [Hd Hp]. split; [done|]. intros p k n H. eapply HPQ, Hp, H. Qed.

Lemma store_ok_initial : store_ok initial_state.
Proof. split; [constructor|]. intros p k n H. by apply elem_of_nil in H. Qed.

Lemma store_ok_provenance st : store_ok st -> provenance_ok st.
Proof.
  intros [Hd Hp] p k names Hprov. unfold provenance in Hprov.
  case_bool_decide; [|done]. apply find_array_elem in Hprov. split.
  - rewrite Forall_forall in Hd. exact (Hd _ Hprov).
  - exact (Hp _ _ _ Hprov).
Qed.

Lemma store_ok_frame st st' :
  usageDetails st' = usageDetails st -> props st' = props st ->
  store_ok st -> store_ok st'.
Proof.
  unfold store_ok, has_member. intros -> ->. done.
Qed.

Lemma has_member_add_prop st k name p k' :
  has_member st p k' -> has_member (snd (add_prop k name st)) p k'.
Proof.
  intros (x & Hx & Hs). exists x. split; [|done]. simpl. unfold update.
  case_bool_decide; [subst|done]. apply elem_of_jset_add. by left.
Qed.

Lemma add_prop_member st k name :
  name ∈ props (snd (add_prop k name st)) k.
Proof.
  simpl. unfold update. rewrite bool_decide_eq_true_2 by done.
  apply elem_of_jset_add. by right.
Qed.

Lemma preserves_add_prop k name : preserves (add_prop k name).
Proof.
  intros st Hok. eapply arrays_ok_mono; [|exact Hok].
  intros p k'. apply has_member_add_prop.
Qed.

Lemma store_ok_add_usage k src name st :
  store_ok st -> name ∈ props st k -> store_ok (snd (add_usage k src name st)).
Proof.
  intros Hok Hin. unfold add_usage, addUsage.
  destruct (to_string name) as [p| |] eqn:Hp; simpl; [|done|done].
  apply (arrays_ok_addUsage_key (has_member st)); [done|]. by exists name.
Qed.

Lemma preserves_record_use k src name : preserves (record_use k src name).
Proof.
  intros st Hok. unfold record_use, bind_stm.
  pose proof (preserves_add_prop k name st Hok) as H1.
  pose proof (add_prop_member st k name) as H2.
  destruct (add_prop k name st) as [[[]| |] st1] eqn:Ha; try done.
  exact (store_ok_add_usage k src name st1 H1 H2).
Qed.

(** ** Statements that keep the invariant *)

Lemma preserves_frame {A : Type} (m : stm A) :
  (forall st, usageDetails (snd (m st)) = usageDetails st
              /\ props (snd (m st)) = props st) ->
  preserves m.
Proof. intros H st Hok. destruct (H st) as [Hu Hp]. by eapply store_ok_frame. Qed.

Lemma preserves_ret {A : Type} (a : A) : preserves (ret a).
Proof. by apply preserves_frame. Qed.

Lemma preserves_lift {A : Type} (m : outcome A) : preserves (lift m).
Proof. by apply preserves_frame. Qed.

Lemma preserves_bind {A B : Type} (m : stm A) (f : A -> stm B) :
  preserves m -> (forall a, preserves (f a)) -> preserves (bind_stm m f).
Proof.
  intros Hm Hf st Hok. unfold bind_stm. specialize (Hm st Hok).
  destruct (m st) as [[a| |] st']; simpl in *; [by apply Hf|done|done].
Qed.

Lemma preserves_for_each {A : Type} (xs : list A) (body : A -> stm unit) :
  (forall x, preserves (body x)) -> preserves (for_each_stm xs body).
Proof.
  intros Hb. induction xs as [|x xs IH]; simpl.
  - apply preserves_ret.
  - apply preserves_bind; [apply Hb | by intros _].
Qed.

Lemma preserves_try_catch (body : stm unit) (handler : js_error -> stm unit) :
  preserves body -> (forall e, preserves (handler e)) ->
  preserves (try_catch body handler).
Proof.
  intros Hb Hh st Hok. unfold try_catch. specialize (Hb st Hok).
  destruct (body st) as [[a|e|] st']; simpl in *; [done|by apply Hh|done].
Qed.

Lemma preserves_push_warning label e : preserves (push_warning label e).
Proof.
  unfold push_warning. apply preserves_bind; [apply preserves_lift|].
  intros text. by apply preserves_frame.
Qed.

Lemma preserves_axios_get http r : preserves (axios_get http r).
Proof. by apply preserves_frame. Qed.

Lemma preserves_paginate http fuel token url key extra :
  preserves (paginate http fuel token url key extra).
Proof.
  apply preserves_frame. intros st. unfold paginate.
  by destruct (paginateHubSpot _ _ _ _ _ _).
Qed.

Lemma preserves_set_count k n : preserves (set_count k n).
Proof. by apply preserves_frame. Qed.

Lemma preserves_add_count k n : preserves (add_count k n).
Proof. by apply preserves_frame. Qed.

Lemma preserves_scan_items k name_of extract fetch_no items :
  preserves (scan_items k name_of extract fetch_no items).
Proof.
  unfold scan_items. apply preserves_for_each. intros [i item]. unfold scan_item.
  apply preserves_bind; [apply preserves_lift|]. intros v.
  apply preserves_bind; [apply preserves_lift|]. intros names.
  apply preserves_for_each. intros name. apply preserves_record_use.
Qed.

Create HintDb preserves.

#[local] Hint Resolve preserves_ret preserves_lift preserves_push_warning
  preserves_axios_get preserves_paginate preserves_set_count preserves_add_count
  preserves_scan_items : preserves.

Ltac preserves_tac :=
  repeat first
    [ solve [eauto with preserves]
    | apply preserves_try_catch
    | apply preserves_bind
    | progress intros
    | match goal with |- preserves (let '(_, _) := ?x in _) => destruct x end
    | match goal with |- preserves (if ?b then _ else _) => destruct b end ].

Lemma preserves_blocks http fuel token :
  preserves (workflows_block http fuel token)
  /\ preserves (forms_block http fuel token)
  /\ preserves (lists_block http fuel token)
  /\ preserves (pipelines_block http token)
  /\ preserves (emails_block http fuel token)
  /\ preserves (reports_block http token).
Proof.
  unfold workflows_block, forms_block, lists_block, pipelines_block, pipelines_of,
    emails_block, reports_block.
  repeat match goal with |- _ /\ _ => split end; preserves_tac.
Qed.

Lemma preserves_fetch_usage_context http fuel token :
  store_ok (snd (fetch_usage_context http fuel token)).
Proof.
  destruct (preserves_blocks http fuel token) as (H1 & H2 & H3 & H4 & H5 & H6).
  unfold fetch_usage_context.
  assert (Hall : preserves
            (do* _ := workflows_block http fuel token in
             do* _ := forms_block http fuel token in
             do* _ := lists_block http fuel token in
             do* _ := pipelines_block http token in
             do* _ := emails_block http fuel token in
             reports_block http token)).
  { repeat (apply preserves_bind; [done|intros _]). done. }
  apply Hall, store_ok_initial.
Qed.

(** C6: the provenance invariant holds at the start of a scan, it is kept by
    the two statements that touch the sets and the provenance map (the
    addition to the set of a kind and the call of addUsage that follows it),
    and it holds at the end of every scan, whatever the remote API answers;
    it gives, for every field and kind of the provenance map of the
    response, a list of names without duplicates and a member of the set of
    the kind whose property key is the field. *)
Theorem provenance_invariant :
  store_ok initial_state
  /\ (forall st, store_ok st -> provenance_ok st)
  /\ (forall st k src name,
        store_ok st ->
        store_ok (snd (add_prop k name st))
        /\ store_ok (snd (record_use k src name st)))
  /\ (forall http fuel token,
        store_ok (snd (fetch_usage_context http fuel token))
        /\ provenance_ok (snd (fetch_usage_context http fuel token))).
Proof.
  split; [apply store_ok_initial|]. split; [apply store_ok_provenance|]. split.
  - intros st k src name Hok. split.
    + by apply preserves_add_prop.
    + by apply preserves_record_use.
  - intros http fuel token. split.
    + apply preserves_fetch_usage_context.
    + apply store_ok_provenance, preserves_fetch_usage_context.
Qed.

Lemma provenance_invariant_witness :
  provenance_ok initial_state
  /\ store_ok (snd (record_use Workflows (mkSourceName (0, 0)%nat (JStr (str "Welcome")))
                      (JStr (str "lead_status")) initial_state)).
Proof.
  destruct provenance_invariant as (H0 & H1 & H2 & _). split.
  - exact (H1 initial_state H0).
  - exact (proj2 (H2 initial_state Workflows _ _ H0)).
Defined.

(** ** Sources do not depend on each other *)

Lemma uniform_frame {A : Type} (k : kind) (m : stm A) (r : outcome A) :
  (forall st, fst (m st) = r /\ props (snd (m st)) = props st
              /\ warnings (snd (m st)) = warnings st) ->
  uniform k m.
Proof.
  intros H st1 st2 Hp.
  destruct (H st1) as (Hr1 & Hp1 & Hw1), (H st2) as (Hr2 & Hp2 & Hw2).
  repeat split.
  - congruence.
  - by rewrite Hp1, Hp2.
  - exists []. by rewrite Hw1, Hw2, !app_nil_r.
  - intros k' _. by rewrite Hp1.
Qed.

Lemma uniform_ret {A : Type} k (a : A) : uniform k (ret a).
Proof. by apply (uniform_frame k _ (Ok a)). Qed.

Lemma uniform_lift {A : Type} k (m : outcome A) : uniform k (lift m).
Proof. by apply (uniform_frame k _ m). Qed.

Lemma uniform_bind {A B : Type} k (m : stm A) (f : A -> stm B) :
  uniform k m -> (forall a, uniform k (f a)) -> uniform k (bind_stm m f).
Proof.
  intros Hm Hf st1 st2 Hp. unfold bind_stm.
  destruct (Hm st1 st2 Hp) as (Hr & Hpk & (ws & Hw1 & Hw2) & Hfr).
  destruct (m st1) as [r1 s1], (m st2) as [r2 s2]. simpl in *. subst r2.
  destruct r1 as [a|e|]; simpl.
  - destruct (Hf a s1 s2 Hpk) as (Hr' & Hpk' & (ws' & Hw1' & Hw2') & Hfr').
    repeat split; [done|done| |].
    + exists (ws ++ ws'). by rewrite Hw1', Hw2', Hw1, Hw2, !app_assoc.
    + intros k' Hk. by rewrite Hfr', Hfr.
  - repeat split; [done| |done]. by exists ws.
  - repeat split; [done| |done]. by exists ws.
Qed.

Lemma uniform_for_each {A : Type} k (xs : list A) (body : A -> stm unit) :
  (forall x, uniform k (body x)) -> uniform k (for_each_stm xs body).
Proof.
  intros Hb. induction xs as [|x xs IH]; simpl.
  - apply uniform_ret.
  - apply uniform_bind; [apply Hb | by intros _].
Qed.

Lemma uniform_try_catch k (body : stm unit) (handler : js_error -> stm unit) :
  uniform k body -> (forall e, uniform k (handler e)) ->
  uniform k (try_catch body handler).
Proof.
  intros Hm Hh st1 st2 Hp. unfold try_catch.
  destruct (Hm st1 st2 Hp) as (Hr & Hpk & (ws & Hw1 & Hw2) & Hfr).
  destruct (body st1) as [r1 s1], (body st2) as [r2 s2]. simpl in *. subst r2.
  destruct r1 as [a|e|]; simpl.
  - repeat split; [done| |done]. by exists ws.
  - destruct (Hh e s1 s2 Hpk) as (Hr' & Hpk' & (ws' & Hw1' & Hw2') & Hfr').
    repeat split; [done|done| |].
    + exists (ws ++ ws'). by rewrite Hw1', Hw2', Hw1, Hw2, !app_assoc.
    + intros k' Hk. by rewrite Hfr', Hfr.
  - repeat split; [done| |done]. by exists ws.
Qed.

Lemma uniform_push_warning k label e : uniform k (push_warning label e).
Proof.
  unfold push_warning. apply uniform_bind; [apply uniform_lift|].
  intros text st1 st2 Hp. simpl.
  split; [done|]. split; [done|]. split; [by eexists|done].
Qed.

Lemma uniform_axios_get k http r : uniform k (axios_get http r).
Proof. by apply (uniform_frame k _ (http r)). Qed.

Lemma uniform_paginate k http fuel token url key extra :
  uniform k (paginate http fuel token url key extra).
Proof.
  apply (uniform_frame k _ (fst (paginateHubSpot http token url key extra fuel))).
  intros st. unfold paginate. by destruct (paginateHubSpot _ _ _ _ _ _).
Qed.

Lemma uniform_set_count k k' n : uniform k (set_count k' n).
Proof. by apply (uniform_frame k _ (Ok tt)). Qed.

Lemma uniform_add_count k k' n : uniform k (add_count k' n).
Proof. by apply (uniform_frame k _ (Ok tt)). Qed.

Lemma uniform_add_prop k name : uniform k (add_prop k name).
Proof.
  intros st1 st2 Hp. simpl. unfold update.
  split; [done|]. split; [|split].
  - rewrite !bool_decide_eq_true_2 by done. by rewrite Hp.
  - exists []. by rewrite !app_nil_r.
  - intros k' Hk. by rewrite bool_decide_eq_false_2.
Qed.

Lemma uniform_add_usage k src name : uniform k (add_usage k src name).
Proof.
  intros st1 st2 Hp. unfold add_usage, addUsage.
  destruct (to_string name) as [p| |]; simpl;
    (split; [done|]; split; [done|]; split; [|done]);
    exists []; by rewrite !app_nil_r.
Qed.

Lemma uniform_scan_items k name_of extract fetch_no items :
  uniform k (scan_items k name_of extract fetch_no items).
Proof.
  unfold scan_items. apply uniform_for_each. intros [i item]. unfold scan_item.
  apply uniform_bind; [apply uniform_lift|]. intros v.
  apply uniform_bind; [apply uniform_lift|]. intros names.
  apply uniform_for_each. intros name. unfold record_use.
  apply uniform_bind; [apply uniform_add_prop|]. intros _. apply uniform_add_usage.
Qed.

Create HintDb uniform.

#[local] Hint Resolve uniform_ret uniform_lift uniform_push_warning uniform_axios_get
  uniform_paginate uniform_set_count uniform_add_count uniform_scan_items : uniform.

Ltac uniform_tac :=
  repeat first
    [ solve [eauto with uniform]
    | apply uniform_try_catch
    | apply uniform_bind
    | progress intros
    | match goal with |- uniform _ (let '(_, _) := ?x in _) => destruct x end
    | match goal with |- uniform _ (if ?b then _ else _) => destruct b end ].

Lemma uniform_blocks http fuel token :
  uniform Workflows (workflows_block http fuel token)
  /\ uniform Forms (forms_block http fuel token)
  /\ uniform Lists (lists_block http fuel token)
  /\ uniform Pipelines (pipelines_block http token)
  /\ uniform Emails (emails_block http fuel token)
  /\ uniform Reports (reports_block http token).
Proof.
  unfold workflows_block, forms_block, lists_block, pipelines_block, pipelines_of,
    emails_block, reports_block.
  repeat match goal with |- _ /\ _ => split end; uniform_tac.
Qed.

(** A source that settles on its own (it completes, or its failure becomes a
    warning) does the same after any other sources, as long as they left its
    set empty: same additions to its set, same warnings. *)
Lemma uniform_settles k (B : stm unit) (st : scan_state) :
  uniform k B ->
  fst (B initial_state) = Ok tt ->
  props st k = [] ->
  exists st', B st = (Ok tt, st')
    /\ warnings st' = warnings st ++ warnings (snd (B initial_state))
    /\ props st' k = props (snd (B initial_state)) k
    /\ forall k', k' <> k -> props st' k' = props st k'.
Proof.
  intros Hu Hr Hp.
  destruct (Hu st initial_state Hp) as (Hr' & Hpk & (ws & Hw1 & Hw2) & Hfr).
  simpl in Hw2. subst ws.
  exists (snd (B st)). repeat split; try done.
  rewrite Hr in Hr'. destruct (B st); simpl in *. by subst.
Qed.

(** The scan is the sum of its sources: when every source settles on its
    own, the scan completes, every set is the one its source builds on its
    own, and the warnings are those of the sources in order. *)
Lemma scan_is_blockwise http fuel token :
  (forall B k, (B, k) ∈ all_sources http fuel token -> fst (B initial_state) = Ok tt) ->
  let result := fetch_usage_context http fuel token in
  fst result = Ok tt
  /\ warnings (snd result)
     = concat (List.map (fun Bk => warnings (snd (fst Bk initial_state)))
                        (all_sources http fuel token))
  /\ forall B k, (B, k) ∈ all_sources http fuel token ->
       props (snd result) k = props (snd (B initial_state)) k.
Proof.
  intros Hall result.
  destruct (uniform_blocks http fuel token) as (U1 & U2 & U3 & U4 & U5 & U6).
  assert (R1 := Hall (workflows_block http fuel token) Workflows
                  ltac:(unfold all_sources; apply list_elem_of_here)).
  assert (R2 := Hall (forms_block http fuel token) Forms
                  ltac:(unfold all_sources; do 1 apply list_elem_of_further;
                        apply list_elem_of_here)).
  assert (R3 := Hall (lists_block http fuel token) Lists
                  ltac:(unfold all_sources; do 2 apply list_elem_of_further;
                        apply list_elem_of_here)).
  assert (R4 := Hall (pipelines_block http token) Pipelines
                  ltac:(unfold all_sources; do 3 apply list_elem_of_further;
                        apply list_elem_of_here)).
  assert (R5 := Hall (emails_block http fuel token) Emails
                  ltac:(unfold all_sources; do 4 apply list_elem_of_further;
                        apply list_elem_of_here)).
  assert (R6 := Hall (reports_block http token) Reports
                  ltac:(unfold all_sources; do 5 apply list_elem_of_further;
                        apply list_elem_of_here)).
  destruct (uniform_settles Workflows _ initial_state U1 R1 eq_refl)
    as (s1 & E1 & Hw1 & Hp1 & Hfr1).
  destruct (uniform_settles Forms _ s1 U2 R2) as (s2 & E2 & Hw2 & Hp2 & Hfr2).
  { by rewrite Hfr1. }
  destruct (uniform_settles Lists _ s2 U3 R3) as (s3 & E3 & Hw3 & Hp3 & Hfr3).
  { by rewrite Hfr2, Hfr1. }
  destruct (uniform_settles Pipelines _ s3 U4 R4) as (s4 & E4 & Hw4 & Hp4 & Hfr4).
  { by rewrite Hfr3, Hfr2, Hfr1. }
  destruct (uniform_settles Emails _ s4 U5 R5) as (s5 & E5 & Hw5 & Hp5 & Hfr5).
  { by rewrite Hfr4, Hfr3, Hfr2, Hfr1. }
  destruct (uniform_settles Reports _ s5 U6 R6) as (s6 & E6 & Hw6 & Hp6 & Hfr6).
  { by rewrite Hfr5, Hfr4, Hfr3, Hfr2, Hfr1. }
  assert (Hres : result = (Ok tt, s6)).
  { subst result. unfold fetch_usage_context, bind_stm.
    by rewrite E1, E2, E3, E4, E5, E6. }
  rewrite Hres. simpl. split; [done|]. split.
  - rewrite Hw6, Hw5, Hw4, Hw3, Hw2, Hw1. simpl. by rewrite app_nil_r, <- !app_assoc.
  - intros B k Hin. unfold all_sources in Hin.
    repeat (apply elem_of_cons in Hin as [Hin|Hin]; [injection Hin as -> ->|]).
    + rewrite Hfr6, Hfr5, Hfr4, Hfr3, Hfr2 by done. exact Hp1.
    + rewrite Hfr6, Hfr5, Hfr4, Hfr3 by done. exact Hp2.
    + rewrite Hfr6, Hfr5, Hfr4 by done. exact Hp3.
    + rewrite Hfr6, Hfr5 by done. exact Hp4.
    + rewrite Hfr6 by done. exact Hp5.
    + exact Hp6.
    + by apply elem_of_nil in Hin.
Qed.

(** ** A failing source *)

Lemma forms_block_fails http fuel token e log text st :
  paginateHubSpot http token (api "/marketing/v3/forms") (str "results") [] fuel
    = (Throw e, log) ->
  to_string (error_text e) = Ok text ->
  exists st', forms_block http fuel token st = (Ok tt, st')
    /\ warnings st' = warnings st ++ [str "Forms: " ++ text]
    /\ props st' = props st.
Proof.
  intros Hf Ht. unfold forms_block, try_catch, bind_stm, paginate. rewrite Hf.
  unfold push_warning, bind_stm, lift. rewrite Ht. eexists. split; [reflexivity|].
  simpl. split; [|done]. do 2 f_equal.
Qed.

(** ** What a completed source collects *)


Lemma grows_bind {A B : Type} k (m : stm A) (f : A -> stm B) :
  grows k m -> (forall a, grows k (f a)) -> grows k (bind_stm m f).
Proof.
  intros Hm Hf st x Hx. unfold bind_stm. specialize (Hm st x Hx).
  destruct (m st) as [[a| |] st']; simpl in *; [by apply Hf|done|done].
Qed.

Lemma grows_for_each {A : Type} k (xs : list A) (body : A -> stm unit) :
  (forall x, grows k (body x)) -> grows k (for_each_stm xs body).
Proof.
  intros Hb. induction xs as [|x xs IH]; simpl; [by intros st x Hx|].
  apply grows_bind; [apply Hb | by intros _].
Qed.

Lemma grows_add_prop k name : grows k (add_prop k name).
Proof.
  intros st x Hx. simpl. unfold update. rewrite bool_decide_eq_true_2 by done.
  apply elem_of_jset_add. by left.
Qed.

Lemma grows_add_usage k src name : grows k (add_usage k src name).
Proof.
  intros st x Hx. unfold add_usage. by destruct (addUsage name k src (usageDetails st)).
Qed.

Lemma grows_record_use k src name : grows k (record_use k src name).
Proof.
  unfold record_use. apply grows_bind; [apply grows_add_prop|].
  intros _. apply grows_add_usage.
Qed.

Lemma grows_scan_item k name_of extract fetch_no x :
  grows k (scan_item k name_of extract fetch_no x).
Proof.
  destruct x as [i item]. unfold scan_item.
  apply grows_bind; [by intros st x Hx|]. intros v.
  apply grows_bind; [by intros st x Hx|]. intros names.
  apply grows_for_each. intros name. apply grows_record_use.
Qed.

Lemma for_each_stm_cons {A : Type} (x : A) xs (body : A -> stm unit) st :
  for_each_stm (x :: xs) body st =
  match body x st with
  | (Ok _, st') => for_each_stm xs body st'
  | (Throw e, st') => (Throw e, st')
  | (OutOfFuel, st') => (OutOfFuel, st')
  end.
Proof. reflexivity. Qed.

Lemma record_all_collects k src names st st' :
  for_each_stm names (record_use k src) st = (Ok tt, st') ->
  forall name, name ∈ names -> name ∈ props st' k.
Proof.
  revert st. induction names as [|n names IH]; intros st Hrun name Hin.
  - by apply elem_of_nil in Hin.
  - rewrite for_each_stm_cons in Hrun.
    destruct (record_use k src n st) as [[[]| |] s1] eqn:Hr; try done.
    apply elem_of_cons in Hin as [->|Hin]; [|exact (IH s1 Hrun name Hin)].
    assert (Hn : n ∈ props s1 k).
    { pose proof (grows_add_usage k src n (snd (add_prop k n st)) n
                    (add_prop_member st k n)) as Hg.
      unfold record_use, bind_stm in Hr. simpl in Hr. simpl in Hg.
      by rewrite Hr in Hg. }
    pose proof (grows_for_each k names (record_use k src)
                  (grows_record_use k src) s1 n Hn) as Hg.
    by rewrite Hrun in Hg.
Qed.

Lemma scan_pairs_collects k name_of extract fetch_no (l : list (nat * json)) st st' :
  for_each_stm l (scan_item k name_of extract fetch_no) st = (Ok tt, st') ->
  forall i item names name,
    (i, item) ∈ l -> extract item = Ok names -> name ∈ names ->
    name ∈ props st' k.
Proof.
  revert st. induction l as [|[j it] l IH]; intros st Hrun i item names name Hin He Hn.
  - by apply elem_of_nil in Hin.
  - rewrite for_each_stm_cons in Hrun.
    destruct (scan_item k name_of extract fetch_no (j, it) st) as [[[]| |] s1] eqn:Hs;
      try done.
    apply elem_of_cons in Hin as [Heq|Hin];
      [|exact (IH s1 Hrun i item names name Hin He Hn)].
    injection Heq as <- <-.
    assert (Hn1 : name ∈ props s1 k).
    { unfold scan_item, bind_stm, lift in Hs.
      destruct (name_of item) as [v| |]; try done. rewrite He in Hs.
      by eapply record_all_collects. }
    pose proof (grows_for_each k l _ (grows_scan_item k name_of extract fetch_no)
                  s1 name Hn1) as Hg.
    by rewrite Hrun in Hg.
Qed.

Lemma scan_items_collects k name_of extract fetch_no items st st' :
  scan_items k name_of extract fetch_no items st = (Ok tt, st') ->
  forall item names name,
    item ∈ items -> extract item = Ok names -> name ∈ names ->
    name ∈ props st' k.
Proof.
  intros Hrun item names name Hin He Hn.
  apply list_elem_of_lookup in Hin as [i Hi].
  eapply (scan_pairs_collects _ _ _ _ _ _ _ Hrun i item); [|done|done].
  apply list_elem_of_lookup. exists i. by rewrite list_lookup_imap, Hi.
Qed.

Lemma silent_bind {A B : Type} (m : stm A) (f : A -> stm B) :
  silent m -> (forall a, silent (f a)) -> silent (bind_stm m f).
Proof.
  intros Hm Hf st. unfold bind_stm. specialize (Hm st).
  destruct (m st) as [[a| |] st']; simpl in *; [|done|done].
  by rewrite Hf.
Qed.

Lemma silent_for_each {A : Type} (xs : list A) (body : A -> stm unit) :
  (forall x, silent (body x)) -> silent (for_each_stm xs body).
Proof.
  intros Hb. induction xs as [|x xs IH]; simpl; [by intros st|].
  apply silent_bind; [apply Hb | by intros _].
Qed.

Lemma silent_scan_items k name_of extract fetch_no items :
  silent (scan_items k name_of extract fetch_no items).
Proof.
  unfold scan_items. apply silent_for_each. intros [i item]. unfold scan_item.
  apply silent_bind; [by intros st|]. intros v.
  apply silent_bind; [by intros st|]. intros names.
  apply silent_for_each. intros name. unfold record_use.
  apply silent_bind; [by intros st|]. intros _ st. unfold add_usage.
  by destruct (addUsage _ _ _ _).
Qed.

(** A paged source that completes without warning has scanned every item of
    every page. *)
Lemma paged_block_collects http fuel token k label url key extra name_of extract st st' :
  try_catch
    (do* items := paginate http fuel token url key extra in
     do* _ := set_count k (Some (length items)) in
     scan_items k name_of (fun x => Ok (strings (extract x))) 0 items)
    (push_warning label) st = (Ok tt, st') ->
  warnings st' = warnings st ->
  forall items log,
    paginateHubSpot http token url key extra fuel = (Ok items, log) ->
    forall item n, item ∈ items -> n ∈ extract item -> JStr n ∈ props st' k.
Proof.
  intros Hrun Hw items log Hp item n Hin Hn.
  unfold try_catch, bind_stm, paginate in Hrun. rewrite Hp in Hrun. simpl in Hrun.
  match type of Hrun with
  | context [scan_items ?a ?b ?c ?d ?e ?s] =>
      pose proof (silent_scan_items a b c d e s) as Hsil;
      destruct (scan_items a b c d e s) as [[[]|err|] s1] eqn:Hs
  end; simpl in Hsil.
  - injection Hrun as <-.
    eapply (scan_items_collects _ _ _ _ _ _ _ Hs item); [done|reflexivity|].
    unfold strings. apply list_elem_of_fmap. by exists n.
  - exfalso. unfold push_warning, bind_stm, lift in Hrun.
    destruct (to_string (error_text err)); try done.
    injection Hrun as <-. simpl in Hw. rewrite Hsil in Hw.
    apply (f_equal length) in Hw. rewrite length_app in Hw. simpl in Hw. lia.
  - done.
Qed.

(** C5: the claim does not hold of the code, which misses what its own
    description promises (errors on any source are non-fatal).  The [catch]
    of a source builds the warning with a template literal, and that
    conversion can throw: a failure whose message is an object with an own
    property toString cannot be printed.  For every API: when the workflows
    are read and the request for the forms fails with a message that cannot
    be printed, the error leaves the [catch] of the forms and the handler
    with it; no warning is pushed for the forms, no request is sent after
    those for the forms, so no later source is read, and every set but the
    one of the workflows is empty. *)
Theorem forms_failure_aborts_scan (http : http_get) (fuel : nat) (token : jstring)
    (e e' : js_error) (log : list request) :
  fst (workflows_block http fuel token initial_state) = Ok tt ->
  paginateHubSpot http token (api "/marketing/v3/forms") (str "results") [] fuel
    = (Throw e, log) ->
  to_string (error_text e) = Throw e' ->
  let result := fetch_usage_context http fuel token in
  let workflows := snd (workflows_block http fuel token initial_state) in
  fst result = Throw e'
  /\ warnings (snd result) = warnings workflows
  /\ requests (snd result) = requests workflows ++ log
  /\ forall k, k <> Workflows -> props (snd result) k = [].
Proof.
  intros Hw Hf Ht. cbv zeta.
  destruct (uniform_blocks http fuel token) as (U1 & _).
  destruct (U1 initial_state initial_state eq_refl) as (_ & _ & _ & Hfr).
  unfold fetch_usage_context, bind_stm.
  destruct (workflows_block http fuel token initial_state) as [r s1]. simpl in Hw, Hfr.
  subst r.
  assert (Hforms : forms_block http fuel token s1
                   = (Throw e', mkScan (warnings s1) (usageDetails s1) (props s1)
                                       (counts s1) (requests s1 ++ log))).
  { unfold forms_block, try_catch, bind_stm, paginate. rewrite Hf.
    unfold push_warning, bind_stm, lift. by rewrite Ht. }
  rewrite Hforms. simpl.
  split; [done|]. split; [done|]. split; [done|]. exact Hfr.
Qed.

Lemma forms_failure_aborts_scan_witness :
  let result := fetch_usage_context forms_unprintable 5 (str "tok") in
  fst result = Throw (type_error "Cannot convert object to primitive value")
  /\ warnings (snd result) = []
  /\ List.map url (requests (snd result))
     = [api "/automation/v3/workflows"; api "/marketing/v3/forms"]
  /\ props (snd result) Lists = [].
Proof.
  intros result.
  destruct (forms_failure_aborts_scan forms_unprintable 5 (str "tok")
              (mkError (Some (JObj [(str "toString", JNull)]))
                       (str "Request failed with status code 400"))
              (type_error "Cannot convert object to primitive value")
              [page_request (str "tok") (api "/marketing/v3/forms") [] JNull]
              eq_refl eq_refl eq_refl)
    as (H1 & H2 & H3 & H4).
  fold result in H1, H2, H3, H4.
  split; [exact H1|]. split; [rewrite H2; reflexivity|].
  split; [rewrite H3; reflexivity|]. by apply H4.
Defined.

(** ** The form walk *)

Lemma field_shape_unfold props :
  field_shape (JObj props) =
  forallb (fun kv => let '(k, x) := kv in
     if bool_decide (k = str "dependentFields") then list_shape dep_shape x else true) props.
Proof. reflexivity. Qed.

Lemma lookup_prop_In k props x : lookup_prop k props = Some x -> In (k, x) props.
Proof.
  unfold lookup_prop. induction props as [|[k' x'] props IH]; simpl; [done|].
  destruct (bool_decide (k' = k)) eqn:Hk; simpl.
  - apply bool_decide_eq_true_1 in Hk as ->. intros [= ->]. by left.
  - intros H. right. by apply IH.
Qed.

Lemma foldr_max_ge {A : Type} (f : A -> nat) (l : list A) (x : A) :
  In x l -> (f x <= foldr Nat.max 0 (List.map f l))%nat.
Proof.
  induction l as [|a l IH]; simpl; [done|].
  intros [->|H]; [lia|]. specialize (IH H). lia.
Qed.

Lemma depth_elem x l : In x l -> (json_depth x < json_depth (JArr l))%nat.
Proof. intros H. simpl. pose proof (foldr_max_ge json_depth l x H). lia. Qed.

Lemma depth_prop k props x :
  lookup_prop k props = Some x -> (json_depth x < json_depth (JObj props))%nat.
Proof.
  intros H%lookup_prop_In. simpl.
  pose proof (foldr_max_ge (fun kv : jstring * json => let '(_, y) := kv in json_depth y)
                props (k, x) H) as Hle.
  simpl in Hle. lia.
Qed.

(** A list property of the expected shape is iterated without error. *)
Lemma iterate_list_shape (elem : json -> bool) (v : jsvalue) :
  match v with Some x => list_shape elem x = true | None => True end ->
  iterate_or_empty v = Ok (list_of v)
  /\ (forall x, In x (list_of v) -> elem x = true)
  /\ (forall x, In x (list_of v) -> (json_depth x < depth_of v)%nat).
Proof.
  destruct v as [[| | | |items|]|]; simpl; try done.
  intros H. split; [done|]. split.
  - by apply forallb_forall.
  - intros x Hx. pose proof (foldr_max_ge json_depth items x Hx). lia.
Qed.

(** A loop whose body adds the names [Q x] for the element [x] adds them for
    every element. *)
Lemma for_each_adds {A : Type} (xs : list A)
    (body : A -> list json -> outcome (list json)) (Q : A -> json -> Prop) :
  (forall x, In x xs -> forall acc, exists acc',
     body x acc = Ok acc' /\ forall y, y ∈ acc' <-> y ∈ acc \/ Q x y) ->
  forall names, exists names',
    for_each xs body names = Ok names'
    /\ forall y, y ∈ names' <-> y ∈ names \/ exists x, In x xs /\ Q x y.
Proof.
  induction xs as [|x xs IH]; intros Hbody names.
  - exists names. split; [done|]. intros y. split; [by left|].
    intros [H|(x & [] & _)]; done.
  - destruct (Hbody x ltac:(by left) names) as (acc & Hacc & Hspec).
    destruct (IH ltac:(intros z Hz; apply Hbody; by right) acc) as (names' & Hrun & Hall).
    exists names'. simpl. rewrite Hacc. simpl. split; [done|].
    intros y. rewrite Hall, Hspec. split.
    + intros [[H|H]|(z & Hz & HQ)]; [by left| right; exists x; split; [by left|done] |].
      right. exists z. split; [by right|done].
    + intros [H|(z & [<-|Hz] & HQ)]; [by left; left | by left; right |].
      right. by exists z.
Qed.

Lemma forallb_lookup_prop (F : jstring * json -> bool) k props x :
  forallb F props = true -> lookup_prop k props = Some x -> F (k, x) = true.
Proof.
  intros HF Hl. apply lookup_prop_In in Hl.
  rewrite forallb_forall in HF. by apply HF.
Qed.

Section ScanLevels.
Variable recur : jsvalue -> list json -> outcome (list json).
Variable d : nat.
Hypothesis recur_spec : recur_ok d recur.

Lemma scanFilter_adds filter names :
  filter_shape filter = true -> (json_depth filter < d)%nat ->
  exists names', scanFilter recur filter names = Ok names'
    /\ forall y, y ∈ names' <->
         y ∈ names
         \/ exists sub, prop_of filter "dependentFormField" = Some sub
                        /\ truthy sub = true /\ reach sub y.
Proof.
  intros Hshape Hd. destruct filter as [| | | | |fprops]; try done.
  unfold scanFilter, prop_of. simpl.
  destruct (lookup_prop (str "dependentFormField") fprops) as [f|] eqn:Hf.
  - pose proof (forallb_lookup_prop _ _ _ _ Hshape Hf) as Hsub. simpl in Hsub.
    pose proof (depth_prop _ _ _ Hf) as Hdf.
    destruct (truthy f) eqn:Ht; simpl in Hsub.
    + destruct (recur_spec (Some (JArr [f])) names) as (names' & Hrun & Hspec).
      * simpl. by rewrite Hsub.
      * simpl in *. lia.
      * exists names'. split; [done|]. intros y. rewrite Hspec. simpl. split.
        -- intros [H|(f0 & Hf0 & Hr)]; [by left|]. right.
           apply list_elem_of_singleton in Hf0 as ->. by exists f.
        -- intros [H|(sub & [= <-] & _ & Hr)]; [by left|]. right.
           exists f. split; [apply list_elem_of_here | done].
    + exists names. split; [done|]. intros y. split; [by left|].
      intros [H|(sub & [= <-] & Ht' & _)]; [done | congruence].
  - exists names. split; [done|]. intros y. split; [by left|].
    intros [H|(sub & [=] & _)]; done.
Qed.

Lemma scanDep_adds dep names :
  dep_shape dep = true -> (json_depth dep < d)%nat ->
  exists names', scanDep recur dep names = Ok names'
    /\ forall y, y ∈ names' <->
         y ∈ names
         \/ (exists filter sub,
               filter ∈ list_of (prop_of dep "dependentFieldFilters")
               /\ prop_of filter "dependentFormField" = Some sub
               /\ truthy sub = true /\ reach sub y)
         \/ (exists f, f ∈ list_of (prop_of dep "fields") /\ reach f y).
Proof.
  intros Hshape Hd. destruct dep as [| | | | |dprops]; try done.
  unfold scanDep, prop_of. simpl.
  assert (Hfilters : match lookup_prop (str "dependentFieldFilters") dprops with
                     | Some x => list_shape filter_shape x = true
                     | None => True end).
  { destruct (lookup_prop (str "dependentFieldFilters") dprops) eqn:Hl; [|done].
    exact (forallb_lookup_prop _ _ _ _ Hshape Hl). }
  assert (Hfs : fields_shape (lookup_prop (str "fields") dprops)).
  { unfold fields_shape.
    destruct (lookup_prop (str "fields") dprops) eqn:Hl; [|done].
    exact (forallb_lookup_prop _ _ _ _ Hshape Hl). }
  assert (Hdfilters : (depth_of (lookup_prop (str "dependentFieldFilters") dprops)
                       < json_depth (JObj dprops))%nat).
  { destruct (lookup_prop (str "dependentFieldFilters") dprops) eqn:Hl; simpl; [|lia].
    by eapply depth_prop. }
  assert (Hdfs : (depth_of (lookup_prop (str "fields") dprops)
                  < json_depth (JObj dprops))%nat).
  { destruct (lookup_prop (str "fields") dprops) eqn:Hl; simpl; [|lia].
    by eapply depth_prop. }
  set (filters := lookup_prop (str "dependentFieldFilters") dprops) in *.
  set (fs := lookup_prop (str "fields") dprops) in *.
  destruct (iterate_list_shape filter_shape filters Hfilters) as (Hit & Hall & Hdep).
  rewrite Hit. simpl.
  destruct (for_each_adds (list_of filters) (scanFilter recur)
              (fun filter y => exists sub, prop_of filter "dependentFormField" = Some sub
                                           /\ truthy sub = true /\ reach sub y)) with (names := names)
    as (names1 & Hrun1 & Hspec1).
  { intros filter Hin acc. apply scanFilter_adds; [by apply Hall|].
    specialize (Hdep filter Hin). lia. }
  rewrite Hrun1. simpl.
  destruct (recur_spec fs names1 Hfs ltac:(lia)) as (names' & Hrun & Hspec).
  exists names'. split; [done|]. intros y. rewrite Hspec, Hspec1. split.
  - intros [[H|(filter & Hin & sub & H1 & H2 & H3)]|H]; [by left| |by right; right].
    right. left. exists filter, sub. by rewrite list_elem_of_In.
  - intros [H|[(filter & sub & Hin & H1 & H2 & H3)|H]]; [by left; left| |by right].
    left. right. exists filter. rewrite <- list_elem_of_In. split; [done|]. by exists sub.
Qed.
End ScanLevels.

Lemma reach_unfold f y :
  reach f y <-> field_name f y \/ exists sub, sub_field f sub /\ reach sub y.
Proof.
  unfold reach. split.
  - intros (f' & Hrtc & Hn). apply rtc_inv in Hrtc as [->|(sub & Hs & Hrtc)].
    + by left.
    + right. exists sub. split; [done|]. by exists f'.
  - intros [Hn|(sub & Hs & f' & Hrtc & Hn)].
    + by exists f.
    + exists f'. split; [|done]. by eapply rtc_l.
Qed.

Lemma scanField_adds recur d field names :
  recur_ok d recur ->
  field_shape field = true -> (json_depth field <= d)%nat ->
  exists names', scanField recur field names = Ok names'
    /\ forall y, y ∈ names' <-> y ∈ names \/ reach field y.
Proof.
  intros Hrecur Hshape Hd. destruct field as [| | | | |props]; try done.
  unfold scanField. simpl.
  assert (Hdeps : match lookup_prop (str "dependentFields") props with
                  | Some x => list_shape dep_shape x = true
                  | None => True end).
  { destruct (lookup_prop (str "dependentFields") props) eqn:Hl; [|done].
    rewrite field_shape_unfold in Hshape.
    exact (forallb_lookup_prop _ _ _ _ Hshape Hl). }
  assert (Hddeps : (depth_of (lookup_prop (str "dependentFields") props)
                    < json_depth (JObj props))%nat).
  { destruct (lookup_prop (str "dependentFields") props) eqn:Hl; simpl; [|lia].
    by eapply depth_prop. }
  destruct (iterate_list_shape dep_shape _ Hdeps) as (Hit & Hall & Hdep).
  rewrite Hit. simpl.
  set (names1 := match lookup_prop (str "name") props with
                 | Some x => if truthy x then jset_add x names else names
                 | None => names
                 end).
  assert (Hnames1 : forall y, y ∈ names1 <-> y ∈ names \/ field_name (JObj props) y).
  { intros y. subst names1. unfold field_name, prop_of. simpl.
    destruct (lookup_prop (str "name") props) as [x|] eqn:Hn.
    - destruct (truthy x) eqn:Ht.
      + rewrite elem_of_jset_add. split.
        * intros [H| ->]; [by left | by right].
        * intros [H|[[= ->] _]]; [by left | by right].
      + split; [by left|]. intros [H|[[= ->] Ht']]; [done | congruence].
    - split; [by left|]. intros [H|[[=] _]]. done. }
  destruct (for_each_adds (list_of (lookup_prop (str "dependentFields") props))
              (scanDep recur)
              (fun dep y =>
                 (exists filter sub,
                    filter ∈ list_of (prop_of dep "dependentFieldFilters")
                    /\ prop_of filter "dependentFormField" = Some sub
                    /\ truthy sub = true /\ reach sub y)
                 \/ (exists f, f ∈ list_of (prop_of dep "fields") /\ reach f y)))
    with (names := names1) as (names' & Hrun & Hspec).
  { intros dep Hin acc. apply (scanDep_adds recur d Hrecur); [by apply Hall|].
    specialize (Hdep dep Hin). lia. }
  exists names'. split; [done|]. intros y.
  rewrite Hspec, Hnames1, reach_unfold. unfold sub_field, prop_of. simpl. split.
  - intros [[H|H]|(dep & Hin & Hq)]; [by left|by right; left|]. right. right.
    apply list_elem_of_In in Hin.
    destruct Hq as [(filter & sub & H1 & H2 & H3 & H4)|(f & H1 & H2)].
    + exists sub. split; [|done]. exists dep. split; [done|]. left. by exists filter.
    + exists f. split; [|done]. exists dep. split; [done|]. by right.
  - intros [H|[H|(sub & (dep & Hin & Hsub) & Hr)]]; [by left; left|by left; right|].
    right. exists dep. split; [by apply list_elem_of_In|].
    destruct Hsub as [(filter & H1 & H2 & H3)|H1].
    + left. by exists filter, sub.
    + right. by exists sub.
Qed.

(** [scanFields] with fuel above the depth of its argument returns, and adds
    exactly the names reachable from the fields of the list. *)
Lemma scanFields_ok (n : nat) : recur_ok n (scanFields n).
Proof.
  induction n as [|n IH]; intros fields names Hshape Hd; [lia|].
  simpl.
  destruct (iterate_list_shape field_shape fields Hshape) as (Hit & Hall & Hdep).
  rewrite Hit. simpl.
  destruct (for_each_adds (list_of fields) (scanField (scanFields n)) reach)
    with (names := names) as (names' & Hrun & Hspec).
  { intros f Hin acc. apply (scanField_adds _ n); [done|by apply Hall|].
    specialize (Hdep f Hin). lia. }
  exists names'. split; [done|]. intros y. rewrite Hspec.
  split; (intros [H|(f & Hf & Hr)]; [by left|right; exists f; split; [|done]]);
    by apply list_elem_of_In.
Qed.

Lemma form_field_reach form y :
  (exists f, form_field form f /\ field_name f y)
  <-> exists f0, top_field form f0 /\ reach f0 y.
Proof.
  unfold form_field, reach. split.
  - intros (f & (f0 & Ht & Hr) & Hn). exists f0. split; [done|]. by exists f.
  - intros (f0 & Ht & f & Hr & Hn). exists f. split; [by exists f0 | done].
Qed.

(** The legacy list of a form of the expected shape, as the code walks it. *)
Lemma legacy_walk fuel (l : list json) names :
  legacy_shape (JArr l) = true -> (json_depth (JArr l) < fuel)%nat ->
  exists names',
    match l with
    | JArr _ :: _ => for_each l (fun row acc => scanFields fuel (Some row) acc) names
    | _ => scanFields fuel (Some (JArr l)) names
    end = Ok names'
    /\ forall y, y ∈ names' <->
         y ∈ names
         \/ exists f, f ∈ (if forallb is_array l
                           then concat (List.map (fun row => list_of (Some row)) l)
                           else l)
                      /\ reach f y.
Proof.
  intros Hshape Hd. simpl in Hshape.
  destruct (forallb field_shape l) eqn:Hflat.
  - (* a flat list of fields *)
    assert (Hcode : match l with
                    | JArr _ :: _ =>
                        for_each l (fun row acc => scanFields fuel (Some row) acc) names
                    | _ => scanFields fuel (Some (JArr l)) names
                    end = scanFields fuel (Some (JArr l)) names).
    { destruct l as [|[] l']; try done. }
    assert (Hspec : (if forallb is_array l
                     then concat (List.map (fun row => list_of (Some row)) l)
                     else l) = l).
    { destruct l as [|[] l']; try done. }
    rewrite Hcode, Hspec.
    destruct (scanFields_ok fuel (Some (JArr l)) names Hflat Hd) as (names' & Hrun & Hs).
    by exists names'.
  - (* a list of rows *)
    simpl in Hshape.
    assert (Hrows : forall row, In row l ->
              is_array row = true /\ list_shape field_shape row = true).
    { intros row Hin. rewrite forallb_forall in Hshape.
      by apply andb_true_iff, Hshape. }
    assert (Harr : forallb is_array l = true).
    { apply forallb_forall. intros row Hin. by apply Hrows. }
    rewrite Harr.
    assert (Hloop : exists names',
              for_each l (fun row acc => scanFields fuel (Some row) acc) names = Ok names'
              /\ forall y, y ∈ names' <->
                   y ∈ names \/ exists row, In row l
                     /\ exists f, f ∈ list_of (Some row) /\ reach f y).
    { apply (for_each_adds l (fun row acc => scanFields fuel (Some row) acc)
               (fun row y => exists f, f ∈ list_of (Some row) /\ reach f y)).
      intros row Hin acc. apply scanFields_ok.
      - by apply Hrows.
      - pose proof (depth_elem row l Hin). simpl in *. lia. }
    destruct Hloop as (names' & Hrun & Hs).
    exists names'. split.
    + destruct l as [|[] l']; try done.
      all: exfalso; destruct (Hrows _ ltac:(by left)) as [Ha _]; done.
    + intros y. rewrite Hs. split.
      * intros [H|(row & Hin & f & Hf & Hr)]; [by left|]. right. exists f.
        split; [|done]. apply list_elem_of_In, in_concat.
        exists (list_of (Some row)). split; [|by apply list_elem_of_In].
        apply in_map_iff. by exists row.
      * intros [H|(f & Hf & Hr)]; [by left|]. right.
        apply list_elem_of_In, in_concat in Hf as (lst & Hlst & Hf).
        apply in_map_iff in Hlst as (row & <- & Hin).
        exists row. split; [done|]. exists f. split; [by apply list_elem_of_In|done].
Qed.

(** C2: on a form of the expected shape the walk returns, and the names it
    returns are exactly the names of the fields of the form: the fields of
    the field groups, the legacy fields (a flat list or rows), and every
    conditional field under them through dependentFieldFilters and through
    the legacy fields sub-list, at any depth; a name is any truthy value of
    the property name, with no constraint on its shape. *)
Theorem extractFormProps_walk (form : json) :
  form_shape form = true ->
  exists names, extractFormProps form = Ok names
    /\ forall y, y ∈ names <-> exists f, form_field form f /\ field_name f y.
Proof.
  intros Hshape. destruct form as [| | | | |props]; try done.
  simpl in Hshape. apply andb_true_iff in Hshape as [Hgroups Hlegacy].
  unfold extractFormProps. set (fuel := S (json_depth (JObj props))). simpl get.
  cbv beta iota delta [bind].
  (* the field groups *)
  assert (Hgs : match lookup_prop (str "fieldGroups") props with
                | Some x => list_shape group_shape x = true
                | None => True end).
  { destruct (lookup_prop (str "fieldGroups") props) eqn:Hl; [|done].
    pose proof (forallb_lookup_prop _ _ _ _ Hgroups Hl) as H. unfold on_key in H.
    simpl in H. exact H. }
  assert (Hdgs : (depth_of (lookup_prop (str "fieldGroups") props)
                  < json_depth (JObj props))%nat).
  { destruct (lookup_prop (str "fieldGroups") props) eqn:Hl; simpl; [|lia].
    by eapply depth_prop. }
  destruct (iterate_list_shape group_shape _ Hgs) as (Hit & Hall & Hdep).
  rewrite Hit.
  destruct (for_each_adds (list_of (lookup_prop (str "fieldGroups") props))
              (fun group acc =>
                 match get group "fields" with
                 | Ok fs => scanFields fuel fs acc
                 | Throw e => Throw e
                 | OutOfFuel => OutOfFuel
                 end)
              (fun group y => exists f, f ∈ list_of (prop_of group "fields") /\ reach f y))
    with (names := @nil json) as (names1 & Hrun1 & Hspec1).
  { intros g Hin acc. specialize (Hall g Hin). specialize (Hdep g Hin).
    destruct g as [| | | | |gprops]; try done. simpl get. unfold prop_of. simpl get_opt.
    apply scanFields_ok.
    - unfold fields_shape. destruct (lookup_prop (str "fields") gprops) eqn:Hl; [|done].
      pose proof (forallb_lookup_prop _ _ _ _ Hall Hl) as H. unfold on_key in H.
      simpl in H. exact H.
    - destruct (lookup_prop (str "fields") gprops) eqn:Hl; simpl; [|lia].
      pose proof (depth_prop _ _ _ Hl). subst fuel. simpl in *. lia. }
  rewrite Hrun1.
  (* the legacy list *)
  assert (Htop : forall names : list json,
            (forall y, y ∈ names <->
               y ∈ names1 \/ exists f, f ∈ legacy_fields (JObj props) /\ reach f y) ->
            forall y, y ∈ names <->
              exists f, form_field (JObj props) f /\ field_name f y).
  { intros names Hn y. rewrite Hn, Hspec1, form_field_reach. unfold top_field. split.
    - intros [[H|(g & Hg & f & Hf & Hr)]|(f & Hf & Hr)].
      + by apply elem_of_nil in H.
      + exists f. split; [|done]. left. exists g. split; [|done].
        by apply list_elem_of_In.
      + exists f. split; [by right|done].
    - intros (f & [(g & Hg & Hf)|Hf] & Hr).
      + left. right. exists g. split; [by apply list_elem_of_In|]. by exists f.
      + right. by exists f. }
  unfold legacy_fields, prop_of in Htop. simpl get_opt in Htop.
  destruct (lookup_prop (str "formFields") props) as [legacy|] eqn:Hl.
  - pose proof (forallb_lookup_prop _ _ _ _ Hlegacy Hl) as Hls. unfold on_key in Hls.
    simpl in Hls.
    pose proof (depth_prop _ _ _ Hl) as Hdl.
    destruct legacy as [| | | |l|]; try done.
    + exists names1. split; [done|]. apply Htop. intros y. split; [by left|].
      intros [H|(f & Hf & _)]; [done|]. by apply elem_of_nil in Hf.
    + destruct (legacy_walk fuel l names1 Hls ltac:(subst fuel; lia))
        as (names & Hrun & Hs).
      exists names. split; [exact Hrun|]. by apply Htop.
  - exists names1. split; [done|]. apply Htop. intros y. split; [by left|].
    intros [H|(f & Hf & _)]; [done|]. by apply elem_of_nil in Hf.
Qed.

Lemma extractFormProps_walk_witness :
  exists names, extractFormProps sample_form = Ok names
    /\ forall y, y ∈ names <-> exists f, form_field sample_form f /\ field_name f y.
Proof. apply (extractFormProps_walk sample_form). reflexivity. Defined.

(** ** The fuel of the form walk is enough *)

Lemma for_each_fuel {A S : Type} (xs : list A) (body : A -> S -> outcome S) :
  (forall x, In x xs -> forall acc, body x acc <> OutOfFuel) ->
  forall st, for_each xs body st <> OutOfFuel.
Proof.
  induction xs as [|x xs IH]; intros Hbody st; simpl; [done|].
  destruct (body x st) as [st'| |] eqn:Hb; simpl; [|done|].
  - apply IH. intros z Hz. apply Hbody. by right.
  - by destruct (Hbody x ltac:(by left) st).
Qed.

Lemma code_points_depth_le (n : nat) :
  forall s x, (length s <= n)%nat -> In x (code_points s) -> json_depth x = 0%nat.
Proof.
  induction n as [|n IH]; intros s x Hn.
  - destruct s; [done | simpl in Hn; lia].
  - destruct s as [|c [|e s']]; simpl; [done| |].
    + by intros [<-|[]].
    + destruct (is_lead_surrogate c && is_trail_surrogate e).
      * intros [<-|H]; [done|]. apply (IH s'); [simpl in Hn; lia | done].
      * intros [<-|H]; [done|]. apply (IH (e :: s')); [simpl in *; lia | done].
Qed.

Lemma code_points_depth s x : In x (code_points s) -> json_depth x = 0%nat.
Proof. by apply (code_points_depth_le (length s)). Qed.

Lemma iterate_depth v l :
  iterate_or_empty v = Ok l -> forall x, In x l -> (json_depth x <= depth_of v)%nat.
Proof.
  destruct v as [[|b|t|s|items|props]|]; simpl; intros Hit x Hx;
    repeat (match type of Hit with
            | context [if ?c then _ else _] => destruct c eqn:?
            end; simpl in Hit);
    try discriminate; injection Hit as <-; try done.
  - rewrite (code_points_depth s x Hx). lia.
  - pose proof (foldr_max_ge json_depth items x Hx). lia.
Qed.

Lemma iterate_fuel v : iterate_or_empty v <> OutOfFuel.
Proof.
  destruct v as [[|b|t|s|items|props]|]; simpl; try done;
    repeat (match goal with
            | |- context [if ?c then _ else _] => destruct c
            end; simpl); done.
Qed.

Lemma get_depth v k x : get v k = Ok (Some x) -> (json_depth x < json_depth v)%nat.
Proof.
  destruct v as [| | | | |props]; simpl; try done. intros [= H]. by eapply depth_prop.
Qed.

Lemma get_fuel v k : get v k <> OutOfFuel.
Proof. by destruct v. Qed.

Section Fuel.
Variable recur : jsvalue -> list json -> outcome (list json).
Variable d : nat.
Hypothesis recur_fuel :
  forall w acc, (depth_of w < d)%nat -> recur w acc <> OutOfFuel.

Lemma scanFilter_fuel filter names :
  (json_depth filter < d)%nat -> scanFilter recur filter names <> OutOfFuel.
Proof.
  intros Hd. unfold scanFilter. pose proof (get_fuel filter "dependentFormField").
  destruct (get filter "dependentFormField") as [[f|]| |] eqn:Hg; simpl; try done.
  destruct (truthy f); [|done]. apply recur_fuel.
  apply get_depth in Hg. simpl. lia.
Qed.

Lemma scanDep_fuel dep names :
  (json_depth dep < d)%nat -> scanDep recur dep names <> OutOfFuel.
Proof.
  intros Hd. unfold scanDep. pose proof (get_fuel dep "dependentFieldFilters").
  destruct (get dep "dependentFieldFilters") as [filters| |] eqn:Hg; simpl; try done.
  pose proof (iterate_fuel filters).
  destruct (iterate_or_empty filters) as [fl| |] eqn:Hit; simpl; try done.
  assert (Hfd : (depth_of filters < json_depth dep)%nat \/ fl = []).
  { destruct filters as [x|]; [left; by eapply get_depth|right].
    simpl in Hit. by injection Hit as <-. }
  pose proof (for_each_fuel fl (scanFilter recur)) as Hloop.
  destruct (for_each fl (scanFilter recur) names) as [names1| |] eqn:Hfe; simpl; try done.
  - pose proof (get_fuel dep "fields").
    destruct (get dep "fields") as [fs| |] eqn:Hgf; simpl; try done.
    apply recur_fuel. destruct fs as [x|]; simpl; [|lia].
    apply get_depth in Hgf. lia.
  - exfalso. eapply Hloop; [|exact Hfe]. intros x Hx acc. apply scanFilter_fuel.
    destruct Hfd as [Hfd| ->]; [|done].
    pose proof (iterate_depth _ _ Hit x Hx). lia.
Qed.

Lemma scanField_fuel field names :
  (json_depth field <= d)%nat -> scanField recur field names <> OutOfFuel.
Proof.
  intros Hd. unfold scanField. pose proof (get_fuel field "name").
  destruct (get field "name") as [n| |] eqn:Hn; simpl; try done.
  pose proof (get_fuel field "dependentFields").
  destruct (get field "dependentFields") as [deps| |] eqn:Hg; simpl; try done.
  pose proof (iterate_fuel deps).
  destruct (iterate_or_empty deps) as [dl| |] eqn:Hit; simpl; try done.
  apply for_each_fuel. intros dep Hin acc. apply scanDep_fuel.
  destruct deps as [x|]; [|simpl in Hit; injection Hit as <-; done].
  apply get_depth in Hg. pose proof (iterate_depth _ _ Hit dep Hin). simpl in *. lia.
Qed.
End Fuel.

Lemma scanFields_fuel (n : nat) :
  forall w acc, (depth_of w < n)%nat -> scanFields n w acc <> OutOfFuel.
Proof.
  induction n as [|n IH]; intros w acc Hd; [lia|]. simpl.
  pose proof (iterate_fuel w).
  destruct (iterate_or_empty w) as [fl| |] eqn:Hit; simpl; try done.
  apply for_each_fuel. intros field Hin acc'. apply (scanField_fuel _ n IH).
  pose proof (iterate_depth _ _ Hit field Hin). lia.
Qed.

(** The walk of any value, of the expected shape or not, returns or throws:
    the model never runs out of fuel. *)
Lemma extractFormProps_fuel (form : json) : extractFormProps form <> OutOfFuel.
Proof.
  unfold extractFormProps. remember (S (json_depth form)) as fuel eqn:Hfuel.
  pose proof (get_fuel form "fieldGroups").
  destruct (get form "fieldGroups") as [groups| |] eqn:Hg; simpl; try done.
  pose proof (iterate_fuel groups).
  destruct (iterate_or_empty groups) as [gl| |] eqn:Hit; simpl; try done.
  assert (Hgroups : forall g, In g gl -> (json_depth g < json_depth form)%nat).
  { intros g Hin. destruct groups as [x|]; [|simpl in Hit; injection Hit as <-; done].
    apply get_depth in Hg. pose proof (iterate_depth _ _ Hit g Hin). simpl in *. lia. }
  match goal with |- context [for_each gl ?b []] =>
    pose proof (for_each_fuel gl b) as Hloop;
    destruct (for_each gl b []) as [names1| |] eqn:Hfe end; simpl; try done.
  - pose proof (get_fuel form "formFields").
    destruct (get form "formFields") as [[legacy|]| |] eqn:Hl; simpl; try done.
    destruct legacy as [| | | |l|]; try done.
    apply get_depth in Hl.
    destruct l as [|[| | | |r|] l'];
      try (apply scanFields_fuel; simpl in *; lia).
    apply for_each_fuel. intros row Hin acc. apply scanFields_fuel.
    pose proof (depth_elem row _ Hin). simpl in *. lia.
  - exfalso. eapply Hloop; [|exact Hfe]. intros g Hin acc.
    pose proof (get_fuel g "fields").
    destruct (get g "fields") as [fs| |] eqn:Hgf; simpl; try done.
    apply scanFields_fuel. specialize (Hgroups g Hin).
    destruct fs as [x|]; simpl; [|lia].
    apply get_depth in Hgf. lia.
Qed.

(** * Further properties of the server *)

(** ** The name sanitiser, continued *)

Lemma take_all_le {A : Type} (n : nat) (s : list A) :
  take n s = s -> (length s <= n)%nat.
Proof.
  intros H. apply (f_equal (@length A)) in H. rewrite length_take in H. lia.
Qed.

(** X1: a label is its own internal name exactly when it is already a valid
    one: made of [a-z0-9_] only, not starting with a digit, and of at most 250
    code units. *)
Theorem toInternalName_fixes_valid_names (s : jstring) :
  toInternalName s = s <->
  all_name s /\ starts_with_digit s = false /\ (length s <= 250)%nat.
Proof.
  split.
  - intros H. rewrite <- H. apply toInternalName_sane.
  - intros (Hn & Hd & Hl). unfold toInternalName.
    rewrite (toLowerCase_name s Hn), (trim_no_space s (all_name_no_space s Hn)).
    rewrite (replace_ws_no_space s (all_name_no_space s Hn)), (strip_other_fix s Hn).
    rewrite Hd. unfold slice0. by apply take_ge.
Qed.

Lemma toLowerCase_app a b : toLowerCase (a ++ b) = toLowerCase a ++ toLowerCase b.
Proof. unfold toLowerCase. apply flat_map_app. Qed.

Lemma trimStart_app_space ws s : all_space ws -> trimStart (ws ++ s) = trimStart s.
Proof. induction 1 as [|c ws Hc _ IH]; simpl; [done|]. by rewrite Hc. Qed.

Lemma trimEnd_app_space s ws : all_space ws -> trimEnd (s ++ ws) = trimEnd s.
Proof.
  intros H. unfold trimEnd. rewrite rev_app_distr, trimStart_app_space; [done|].
  by apply List.Forall_rev.
Qed.

Lemma trim_app_space ws s ws' :
  all_space ws -> all_space ws' -> trim (ws ++ s ++ ws') = trim s.
Proof.
  intros H H'. unfold trim. rewrite (trimStart_app_space ws _ H).
  induction s as [|c s IH]; simpl.
  - by rewrite (trimStart_all_space ws' H').
  - destruct (is_space c); [exact IH|].
    change (c :: s ++ ws') with ((c :: s) ++ ws'). by apply trimEnd_app_space.
Qed.

(** X2: white space around a label does not change its internal name. *)
Theorem toInternalName_ignores_outer_space (ws s ws' : jstring) :
  all_space ws -> all_space ws' ->
  toInternalName (ws ++ s ++ ws') = toInternalName s.
Proof.
  intros H H'. unfold toInternalName.
  rewrite !toLowerCase_app, (toLowerCase_space ws H), (toLowerCase_space ws' H').
  by rewrite (trim_app_space ws _ ws' H H').
Qed.

Lemma toInternalName_ignores_outer_space_witness :
  toInternalName (str "  Deal Size ") = toInternalName (str "Deal Size").
Proof.
  apply (toInternalName_ignores_outer_space (str "  ") (str "Deal Size") (str " "));
    repeat constructor.
Defined.

(** ** The option list parser, continued *)

(** The parser as one indexed map over the surviving labels; the early
    return agrees with it. *)
Lemma parseOptions_imap (s : jstring) :
  parseOptions (Some s) =
  imap (fun i l => mkChoiceOption l (option_value i l) i false)
       (List.filter nonempty (List.map trim (split 59 s))).
Proof.
  unfold parseOptions.
  destruct (negb (nonempty s) || negb (nonempty (trim s))) eqn:He; [|done].
  assert (Hs : all_space s).
  { apply orb_true_iff in He as [He|He].
    - destruct s; [constructor | discriminate].
    - apply trim_nil. destruct (trim s); [done | discriminate]. }
  by rewrite (labels_all_space s Hs).
Qed.

Lemma digits_name (d : Decimal.uint) : all_name (str (NilEmpty.string_of_uint d)).
Proof. induction d; simpl; constructor; done. Qed.

Lemma of_nat_name (n : nat) : all_name (of_nat n).
Proof.
  unfold of_nat, NilZero.string_of_uint.
  destruct (Nat.to_uint n) eqn:E; try (rewrite <- E; apply digits_name).
  by repeat constructor.
Qed.

Lemma option_value_valid (i : nat) (l : jstring) :
  nonempty (option_value i l) = true
  /\ all_name (option_value i l)
  /\ starts_with_digit (option_value i l) = false.
Proof.
  unfold option_value. destruct (toInternalName_sane l) as (Hn & Hd & _).
  destruct (nonempty (toInternalName l)) eqn:He; [done|].
  split; [done|]. split; [|done].
  apply Forall_app. split; [by repeat constructor | apply of_nat_name].
Qed.

(** The pieces of a split hold no separator. *)
Lemma split_no_separator (d : char) (s p : jstring) :
  p ∈ split d s -> d ∉ p.
Proof.
  revert p. induction s as [|c s IH]; simpl; intros p Hp.
  - apply list_elem_of_singleton in Hp as ->. apply not_elem_of_nil.
  - destruct (N.eqb_spec c d) as [->|Hc].
    + apply elem_of_cons in Hp as [->|Hp]; [apply not_elem_of_nil | by apply IH].
    + destruct (split d s) as [|q qs] eqn:Hq.
      * apply list_elem_of_singleton in Hp as ->.
        intros [->|H]%elem_of_cons; [done|]. by apply elem_of_nil in H.
      * apply elem_of_cons in Hp as [->|Hp].
        -- intros [->|H]%elem_of_cons; [done|].
           revert H. apply IH, list_elem_of_here.
        -- apply IH. by apply list_elem_of_further.
Qed.

Lemma trimStart_suffix s : exists ws, s = ws ++ trimStart s.
Proof.
  induction s as [|c s [ws IH]]; simpl; [by exists []|].
  destruct (is_space c); [|by exists []].
  exists (c :: ws). simpl. by f_equal.
Qed.

(** A trimmed string is a part of the string. *)
Lemma trim_infix s : exists a b, s = a ++ trim s ++ b.
Proof.
  unfold trim, trimEnd.
  destruct (trimStart_suffix s) as [a Ha].
  destruct (trimStart_suffix (rev (trimStart s))) as [b Hb].
  exists a, (rev b). rewrite Ha at 1. f_equal.
  apply (f_equal (@rev char)) in Hb. rewrite rev_involutive, rev_app_distr in Hb.
  exact Hb.
Qed.

Lemma trimStart_head s : head (List.map is_space (trimStart s)) <> Some true.
Proof.
  induction s as [|c s IH]; simpl; [done|].
  destruct (is_space c) eqn:Hc; [done|]. simpl. by rewrite Hc.
Qed.

Lemma trimStart_fix s : head (List.map is_space s) <> Some true -> trimStart s = s.
Proof. destruct s as [|c s]; simpl; [done|]. destruct (is_space c); congruence. Qed.

Lemma head_app_l (a b : jstring) :
  head (List.map is_space (a ++ b)) <> Some true ->
  head (List.map is_space a) <> Some true.
Proof. destruct a; simpl; [done|auto]. Qed.

Lemma trim_idempotent s : trim (trim s) = trim s.
Proof.
  unfold trim, trimEnd.
  set (u := trimStart s). set (v := trimStart (rev u)).
  assert (Hu : head (List.map is_space u) <> Some true) by apply trimStart_head.
  assert (Hv : head (List.map is_space v) <> Some true) by apply trimStart_head.
  assert (Hrv : head (List.map is_space (rev v)) <> Some true).
  { destruct (trimStart_suffix (rev u)) as [ws Hws]. fold v in Hws.
    apply (f_equal (@rev char)) in Hws. rewrite rev_involutive, rev_app_distr in Hws.
    rewrite Hws in Hu. by apply head_app_l in Hu. }
  rewrite (trimStart_fix (rev v) Hrv), rev_involutive.
  by rewrite (trimStart_fix v Hv).
Qed.

Lemma elem_of_imap_inv {A B : Type} (f : nat -> A -> B) (l : list A) (y : B) :
  y ∈ imap f l -> exists i x, l !! i = Some x /\ y = f i x.
Proof.
  intros H. apply list_elem_of_lookup in H as [i Hi].
  rewrite list_lookup_imap in Hi.
  destruct (l !! i) as [x|] eqn:Hx; [|done].
  exists i, x. split; [done|]. simpl in Hi. congruence.
Qed.

(** X3: every entry the parser builds has a label that is not empty, is
    trimmed and holds no semicolon, and a value that is a valid internal name:
    not empty, made of [a-z0-9_], not starting with a digit; no entry is
    hidden. *)
Theorem parseOptions_entries_valid (s : jstring) (o : ChoiceOption) :
  o ∈ parseOptions (Some s) ->
  nonempty (label o) = true /\ trim (label o) = label o /\ (59 ∉ label o)
  /\ nonempty (value o) = true /\ all_name (value o)
  /\ starts_with_digit (value o) = false
  /\ hidden o = false.
Proof.
  rewrite parseOptions_imap. intros (i & l & Hl & ->)%elem_of_imap_inv. simpl.
  apply list_elem_of_lookup_2, list_elem_of_In, filter_In in Hl as [Hin Hne].
  apply in_map_iff in Hin as (piece & <- & Hin).
  split; [done|]. split; [apply trim_idempotent|]. split.
  - intros H. apply list_elem_of_In, (split_no_separator 59 s) in Hin. apply Hin.
    destruct (trim_infix piece) as (a & b & ->).
    rewrite !elem_of_app. auto.
  - destruct (option_value_valid i (trim piece)) as (? & ? & ?). done.
Qed.

Lemma parseOptions_entries_valid_witness :
  let o := mkChoiceOption (str "9 lives") (str "p_9_lives") 0 false in
  o ∈ parseOptions (Some (str " 9 lives; ;"))
  /\ all_name (value o) /\ starts_with_digit (value o) = false.
Proof.
  intros o.
  assert (Hin : o ∈ parseOptions (Some (str " 9 lives; ;"))).
  { vm_compute. apply list_elem_of_here. }
  split; [exact Hin|].
  destruct (parseOptions_entries_valid _ o Hin) as (_ & _ & _ & _ & Hn & Hd & _).
  by split.
Defined.

Lemma split_nonempty (d : char) (s : jstring) : split d s <> [].
Proof.
  destruct s as [|c s]; simpl; [done|].
  destruct (c =? d); [done|]. by destruct (split d s).
Qed.

Lemma split_app_separator (d : char) (a b : jstring) :
  split d (a ++ d :: b) = split d a ++ split d b.
Proof.
  induction a as [|c a IH]; simpl.
  - by rewrite N.eqb_refl.
  - destruct (c =? d); [by rewrite IH|]. rewrite IH.
    pose proof (split_nonempty d a). by destruct (split d a).
Qed.

Lemma map_label_imap (g : nat -> jstring -> ChoiceOption) (l : list jstring) :
  (forall i x, label (g i x) = x) -> List.map label (imap g l) = l.
Proof.
  revert g. induction l as [|x l IH]; intros g Hg; simpl; [done|].
  rewrite Hg. f_equal. apply (IH (fun i => g (S i))). intros i y. apply Hg.
Qed.

(** X4: the labels of two option lists joined by a semicolon are the labels
    of the first followed by the labels of the second. *)
Theorem parseOptions_concat (a b : jstring) :
  List.map label (parseOptions (Some (a ++ [59] ++ b)))
  = List.map label (parseOptions (Some a)) ++ List.map label (parseOptions (Some b)).
Proof.
  rewrite !parseOptions_imap, !map_label_imap by done. simpl.
  by rewrite split_app_separator, List.map_app, List.filter_app.
Qed.

(** ** The cursor paginator, continued *)

Lemma paginate_loop_endless (http : http_get) (token url key : jstring)
    (extra : list (jstring * json)) :
  (forall r, exists d, http r = Ok d /\ has_next d) ->
  forall fuel items after,
    fst (paginate_loop http token url key extra fuel items after) = OutOfFuel
    /\ length (snd (paginate_loop http token url key extra fuel items after)) = fuel.
Proof.
  intros Hall. induction fuel as [|n IH]; intros items after; [done|].
  rewrite paginate_loop_step.
  destruct (Hall (page_request token url extra after)) as (d & -> & Hnull & Hmore).
  destruct (batch_of_not_null d key Hnull) as [b ->]. rewrite Hmore. cbv zeta.
  match goal with |- context [paginate_loop http token url key extra n ?i ?a] =>
    specialize (IH i a); destruct (paginate_loop http token url key extra n i a) as [r log]
  end.
  simpl in *. destruct IH as [-> <-]. done.
Qed.

(** X5: the paginator has no page limit of its own: against a server whose
    every response carries a cursor it never returns; whatever the number of
    requests made so far, it makes one more. *)
Theorem paginateHubSpot_has_no_page_limit (http : http_get) (token url key : jstring)
    (extra : list (jstring * json)) :
  (forall r, exists d, http r = Ok d /\ has_next d) ->
  forall fuel,
    fst (paginateHubSpot http token url key extra fuel) = OutOfFuel
    /\ length (snd (paginateHubSpot http token url key extra fuel)) = fuel.
Proof. intros Hall fuel. by apply paginate_loop_endless. Qed.

Lemma paginateHubSpot_has_no_page_limit_witness :
  length (snd (paginateHubSpot endless_pages (str "t") (str "u") (str "results") [] 40))
  = 40%nat.
Proof.
  apply (paginateHubSpot_has_no_page_limit endless_pages).
  intros r. eexists. split; [reflexivity|]. split; [discriminate | reflexivity].
Defined.

Lemma paginate_loop_requests (http : http_get) (token url key : jstring)
    (extra : list (jstring * json)) (r : request) :
  forall fuel items after,
    r ∈ snd (paginate_loop http token url key extra fuel items after) ->
    exists a, r = page_request token url extra a.
Proof.
  induction fuel as [|n IH]; intros items after Hr; [by apply elem_of_nil in Hr|].
  rewrite paginate_loop_step in Hr.
  assert (Hone : r ∈ [page_request token url extra after] ->
                 exists a, r = page_request token url extra a).
  { intros ->%list_elem_of_singleton. by eexists. }
  destruct (http _) as [d| |]; [|by apply Hone..].
  destruct (batch_of d key) as [b| |]; [|by apply Hone..].
  cbv zeta in Hr. destruct (truthy (next_cursor d)); [|by apply Hone].
  match type of Hr with context [paginate_loop http token url key extra n ?i ?a] =>
    specialize (IH i a); destruct (paginate_loop http token url key extra n i a) as [res log]
  end.
  simpl in *. apply elem_of_cons in Hr as [->|Hr]; [by eexists | by apply IH].
Qed.

(** X6: whatever the server answers, every request of the paginator goes to
    the URL it was given and carries the bearer token; the server cannot
    redirect it.  Its parameters are the page parameters for some cursor,
    and the first request carries no cursor of the paginator's own. *)
Theorem paginateHubSpot_requests (http : http_get) (token url0 key : jstring)
    (extra : list (jstring * json)) (fuel : nat) :
  (forall r, r ∈ snd (paginateHubSpot http token url0 key extra fuel) ->
     url r = url0 /\ authorization r = str "Bearer " ++ token
     /\ exists a, params r = page_params extra a)
  /\ (forall r, head (snd (paginateHubSpot http token url0 key extra fuel)) = Some r ->
        params r = spread extra [(str "limit", JNum (str "100"))]).
Proof.
  split.
  - intros r Hr. apply paginate_loop_requests in Hr as [a ->].
    split; [done|]. split; [done|]. by exists a.
  - intros r. unfold paginateHubSpot. destruct fuel as [|n]; [done|].
    rewrite paginate_loop_step.
    assert (Hone : forall log, head (page_request token url0 extra JNull :: log) = Some r ->
                               params r = spread extra [(str "limit", JNum (str "100"))]).
    { intros log [= <-]. reflexivity. }
    destruct (http _) as [d| |]; [|by apply Hone..].
    destruct (batch_of d key) as [b| |]; [|by apply Hone..].
    cbv zeta. destruct (truthy (next_cursor d)); [|by apply Hone].
    match goal with |- context [paginate_loop http token url0 key extra n ?i ?a] =>
      destruct (paginate_loop http token url0 key extra n i a) as [res log]
    end.
    apply Hone.
Qed.

Lemma paginateHubSpot_requests_witness :
  Forall (fun r => url r = str "u")
         (snd (paginateHubSpot three_pages (str "t") (str "u") (str "results") [] 3)).
Proof.
  apply Forall_forall. intros r Hr.
  by destruct (proj1 (paginateHubSpot_requests three_pages (str "t") (str "u")
                        (str "results") [] 3) r Hr) as [H _].
Defined.

(** ** The matcher and the words of an expression *)

Lemma star_runs_sound (p : char -> bool) (s s' : jstring) :
  In s' (star_runs p s) -> exists w, s = w ++ s' /\ forallb p w = true.
Proof.
  revert s'. induction s as [|c s IH]; simpl; intros s' H.
  - destruct H as [<-|[]]. by exists [].
  - destruct (p c) eqn:Hc.
    + apply in_app_iff in H as [H|[<-|[]]]; [|by exists []].
      destruct (IH _ H) as (w & -> & Hw). exists (c :: w). simpl. by rewrite Hc.
    + destruct H as [<-|[]]. by exists [].
Qed.

Lemma star_runs_complete (p : char -> bool) (w s' : jstring) :
  forallb p w = true -> In s' (star_runs p (w ++ s')).
Proof.
  induction w as [|c w IH]; simpl.
  - intros _. destruct s' as [|d s']; simpl; [by left|].
    destruct (p d); [apply in_app_iff; right|]; by left.
  - intros [Hc Hw]%andb_true_iff. rewrite Hc. apply in_app_iff. left. by apply IH.
Qed.

(** Every way the matcher finds takes a word of the expression off the
    front of the text. *)
Lemma run_sound (r : regex) :
  forall s s', In s' (run r s) -> exists w, s = w ++ s' /\ matches r w.
Proof.
  induction r as [c|p|p|p|r IH|r1 IH1 r2 IH2]; simpl; intros s s' H.
  - destruct s as [|d s]; [done|]. destruct (N.eqb_spec d c) as [->|]; [|done].
    destruct H as [<-|[]]. exists [c]. split; [done | constructor].
  - destruct s as [|d s]; [done|]. destruct (p d) eqn:Hd; [|done].
    destruct H as [<-|[]]. exists [d]. split; [done | by constructor].
  - apply star_runs_sound in H as (w & -> & Hw). exists w. split; [done | by constructor].
  - destruct s as [|d s]; [done|]. destruct (p d) eqn:Hd; [|done].
    apply star_runs_sound in H as (w & -> & Hw).
    exists (d :: w). split; [done | by constructor].
  - apply in_app_iff in H as [H|[<-|[]]].
    + destruct (IH _ _ H) as (w & -> & Hw). exists w. split; [done | by constructor].
    + exists []. split; [done | apply matches_opt_none].
  - apply in_flat_map in H as (s1 & H1 & H2).
    destruct (IH1 _ _ H1) as (w1 & -> & Hw1). destruct (IH2 _ _ H2) as (w2 & -> & Hw2).
    exists (w1 ++ w2). split; [by rewrite app_assoc | by constructor].
Qed.

(** Every word of the expression at the front of the text is one of the
    ways the matcher finds. *)
Lemma run_complete (r : regex) (w : jstring) :
  matches r w -> forall s', In s' (run r (w ++ s')).
Proof.
  induction 1 as [c|p c Hc|p w Hw|p c w Hc Hw|r w _ IH|r|r1 r2 w1 w2 _ IH1 _ IH2];
    intros s'; simpl.
  - rewrite N.eqb_refl. by left.
  - rewrite Hc. by left.
  - by apply star_runs_complete.
  - rewrite Hc. by apply star_runs_complete.
  - apply in_app_iff. left. apply IH.
  - apply in_app_iff. right. by left.
  - apply in_flat_map. exists (w2 ++ s'). split; [|apply IH2].
    rewrite <- app_assoc. apply IH1.
Qed.

Lemma head_In {A : Type} (l : list A) (x : A) : head l = Some x -> In x l.
Proof. destruct l; simpl; [done|]. intros [= ->]. by left. Qed.

(** A match at the start of the text: a word of the part before the group,
    the group, a word of the part after it, and the remainder. *)
Lemma match_at_sound (r : cregex) (s v rest : jstring) :
  match_at r s = Some (v, rest) ->
  exists w1 w3, s = w1 ++ v ++ w3 ++ rest
    /\ matches (before r) w1 /\ matches (group r) v /\ matches (after r) w3.
Proof.
  unfold match_at. intros H%head_In.
  apply in_flat_map in H as (s1 & H1 & H). apply in_flat_map in H as (s2 & H2 & H).
  apply in_map_iff in H as (s3 & [= <- <-] & H3).
  apply run_sound in H1 as (w1 & -> & Hw1). apply run_sound in H2 as (w2 & -> & Hw2).
  apply run_sound in H3 as (w3 & -> & Hw3).
  exists w1, w3. rewrite take_consumed. done.
Qed.

(** When the text starts with words of the three parts, a match is found. *)
Lemma match_at_complete (r : cregex) (w1 v w3 rest : jstring) :
  matches (before r) w1 -> matches (group r) v -> matches (after r) w3 ->
  exists v' rest', match_at r (w1 ++ v ++ w3 ++ rest) = Some (v', rest').
Proof.
  intros H1 H2 H3. unfold match_at.
  match goal with |- context [head ?l] =>
    assert (Hin : In (v, rest) l); [|destruct l as [|[v' rest'] l']; [done | by eexists _, _]]
  end.
  apply in_flat_map. exists (v ++ w3 ++ rest). split; [by apply run_complete|].
  apply in_flat_map. exists (w3 ++ rest). split; [by apply run_complete|].
  apply in_map_iff. exists rest. split; [|by apply run_complete].
  by rewrite take_consumed.
Qed.

Lemma matches_lits (cs : jstring) (k : regex) (w : jstring) :
  matches (lits cs k) w <-> exists w', w = cs ++ w' /\ matches k w'.
Proof.
  revert w. induction cs as [|c cs IH]; intros w; simpl.
  - split; [by exists w | by intros (w' & -> & H)].
  - split.
    + intros H. inversion H as [| | | | | |? ? w1 w2 H1 H2]; subst.
      inversion H1; subst. apply IH in H2 as (w' & -> & Hk). by exists w'.
    + intros (w' & -> & Hk). apply (matches_seq (Lit c) _ [c]); [constructor|].
      apply IH. by exists w'.
Qed.

Ltac invert_matches :=
  repeat match goal with
         | H : matches (lits _ _) _ |- _ => apply matches_lits in H as (? & -> & H)
         | H : matches (Seq _ _) _ |- _ => inversion H; subst; clear H
         | H : matches (Lit _) _ |- _ => inversion H; subst; clear H
         | H : matches (Cls _) _ |- _ => inversion H; subst; clear H
         | H : matches (Star _) _ |- _ => inversion H; subst; clear H
         | H : matches (Opt _) _ |- _ => inversion H; subst; clear H
         end.

(** ** The structural scan *)

Lemma either_char (c a b : char) : (c =? a) || (c =? b) = true -> c = a \/ c = b.
Proof. intros [H|H]%orb_true_iff; apply N.eqb_eq in H; auto. Qed.

Lemma match_at_key_sound (s v rest : jstring) :
  match_at propRe s = Some (v, rest) -> key_at v rest s.
Proof.
  intros (w1 & w3 & -> & H1 & H2 & H3)%match_at_sound.
  unfold propRe in *. cbn [before group after] in *.
  invert_matches;
    match goal with
    | |- key_at _ _ (([34] ++ ?l ++ [?p] ++ _ ++ _ ++ _ ++ _ ++ _ ++ _ ++ _ ++ ?opt
                       ++ [34] ++ ?a ++ [58] ++ ?b ++ [34]) ++ _) =>
        exists l, ([p] ++ str "roperty" ++ opt), a, b
    end.
  all: repeat match goal with
              | H : (_ =? _) || (_ =? _) = true |- _ => apply either_char in H as [->| ->]
              end.
  all: split; [by rewrite <- !app_assoc|].
  all: split; [done|]; split; [apply list_elem_of_In; vm_compute; tauto|].
  all: split; [done|]; split; [done|].
  all: simpl; apply andb_true_iff; by split.
Qed.

Lemma match_at_key_head (c : char) (s : jstring) :
  c <> 34 -> match_at propRe (c :: s) = None.
Proof.
  intros Hc. destruct (match_at propRe (c :: s)) as [[v rest]|] eqn:Hm; [|done].
  apply match_at_key_sound in Hm as (l & kw & a & b & Heq & _).
  simpl in Heq. congruence.
Qed.

(** X7: whatever the text, the structural scan returns only values of quoted
    keys made of letters ending in a key word, each of the identifier shape
    (a small letter, then small letters, digits and underscores), and it
    returns no value twice. *)
Theorem extractPropNamesFromJson_sound (text : jstring) :
  (forall v, v ∈ extractPropNamesFromJson text ->
     key_occurs v text /\ ident_shape v = true)
  /\ NoDup (extractPropNamesFromJson text).
Proof.
  split.
  - intros v Hv. unfold extractPropNamesFromJson in Hv.
    apply elem_of_set_add_all in Hv as [Hv|Hv]; [by apply elem_of_nil in Hv|].
    apply (exec_all_sound propRe key_at match_at_key_sound) in Hv
      as (pre & rest & s' & -> & Hk).
    split; [by exists pre, rest, s'|].
    by destruct Hk as (? & ? & ? & ? & _ & _ & _ & _ & _ & ?).
  - apply NoDup_set_add_all. constructor.
Qed.

Lemma extractPropNamesFromJson_sound_witness :
  ident_shape (str "lead_status") = true.
Proof.
  apply (proj1 (extractPropNamesFromJson_sound
                  (stringify (JObj [(str "filterProperty", JStr (str "lead_status"))])))).
  vm_compute. apply list_elem_of_here.
Defined.

Lemma forallb_app_inv {A : Type} (p : A -> bool) (a b : list A) :
  forallb p (a ++ b) = true -> forallb p a = true /\ forallb p b = true.
Proof. rewrite forallb_app. apply andb_true_iff. Qed.

(** A run over a class that is followed by a character outside the class
    ends at one place only. *)
Lemma run_unique (p : char -> bool) (w w' t t' : jstring) (c : char) :
  forallb p w = true -> forallb p w' = true -> p c = false ->
  w ++ c :: t = w' ++ c :: t' -> w = w' /\ t = t'.
Proof.
  revert w'. induction w as [|x w IH]; intros [|x' w']; simpl; intros Hw Hw' Hc Heq.
  - by injection Heq as ->.
  - injection Heq as <- _. apply andb_true_iff in Hw' as [? _]. congruence.
  - injection Heq as -> _. apply andb_true_iff in Hw as [? _]. congruence.
  - injection Heq as <- Heq. apply andb_true_iff in Hw as [_ Hw].
    apply andb_true_iff in Hw' as [_ Hw'].
    destruct (IH w' Hw Hw' Hc Heq) as [-> ->]. done.
Qed.

Lemma key_word_letters (kw : jstring) : kw ∈ key_words -> forallb is_letter kw = true.
Proof.
  intros H. apply list_elem_of_In in H. vm_compute in H.
  repeat destruct H as [<-|H]; try reflexivity. done.
Qed.

Lemma ident_shape_name (v : jstring) : ident_shape v = true -> forallb is_name_char v = true.
Proof.
  destruct v as [|c v]; simpl; [done|]. intros [Hc Hv]%andb_true_iff.
  rewrite Hv, andb_true_r. revert Hc. class_cases.
Qed.

(** A key at the start of a text has one value and one remainder. *)
Lemma key_at_unique (s v rest v' rest' : jstring) :
  key_at v rest s -> key_at v' rest' s -> v = v' /\ rest = rest'.
Proof.
  intros (l & kw & a & b & -> & Hl & Hkw & Ha & Hb & Hv)
         (l' & kw' & a' & b' & Heq & Hl' & Hkw' & Ha' & Hb' & Hv').
  apply key_word_letters in Hkw, Hkw'. apply ident_shape_name in Hv, Hv'.
  simpl in Heq. injection Heq as Heq.
  rewrite (app_assoc l kw), (app_assoc l' kw') in Heq.
  apply (run_unique is_letter) in Heq as [_ Heq];
    [|by rewrite forallb_app, Hl, Hkw|by rewrite forallb_app, Hl', Hkw'|done].
  apply (run_unique is_space) in Heq as [_ Heq]; [|done..].
  apply (run_unique is_space) in Heq as [_ Heq]; [|done..].
  by apply (run_unique is_name_char) in Heq as [-> ->].
Qed.

(** Appends to the right, literals to conses. *)
Ltac app_norm := repeat first [rewrite <- app_assoc | progress simpl].

Lemma matches_seq_eq (r1 r2 : regex) (w1 w2 w : jstring) :
  w = w1 ++ w2 -> matches r1 w1 -> matches r2 w2 -> matches (Seq r1 r2) w.
Proof. intros ->. apply matches_seq. Qed.

Lemma key_word_parts (kw : jstring) :
  kw ∈ key_words ->
  exists p opt, kw = p :: str "roperty" ++ opt /\ (p = 80 \/ p = 112)
    /\ (opt = [] \/ exists n, (n = 78 \/ n = 110) /\ opt = n :: str "ame").
Proof.
  intros H. apply list_elem_of_In in H. vm_compute in H.
  repeat destruct H as [<-|H]; try done.
  - exists 80, []. auto.
  - exists 112, []. auto.
  - exists 80, (78 :: str "ame"). split; [done|]. split; [auto|]. right. exists 78. auto.
  - exists 80, (110 :: str "ame"). split; [done|]. split; [auto|]. right. exists 110. auto.
  - exists 112, (78 :: str "ame"). split; [done|]. split; [auto|]. right. exists 78. auto.
  - exists 112, (110 :: str "ame"). split; [done|]. split; [auto|]. right. exists 110. auto.
Qed.

Lemma matches_key (l kw a b : jstring) :
  forallb is_letter l = true -> kw ∈ key_words ->
  forallb is_space a = true -> forallb is_space b = true ->
  matches (before propRe) ([34] ++ l ++ kw ++ [34] ++ a ++ [58] ++ b ++ [34]).
Proof.
  intros Hl Hkw Ha Hb. unfold propRe. cbn [before].
  apply (matches_seq (Lit 34) _ [34]); [constructor|].
  apply (matches_seq (Star is_letter) _ l); [by constructor|].
  assert (Htail : matches (Seq (Lit 34) (Seq (Star is_space) (Seq (Lit 58)
                             (Seq (Star is_space) (Lit 34)))))
                          ([34] ++ a ++ [58] ++ b ++ [34])).
  { apply matches_seq; [constructor|]. apply matches_seq; [by constructor|].
    apply matches_seq; [constructor|]. apply matches_seq; [by constructor|constructor]. }
  set (tail := [34] ++ a ++ [58] ++ b ++ [34]) in *. clearbody tail.
  destruct (key_word_parts kw Hkw) as (p & opt & -> & Hp & Hopt).
  apply (matches_seq_eq _ _ [p] (str "roperty" ++ opt ++ tail)).
  { simpl. by rewrite <- ?app_assoc. }
  { constructor. by destruct Hp as [-> | ->]. }
  apply matches_lits. exists (opt ++ tail). split; [done|].
  apply matches_seq; [|done].
  destruct Hopt as [->|(n & Hn & ->)]; [apply matches_opt_none|].
  apply matches_opt_some. apply (matches_seq_eq _ _ [n] (str "ame")); [done| |].
  { constructor. by destruct Hn as [-> | ->]. }
  apply matches_lits. exists [101]. split; [done | constructor].
Qed.

Lemma matches_ident (v : jstring) :
  ident_shape v = true -> matches (group propRe) v.
Proof.
  destruct v as [|c v]; simpl; [done|]. intros [Hc Hv]%andb_true_iff.
  apply (matches_seq_eq _ _ [c] v); [done|by constructor|by constructor].
Qed.

(** The matcher finds the key that starts the text. *)
Lemma match_at_key_found (s v rest : jstring) :
  key_at v rest s -> match_at propRe s = Some (v, rest).
Proof.
  intros Hk. pose proof Hk as (l & kw & a & b & -> & Hl & Hkw & Ha & Hb & Hv).
  destruct (match_at_complete propRe _ v [34] rest
              (matches_key l kw a b Hl Hkw Ha Hb) (matches_ident v Hv))
    as (v' & rest' & Hm); [constructor|].
  assert (Heq : ([34] ++ l ++ kw ++ [34] ++ a ++ [58] ++ b ++ [34]) ++ v ++ [34] ++ rest
                = [34] ++ l ++ kw ++ [34] ++ a ++ [58] ++ b ++ [34] ++ v ++ [34] ++ rest).
  { by app_norm. }
  pose proof (eq_trans (f_equal (match_at propRe) (eq_sym Heq)) Hm) as Hm'.
  destruct (key_at_unique _ _ _ _ _ (match_at_key_sound _ _ _ Hm') Hk) as [-> ->].
  exact Hm'.
Qed.

(** After a match the loop resumes behind it. *)
Lemma exec_all_skip (r : cregex) (a b : jstring) :
  exec_all r (length a) (a ++ b) = exec_all r 0 b.
Proof. induction a as [|c a IH]; simpl; [done | exact IH]. Qed.

Lemma plain_escape (c : char) :
  plain_unit c = true -> escape_unit c = [c] /\ is_lead_surrogate c = false.
Proof.
  unfold plain_unit. intros H.
  repeat match type of H with
         | _ && _ = true => let H' := fresh "H" in apply andb_true_iff in H as [H H']
         end.
  apply negb_true_iff in H0, H1, H2, H3. apply N.leb_le in H.
  split; [|done]. unfold escape_unit. rewrite H1, H2, H3, H0.
  repeat match goal with
         | |- context [N.eqb c ?n] => destruct (N.eqb_spec c n); [lia|]
         end.
  destruct (N.ltb_spec c 32); [lia|]. done.
Qed.

Lemma quote_body_plain (s : jstring) : forallb plain_unit s = true -> quote_body s = s.
Proof.
  induction s as [|c s IH]; simpl; [done|]. intros [Hc Hs]%andb_true_iff.
  destruct (plain_escape c Hc) as [-> ->]. by rewrite (IH Hs).
Qed.

Lemma letter_plain (c : char) : is_letter c = true -> plain_unit c = true.
Proof.
  unfold plain_unit, is_lead_surrogate, is_trail_surrogate. class_cases.
Qed.

Lemma name_char_plain (c : char) : is_name_char c = true -> plain_unit c = true.
Proof.
  unfold plain_unit, is_lead_surrogate, is_trail_surrogate. class_cases.
Qed.

Lemma forallb_impl {A : Type} (p q : A -> bool) (l : list A) :
  (forall x, p x = true -> q x = true) -> forallb p l = true -> forallb q l = true.
Proof.
  intros Hpq. induction l as [|x l IH]; simpl; [done|].
  intros [Hx Hl]%andb_true_iff. by rewrite (Hpq x Hx), (IH Hl).
Qed.

(** X8: an object with one property whose key is made of letters and ends in
    a key word, and whose value is a string of the identifier shape, gives
    exactly that value. *)
Theorem extractPropNamesFromJson_single_key (letters kw v : jstring) :
  forallb is_letter letters = true -> kw ∈ key_words -> ident_shape v = true ->
  extractPropNamesFromJson (stringify (JObj [(letters ++ kw, JStr v)])) = [v].
Proof.
  intros Hl Hkw Hv.
  assert (Hkey : quote_body (letters ++ kw) = letters ++ kw).
  { apply quote_body_plain. rewrite forallb_app.
    rewrite (forallb_impl _ _ _ letter_plain Hl).
    by rewrite (forallb_impl _ _ _ letter_plain (key_word_letters kw Hkw)). }
  assert (Hval : quote_body v = v).
  { apply quote_body_plain, (forallb_impl _ _ _ name_char_plain), ident_shape_name, Hv. }
  assert (Htext : stringify (JObj [(letters ++ kw, JStr v)])
                  = 123 :: ([34] ++ letters ++ kw ++ [34] ++ [] ++ [58] ++ [] ++ [34]
                            ++ v ++ [34] ++ [125])).
  { simpl. unfold quote. rewrite Hkey, Hval. by app_norm. }
  rewrite Htext. clear Htext Hkey Hval.
  assert (Hk : key_at v [125] ([34] ++ letters ++ kw ++ [34] ++ [] ++ [58] ++ [] ++ [34]
                               ++ v ++ [34] ++ [125])).
  { by exists letters, kw, [], []. }
  apply match_at_key_found in Hk.
  unfold extractPropNamesFromJson.
  set (s1 := [34] ++ letters ++ kw ++ [34] ++ [] ++ [58] ++ [] ++ [34] ++ v ++ [34] ++ [125])
    in *.
  assert (Hs1 : exists a, s1 = 34 :: a ++ [125]).
  { exists (letters ++ kw ++ [34] ++ [58] ++ [34] ++ v ++ [34]). subst s1.
    by app_norm. }
  destruct Hs1 as [a Hs1]. clearbody s1. subst s1.
  change (exec_all propRe 0 (123 :: 34 :: a ++ [125]))
    with (match match_at propRe (123 :: 34 :: a ++ [125]) with
          | Some (m1, rest) =>
              m1 :: exec_all propRe (length (123 :: 34 :: a ++ [125]) - length rest - 1)
                             (34 :: a ++ [125])
          | None => exec_all propRe 0 (34 :: a ++ [125])
          end).
  rewrite match_at_key_head by done.
  change (exec_all propRe 0 (34 :: a ++ [125]))
    with (match match_at propRe (34 :: a ++ [125]) with
          | Some (m1, rest) =>
              m1 :: exec_all propRe (length (34 :: a ++ [125]) - length rest - 1)
                             (a ++ [125])
          | None => exec_all propRe 0 (a ++ [125])
          end).
  rewrite Hk.
  match goal with |- context [exec_all propRe ?n (a ++ _)] =>
    replace n with (length a) by (simpl; rewrite length_app; simpl; lia)
  end.
  rewrite exec_all_skip.
  change (exec_all propRe 0 [125])
    with (match match_at propRe [125] with
          | Some (m1, rest) => m1 :: exec_all propRe (length [125] - length rest - 1) []
          | None => exec_all propRe 0 []
          end).
  rewrite match_at_key_head by done. reflexivity.
Qed.

Lemma extractPropNamesFromJson_single_key_witness :
  extractPropNamesFromJson
    (stringify (JObj [(str "fromPropertyName", JStr (str "deal_stage_2"))]))
  = [str "deal_stage_2"].
Proof.
  apply (extractPropNamesFromJson_single_key (str "from") (str "PropertyName")
           (str "deal_stage_2")).
  - reflexivity.
  - vm_compute. repeat constructor.
  - reflexivity.
Defined.

(** ** The usage scan: warnings *)

Lemma silent_paginate http fuel token url key extra :
  silent (paginate http fuel token url key extra).
Proof. intros st. unfold paginate. by destruct (paginateHubSpot _ _ _ _ _ _). Qed.

Lemma silent_axios_get http r : silent (axios_get http r).
Proof. by intros st. Qed.

Lemma silent_lift {A : Type} (m : outcome A) : silent (lift m).
Proof. by intros st. Qed.

Lemma silent_ret {A : Type} (a : A) : silent (ret a).
Proof. by intros st. Qed.

Lemma silent_set_count k n : silent (set_count k n).
Proof. by intros st. Qed.

Lemma silent_add_count k n : silent (add_count k n).
Proof. by intros st. Qed.

Create HintDb silent.

#[local] Hint Resolve silent_paginate silent_axios_get silent_lift silent_ret
  silent_set_count silent_add_count silent_scan_items : silent.

Ltac silent_tac :=
  repeat first
    [ solve [eauto with silent]
    | apply silent_bind
    | progress intros
    | match goal with |- silent (let '(_, _) := ?x in _) => destruct x end
    | match goal with |- silent (if ?b then _ else _) => destruct b end ].

Lemma warns_nil {A : Type} (m : stm A) : silent m -> warns [] m.
Proof.
  intros Hm st. exists [], []. split; [done|]. split; [constructor|].
  by rewrite Hm, app_nil_r.
Qed.

Lemma warns_bind {A B : Type} l1 l2 (m : stm A) (f : A -> stm B) :
  warns l1 m -> (forall a, warns l2 (f a)) -> warns (l1 ++ l2) (bind_stm m f).
Proof.
  intros Hm Hf st. unfold bind_stm.
  destruct (Hm st) as (p1 & w1 & Hs1 & Hf1 & Hw1).
  destruct (m st) as [[a| |] st'] eqn:Hr; simpl in *.
  - destruct (Hf a st') as (p2 & w2 & Hs2 & Hf2 & Hw2).
    exists (p1 ++ p2), (w1 ++ w2). split; [by apply sublist_app|].
    split; [by apply Forall2_app|]. by rewrite Hw2, Hw1, app_assoc.
  - exists p1, w1. split; [by apply sublist_inserts_r|]. done.
  - exists p1, w1. split; [by apply sublist_inserts_r|]. done.
Qed.

(** A block [try { body } catch (err) { warnings.push(...) }] whose body
    pushes no warning pushes at most the warning of its label. *)
Lemma warns_block (label : String.string) (body : stm unit) :
  silent body -> warns [str label] (try_catch body (push_warning label)).
Proof.
  intros Hb st. unfold try_catch. specialize (Hb st).
  destruct (body st) as [[[]|e|] st'] eqn:Hr; simpl in *.
  - exists [], []. split; [apply sublist_nil_l|]. split; [constructor|].
    by rewrite Hb, app_nil_r.
  - unfold push_warning, bind_stm, lift.
    destruct (to_string (error_text e)) as [text| |]; simpl.
    + exists [str label], [str label ++ str ": " ++ text].
      split; [done|]. split; [|by rewrite Hb].
      constructor; [by exists text | constructor].
    + exists [], []. split; [apply sublist_nil_l|]. split; [constructor|].
      by rewrite Hb, app_nil_r.
    + exists [], []. split; [apply sublist_nil_l|]. split; [constructor|].
      by rewrite Hb, app_nil_r.
  - exists [], []. split; [apply sublist_nil_l|]. split; [constructor|].
    by rewrite Hb, app_nil_r.
Qed.

(** X9: whatever the API answers, the warnings of a scan are at most one for
    each source, in the order Workflows, Forms, Lists, Pipelines, Marketing
    emails, Reports, and each is the label of its source, a colon and a
    text. *)
Theorem fetch_usage_context_warnings (http : http_get) (fuel : nat) (token : jstring) :
  exists picked,
    sublist picked source_labels
    /\ Forall2 warning_of picked (warnings (snd (fetch_usage_context http fuel token))).
Proof.
  assert (H : warns source_labels
                (do* _ := workflows_block http fuel token in
                 do* _ := forms_block http fuel token in
                 do* _ := lists_block http fuel token in
                 do* _ := pipelines_block http token in
                 do* _ := emails_block http fuel token in
                 reports_block http token)).
  { change source_labels
      with ([str "Workflows"] ++ [str "Forms"] ++ [str "Lists"] ++ [str "Pipelines"]
            ++ [str "Marketing emails"] ++ [str "Reports"]).
    repeat (apply warns_bind; [|intros _]).
    all: apply warns_block.
    all: unfold pipelines_of; silent_tac. }
  destruct (H initial_state) as (picked & ws & Hs & Hf & Hw).
  exists picked. split; [done|]. unfold fetch_usage_context. by rewrite Hw.
Qed.

(** ** The usage scan: no failure escapes *)

Lemma internal_printable e : internal e -> printable e.
Proof. unfold internal, printable, error_text. intros ->. by eexists. Qed.

Lemma raises_internal_bind {A B : Type} (m : outcome A) (k : A -> outcome B) :
  raises_internal m -> (forall a, raises_internal (k a)) -> raises_internal (bind m k).
Proof.
  intros Hm Hk e. destruct m as [a|e'|]; simpl; [apply Hk| |done].
  intros [= ->]. by apply Hm.
Qed.

Lemma raises_internal_for_each {A S : Type} (xs : list A) (body : A -> S -> outcome S) :
  (forall x st, raises_internal (body x st)) ->
  forall st, raises_internal (for_each xs body st).
Proof.
  intros Hb. induction xs as [|x xs IH]; intros st; simpl; [by intros e|].
  apply raises_internal_bind; [apply Hb | apply IH].
Qed.

Lemma raises_internal_ok {A : Type} (a : A) : raises_internal (Ok a).
Proof. by intros e. Qed.

Lemma raises_internal_get v k : raises_internal (get v k).
Proof. intros e. destruct v; simpl; try done. by intros [= <-]. Qed.

Lemma raises_internal_iterate v : raises_internal (iterate_or_empty v).
Proof.
  intros e. unfold iterate_or_empty. destruct v as [x|]; [|done].
  destruct (negb (truthy x)); [done|]. destruct x; try done; by intros [= <-].
Qed.

Lemma to_string_internal_le (n : nat) :
  forall v, (json_depth v <= n)%nat -> raises_internal (to_string v).
Proof.
  induction n as [|n IH]; intros v Hd.
  - destruct v as [| [] | | | |props]; simpl in *; try (by intros e); try lia.
  - destruct v as [| [] | | |items|props]; simpl; try (by intros e).
    + assert (Hitems : forall x, In x items -> raises_internal (to_string x)).
      { intros x Hx. apply IH. pose proof (depth_elem x items Hx). lia. }
      clear Hd. induction items as [|x l IHl]; [by intros e|].
      apply raises_internal_bind.
      * destruct x; try apply raises_internal_ok; apply Hitems; by left.
      * intros sx. destruct l as [|y l']; [apply raises_internal_ok|].
        apply raises_internal_bind; [|intros; apply raises_internal_ok].
        apply IHl. intros z Hz. apply Hitems. by right.
    + destruct (has_own "toString" props); [|by intros e]. by intros e [= <-].
Qed.

Lemma raises_internal_to_string v : raises_internal (to_string v).
Proof. by apply (to_string_internal_le (json_depth v)). Qed.

Lemma raises_internal_first_truthy item k1 k2 fb :
  raises_internal (first_truthy item k1 k2 fb).
Proof.
  unfold first_truthy. apply raises_internal_bind; [apply raises_internal_get|].
  intros a. destruct (truthy_value a); [apply raises_internal_ok|].
  apply raises_internal_bind; [apply raises_internal_get|].
  intros b. destruct (truthy_value b); apply raises_internal_ok.
Qed.

Lemma raises_internal_workflow_name wf : raises_internal (workflow_name wf).
Proof.
  unfold workflow_name. apply raises_internal_bind; [apply raises_internal_get|].
  intros a. destruct (truthy_value a); [apply raises_internal_ok|].
  apply raises_internal_bind; [apply raises_internal_get|].
  intros b. apply raises_internal_bind; [|intros; apply raises_internal_ok].
  destruct (truthy_value b); [apply raises_internal_to_string | apply raises_internal_ok].
Qed.

Lemma raises_internal_scanFields (n : nat) :
  forall fields names, raises_internal (scanFields n fields names).
Proof.
  induction n as [|n IH]; intros fields names; [by intros e|]. simpl.
  apply raises_internal_bind; [apply raises_internal_iterate|]. intros fl.
  apply raises_internal_for_each. intros field acc. unfold scanField.
  apply raises_internal_bind; [apply raises_internal_get|]. intros nm.
  apply raises_internal_bind; [apply raises_internal_get|]. intros deps.
  apply raises_internal_bind; [apply raises_internal_iterate|]. intros dl.
  apply raises_internal_for_each. intros dep acc1. unfold scanDep.
  apply raises_internal_bind; [apply raises_internal_get|]. intros filters.
  apply raises_internal_bind; [apply raises_internal_iterate|]. intros fl1.
  apply raises_internal_bind.
  - apply raises_internal_for_each. intros filter acc2. unfold scanFilter.
    apply raises_internal_bind; [apply raises_internal_get|]. intros dff.
    destruct dff as [f|]; [|apply raises_internal_ok].
    destruct (truthy f); [apply IH | apply raises_internal_ok].
  - intros names1. apply raises_internal_bind; [apply raises_internal_get|].
    intros fs. apply IH.
Qed.

(** The form walk throws nothing but errors of the code itself. *)
Lemma raises_internal_extractFormProps form : raises_internal (extractFormProps form).
Proof.
  unfold extractFormProps.
  apply raises_internal_bind; [apply raises_internal_get|]. intros groups.
  apply raises_internal_bind; [apply raises_internal_iterate|]. intros gl.
  apply raises_internal_bind.
  - apply raises_internal_for_each. intros group names.
    apply raises_internal_bind; [apply raises_internal_get|]. intros fs.
    apply raises_internal_scanFields.
  - intros names1. apply raises_internal_bind; [apply raises_internal_get|].
    intros legacy. destruct legacy as [[| | | |l|]|]; try apply raises_internal_ok.
    destruct l as [|[| | | |r|] l']; try apply raises_internal_scanFields.
    apply raises_internal_for_each. intros row names. apply raises_internal_scanFields.
Qed.

Lemma raises_internal_batch_of data key : raises_internal (batch_of data key).
Proof.
  intros e. unfold batch_of.
  destruct data as [| | | |items|props]; try done.
  - by intros [= <-].
  - destruct (array_index key) as [i|]; [|done]. by destruct (items !! i) as [[]|].
  - by destruct (lookup_prop key props) as [[]|].
Qed.

(** What the paginator throws is the failure of one of its requests or an
    error of the code itself. *)
Lemma paginate_loop_throws http token url key extra e :
  forall fuel items after,
    fst (paginate_loop http token url key extra fuel items after) = Throw e ->
    (exists r, http r = Throw e) \/ internal e.
Proof.
  induction fuel as [|n IH]; intros items after; [done|].
  rewrite paginate_loop_step.
  destruct (http _) as [d|e'|] eqn:Hh; simpl; [| intros [= ->]; left; by eexists | done].
  pose proof (raises_internal_batch_of d key) as Hb.
  destruct (batch_of d key) as [b|e'|]; simpl; [| intros [= ->]; right; by apply Hb | done].
  cbv zeta. destruct (truthy (next_cursor d)); [|done].
  match goal with |- context [paginate_loop http token url key extra n ?i ?a] =>
    specialize (IH i a); destruct (paginate_loop http token url key extra n i a) as [res log]
  end.
  exact IH.
Qed.

Section Printable.
Variable http : http_get.
Hypothesis http_printable : printable_failures http.

Lemma throws_printable_lift {A : Type} (m : outcome A) :
  raises_internal m -> throws_printable (lift m).
Proof. intros Hm st e H. apply internal_printable, Hm, H. Qed.

Lemma throws_printable_quiet {A : Type} (m : stm A) :
  (forall st, exists a, fst (m st) = Ok a) -> throws_printable m.
Proof. intros Hm st e H. destruct (Hm st) as [a Ha]. congruence. Qed.

Lemma throws_printable_bind {A B : Type} (m : stm A) (f : A -> stm B) :
  throws_printable m -> (forall a, throws_printable (f a)) ->
  throws_printable (bind_stm m f).
Proof.
  intros Hm Hf st e. unfold bind_stm. specialize (Hm st).
  destruct (m st) as [[a|e'|] st']; simpl in *; [apply Hf| |done].
  intros [= ->]. by apply Hm.
Qed.

Lemma throws_printable_for_each {A : Type} (xs : list A) (body : A -> stm unit) :
  (forall x, throws_printable (body x)) -> throws_printable (for_each_stm xs body).
Proof.
  intros Hb. induction xs as [|x xs IH]; simpl; [by intros st e|].
  apply throws_printable_bind; [apply Hb | by intros _].
Qed.

Lemma throws_printable_paginate fuel token url key extra :
  throws_printable (paginate http fuel token url key extra).
Proof.
  intros st e. unfold paginate.
  pose proof (paginate_loop_throws http token url key extra e fuel [] JNull) as Hp.
  unfold paginateHubSpot.
  destruct (paginate_loop http token url key extra fuel [] JNull) as [r log].
  simpl in *. intros ->. destruct Hp as [[r Hr]|Hi]; [done| |].
  - by apply (http_printable r).
  - by apply internal_printable.
Qed.

Lemma throws_printable_axios_get r : throws_printable (axios_get http r).
Proof. intros st e H. by apply (http_printable r). Qed.

Lemma throws_printable_scan_items k name_of extract fetch_no items :
  (forall x, raises_internal (name_of x)) -> (forall x, raises_internal (extract x)) ->
  throws_printable (scan_items k name_of extract fetch_no items).
Proof.
  intros Hn He. unfold scan_items. apply throws_printable_for_each.
  intros [i item]. unfold scan_item.
  apply throws_printable_bind; [by apply throws_printable_lift|]. intros v.
  apply throws_printable_bind; [by apply throws_printable_lift|]. intros names.
  apply throws_printable_for_each. intros name. unfold record_use.
  apply throws_printable_bind; [by intros st e|]. intros _ st e.
  unfold add_usage, addUsage.
  pose proof (raises_internal_to_string name) as Ht.
  destruct (to_string name) as [p|e'|]; simpl; [done| |done].
  intros [= <-]. by apply internal_printable, Ht.
Qed.

Lemma raises_internal_items_of v : raises_internal (fst (items_of v)).
Proof.
  intros e. unfold items_of. destruct v as [[]|]; simpl; try done;
    try (destruct (negb _); simpl; try done); try by intros [= <-].
  all: repeat match goal with |- context [if ?b then _ else _] => destruct b end;
    simpl; try done; by intros [= <-].
Qed.

(** A block whose body throws printable errors only never throws. *)
Lemma never_throws_block label (body : stm unit) :
  throws_printable body -> never_throws (try_catch body (push_warning label)).
Proof.
  intros Hb st e. unfold try_catch. specialize (Hb st).
  destruct (body st) as [[[]|e'|] st']; simpl in *; try done.
  destruct (Hb e' eq_refl) as [text Ht].
  unfold push_warning, bind_stm, lift. by rewrite Ht.
Qed.

Lemma never_throws_bind {A B : Type} (m : stm A) (f : A -> stm B) :
  never_throws m -> (forall a, never_throws (f a)) -> never_throws (bind_stm m f).
Proof.
  intros Hm Hf st e. unfold bind_stm. specialize (Hm st).
  destruct (m st) as [[a|e'|] st']; simpl in *; [apply Hf| |done].
  by destruct (Hm e').
Qed.

Lemma never_throws_blocks fuel token :
  never_throws (workflows_block http fuel token)
  /\ never_throws (forms_block http fuel token)
  /\ never_throws (lists_block http fuel token)
  /\ never_throws (pipelines_block http token)
  /\ never_throws (emails_block http fuel token)
  /\ never_throws (reports_block http token).
Proof.
  repeat match goal with |- _ /\ _ => split end; apply never_throws_block.
  all: repeat first
         [ apply throws_printable_paginate
         | apply throws_printable_axios_get
         | apply throws_printable_scan_items
         | apply raises_internal_workflow_name
         | apply raises_internal_first_truthy
         | apply raises_internal_extractFormProps
         | apply raises_internal_ok
         | apply raises_internal_get
         | solve [apply throws_printable_lift; first [assumption | apply raises_internal_get]]
         | solve [intros st e; done]
         | apply throws_printable_bind
         | progress intros
         | progress unfold pipelines_of
         | match goal with
           | |- throws_printable (let '(_, _) := items_of ?v in _) =>
               pose proof (raises_internal_items_of v);
               destruct (items_of v); simpl in *
           | |- throws_printable (if ?b then _ else _) => destruct b
           end ].
Qed.

(** X10: when every failure of the API carries a message that can be
    printed (no message, or one that converts to a string), the scan never
    throws: every failure of a source, also an error of the code on an
    unexpected item, ends as a warning. *)
Theorem fetch_usage_context_never_throws (fuel : nat) (token : jstring) (e : js_error) :
  fst (fetch_usage_context http fuel token) <> Throw e.
Proof.
  destruct (never_throws_blocks fuel token) as (H1 & H2 & H3 & H4 & H5 & H6).
  unfold fetch_usage_context.
  apply (never_throws_bind _ _ H1). intros _.
  apply (never_throws_bind _ _ H2). intros _.
  apply (never_throws_bind _ _ H3). intros _.
  apply (never_throws_bind _ _ H4). intros _.
  apply (never_throws_bind _ _ H5). intros _.
  exact H6.
Qed.
End Printable.

Lemma fetch_usage_context_never_throws_witness :
  fst (fetch_usage_context all_down 3 (str "tok")) = Ok tt.
Proof.
  pose proof (fetch_usage_context_never_throws all_down) as H.
  destruct (fst (fetch_usage_context all_down 3 (str "tok"))) as [[]|e|] eqn:Hr;
    [done| |by vm_compute in Hr].
  exfalso. apply (H ltac:(intros r e' [= <-]; by eexists) 3%nat (str "tok") e Hr).
Defined.

(** ** The usage scan: where the requests go *)

Lemma keeps_bind {A B : Type} I (m : stm A) (f : A -> stm B) :
  keeps I m -> (forall a, keeps I (f a)) -> keeps I (bind_stm m f).
Proof.
  intros Hm Hf st Hst. unfold bind_stm. specialize (Hm st Hst).
  destruct (m st) as [[a| |] st']; simpl in *; [by apply Hf|done|done].
Qed.

Lemma keeps_for_each {A : Type} I (xs : list A) (body : A -> stm unit) :
  (forall x, keeps I (body x)) -> keeps I (for_each_stm xs body).
Proof.
  intros Hb. induction xs as [|x xs IH]; simpl; [by intros st|].
  apply keeps_bind; [apply Hb | by intros _].
Qed.

Lemma keeps_try_catch I (body : stm unit) (handler : js_error -> stm unit) :
  keeps I body -> (forall e, keeps I (handler e)) -> keeps I (try_catch body handler).
Proof.
  intros Hb Hh st Hst. unfold try_catch. specialize (Hb st Hst).
  destruct (body st) as [[[]|e|] st']; simpl in *; [done|by apply Hh|done].
Qed.

(** A statement that leaves the list of requests as it is. *)
Lemma keeps_requests_same {A : Type} (P : request -> Prop) (m : stm A) :
  (forall st, requests (snd (m st)) = requests st) ->
  keeps (fun st => Forall P (requests st)) m.
Proof. intros Hm st Hst. by rewrite Hm. Qed.

Section Requests.
Variable http : http_get.
Variable token : jstring.

Local Abbreviation sent := (fun st => Forall (to_hubspot token) (requests st)).

Lemma keeps_sent_paginate fuel path key extra :
  keeps sent (paginate http fuel token (api path) key extra).
Proof.
  intros st Hst. unfold paginate.
  pose proof (fun r => paginate_loop_requests http token (api path) key extra r fuel [] JNull)
    as Hlog.
  unfold paginateHubSpot.
  destruct (paginate_loop http token (api path) key extra fuel [] JNull) as [res log].
  simpl in *. apply Forall_app. split; [done|].
  apply Forall_forall. intros r Hr. destruct (Hlog r Hr) as [a ->].
  split; [done|]. by exists (str path).
Qed.

Lemma keeps_sent_axios_get path params0 :
  keeps sent (axios_get http (mkRequest (api path) (str "Bearer " ++ token) params0)).
Proof.
  intros st Hst. simpl. apply Forall_app. split; [done|].
  constructor; [|constructor]. split; [done|]. by exists (str path).
Qed.

Lemma keeps_sent_scan_items k name_of extract fetch_no items :
  keeps sent (scan_items k name_of extract fetch_no items).
Proof.
  unfold scan_items. apply keeps_for_each. intros [i item]. unfold scan_item.
  apply keeps_bind; [by apply keeps_requests_same|]. intros v.
  apply keeps_bind; [by apply keeps_requests_same|]. intros names.
  apply keeps_for_each. intros name. unfold record_use.
  apply keeps_bind; [by apply keeps_requests_same|]. intros _.
  apply keeps_requests_same. intros st. unfold add_usage.
  by destruct (addUsage _ _ _ _).
Qed.

Lemma keeps_sent_push_warning label e : keeps sent (push_warning label e).
Proof.
  apply keeps_requests_same. intros st. unfold push_warning, bind_stm, lift.
  by destruct (to_string (error_text e)).
Qed.

(** X11: whatever the API answers, every request of a scan goes to
    [https://api.hubapi.com] and carries the token of the caller as bearer
    token; nothing a response holds changes where the next request goes. *)
Theorem fetch_usage_context_requests (fuel : nat) :
  Forall (to_hubspot token) (requests (snd (fetch_usage_context http fuel token))).
Proof.
  assert (H : keeps sent
                (do* _ := workflows_block http fuel token in
                 do* _ := forms_block http fuel token in
                 do* _ := lists_block http fuel token in
                 do* _ := pipelines_block http token in
                 do* _ := emails_block http fuel token in
                 reports_block http token)).
  { repeat (apply keeps_bind; [|intros _]).
    all: apply keeps_try_catch; [|intros e; apply keeps_sent_push_warning].
    all: repeat first
           [ apply keeps_sent_paginate
           | apply (keeps_sent_axios_get "/crm/v3/pipelines/deals")
           | apply (keeps_sent_axios_get "/crm/v3/pipelines/tickets")
           | apply keeps_sent_axios_get
           | apply keeps_sent_scan_items
           | solve [apply keeps_requests_same; intros st; done]
           | apply keeps_bind
           | progress intros
           | progress unfold pipelines_of
           | match goal with
             | |- keeps _ (let '(_, _) := ?x in _) => destruct x
             | |- keeps _ (if ?b then _ else _) => destruct b
             end ]. }
  apply H. constructor.
Qed.
End Requests.

(** ** The usage scan: a source that fails half way *)

Lemma same_frame_refl st : same_frame st st.
Proof. by repeat split. Qed.

Lemma same_frame_trans s1 s2 s3 : same_frame s1 s2 -> same_frame s2 s3 -> same_frame s1 s3.
Proof. intros (a & b & c) (a' & b' & c'). repeat split; congruence. Qed.

Lemma record_use_string k src n st :
  exists st', record_use k src (JStr n) st = (Ok tt, st') /\ same_frame st st'.
Proof. eexists. split; [reflexivity|]. by repeat split. Qed.

Lemma record_all_strings k src names :
  forall st, exists st',
    for_each_stm (strings names) (record_use k src) st = (Ok tt, st') /\ same_frame st st'.
Proof.
  induction names as [|n names IH]; intros st.
  - exists st. split; [done | apply same_frame_refl].
  - simpl strings. rewrite for_each_stm_cons.
    destruct (record_use_string k src n st) as (s1 & -> & H1).
    destruct (IH s1) as (s2 & -> & H2). exists s2. split; [done|].
    by eapply same_frame_trans.
Qed.

(** The scan of items whose name can be read, with an extractor that
    returns strings, completes and leaves warnings, counters and requests
    alone. *)
Lemma scan_pairs_complete k name_of (extract : json -> list jstring) fetch_no
    (l : list (nat * json)) :
  Forall (fun p => exists v, name_of (snd p) = Ok v) l ->
  forall st, exists st',
    for_each_stm l (scan_item k name_of (fun x => Ok (strings (extract x))) fetch_no) st
      = (Ok tt, st')
    /\ same_frame st st'.
Proof.
  induction 1 as [|[i item] l [v Hv] _ IH]; intros st.
  - exists st. split; [done | apply same_frame_refl].
  - rewrite for_each_stm_cons. unfold scan_item at 1. unfold bind_stm, lift.
    simpl in Hv. rewrite Hv.
    destruct (record_all_strings k (mkSourceName (fetch_no, i) v) (extract item) st)
      as (s1 & -> & H1).
    destruct (IH s1) as (s2 & -> & H2). exists s2. split; [done|].
    by eapply same_frame_trans.
Qed.

Lemma scan_items_complete k name_of (extract : json -> list jstring) fetch_no items :
  Forall (fun item => exists v, name_of item = Ok v) items ->
  forall st, exists st',
    scan_items k name_of (fun x => Ok (strings (extract x))) fetch_no items st = (Ok tt, st')
    /\ same_frame st st'.
Proof.
  intros H. apply scan_pairs_complete.
  apply Forall_forall. intros [i item] Hin.
  apply list_elem_of_lookup in Hin as [j Hj]. rewrite list_lookup_imap in Hj.
  destruct (items !! j) as [x|] eqn:Hx; [|done]. injection Hj as <- <-.
  rewrite Forall_forall in H. apply H. by eapply list_elem_of_lookup_2.
Qed.

Lemma first_truthy_ok item k1 k2 fb :
  item <> JNull -> exists v, first_truthy item k1 k2 fb = Ok v.
Proof.
  intros Hn. unfold first_truthy.
  assert (Hget : forall k, exists x, get item k = Ok x).
  { intros k. destruct item; try done; by eexists. }
  destruct (Hget k1) as [a ->]. simpl. destruct (truthy_value a); [by eexists|].
  destruct (Hget k2) as [b ->]. simpl. destruct (truthy_value b); by eexists.
Qed.

(** One round of the pipeline loop on a response that lists pipelines. *)
Lemma pipelines_of_reads (http : http_get) (token : jstring) (fetch_no : nat)
    (pipelineObj : String.string) (st : scan_state) (data : json) (items : list json) :
  http (pipelines_request token pipelineObj) = Ok data ->
  get data "results" = Ok (Some (JArr items)) ->
  Forall (fun item => item <> JNull) items ->
  exists st',
    pipelines_of http token fetch_no pipelineObj st = (Ok tt, st')
    /\ warnings st' = warnings st
    /\ counts st' Pipelines
       = match counts st Pipelines with
         | Some n => Some (n + length items)%nat
         | None => None
         end
    /\ (forall item n, item ∈ items -> n ∈ extractPipelineProps item ->
          JStr n ∈ props st' Pipelines)
    /\ requests st' = requests st ++ [pipelines_request token pipelineObj].
Proof.
  intros Hreq Hres Hitems.
  unfold pipelines_of, bind_stm, axios_get, lift.
  fold (pipelines_request token pipelineObj). rewrite Hreq, Hres.
  change (items_of (Some (JArr items))) with (Ok items, Some (length items)).
  cbv beta iota zeta. unfold add_count. cbv beta iota zeta.
  match goal with |- context [scan_items ?k ?n ?x ?f items ?s] =>
    destruct (scan_items_complete k n extractPipelineProps f items
                ltac:(eapply Forall_impl; [exact Hitems|];
                      intros item Hi; by apply first_truthy_ok) s)
      as (s1 & Hs1 & Hfr);
    pose proof (scan_items_collects k n _ f items s s1 Hs1) as Hcol
  end.
  rewrite Hs1. exists s1. split; [done|].
  destruct Hfr as (Hw & Hc & Hr). simpl in Hw, Hc, Hr. rewrite Hw, Hc, Hr.
  split; [done|]. split.
  - unfold update. rewrite bool_decide_eq_true_2 by done.
    by destruct (counts st Pipelines).
  - split; [|done].
    intros item n Hin Hn. apply (Hcol item _ (JStr n) Hin eq_refl).
    unfold strings. apply list_elem_of_fmap. by exists n.
Qed.

(** X12: the two pipeline requests share one [try].  When the deal pipelines
    are read and the request for the ticket pipelines fails, the block
    ends with the warning of the pipelines, and what the deal pipelines
    gave stays: their number in the counter and every name found in them in
    the set; the failed request was the second and last one. *)
Theorem pipelines_block_keeps_deals (http : http_get) (token : jstring)
    (st : scan_state) (data : json) (items : list json) (e : js_error) (text : jstring) :
  http (pipelines_request token "deals") = Ok data ->
  get data "results" = Ok (Some (JArr items)) ->
  Forall (fun item => item <> JNull) items ->
  http (pipelines_request token "tickets") = Throw e ->
  to_string (error_text e) = Ok text ->
  exists st',
    pipelines_block http token st = (Ok tt, st')
    /\ warnings st' = warnings st ++ [str "Pipelines: " ++ text]
    /\ counts st' Pipelines
       = match counts st Pipelines with
         | Some n => Some (n + length items)%nat
         | None => None
         end
    /\ (forall item n, item ∈ items -> n ∈ extractPipelineProps item ->
          JStr n ∈ props st' Pipelines)
    /\ requests st' = requests st ++ [pipelines_request token "deals";
                                       pipelines_request token "tickets"].
Proof.
  intros Hdeals Hres Hitems Htickets Htext.
  destruct (pipelines_of_reads http token 0 "deals" st data items Hdeals Hres Hitems)
    as (s1 & Hrun & Hw & Hc & Hp & Hr).
  unfold pipelines_block, try_catch, bind_stm. rewrite Hrun.
  unfold pipelines_of, bind_stm, axios_get.
  fold (pipelines_request token "tickets"). rewrite Htickets.
  unfold push_warning, bind_stm, lift. rewrite Htext.
  eexists. split; [reflexivity|]. simpl. rewrite Hw, Hr, <- app_assoc. done.
Qed.

Lemma pipelines_block_keeps_deals_witness :
  exists st',
    pipelines_block tickets_down (str "tok") initial_state = (Ok tt, st')
    /\ warnings st' = [str "Pipelines: This app lacks the tickets scope"]
    /\ counts st' Pipelines = Some 1%nat.
Proof.
  destruct (pipelines_block_keeps_deals tickets_down (str "tok") initial_state
              (JObj [(str "results",
                      JArr [JObj [(str "label", JStr (str "Sales"));
                                  (str "stages",
                                   JArr [JObj [(str "requiredProperty",
                                                JStr (str "amount"))]])]])])
              [JObj [(str "label", JStr (str "Sales"));
                     (str "stages",
                      JArr [JObj [(str "requiredProperty", JStr (str "amount"))]])]]
              (mkError (Some (JStr (str "This app lacks the tickets scope")))
                       (str "Request failed with status code 403"))
              (str "This app lacks the tickets scope"))
    as (st' & Hrun & Hw & Hc & _).
  - reflexivity.
  - reflexivity.
  - repeat constructor; discriminate.
  - reflexivity.
  - reflexivity.
  - exists st'. split; [exact Hrun|]. split; [exact Hw | exact Hc].
Defined.

(** ** The CSV upload *)

Lemma concat_imap_nil {A B : Type} (f : nat -> A -> list B) (l : list A) :
  concat (imap f l) = [] -> forall i x, l !! i = Some x -> f i x = [].
Proof.
  revert f. induction l as [|y l IH]; intros f H i x Hi; [done|].
  simpl in H. apply app_eq_nil in H as [H1 H2].
  destruct i as [|i]; simpl in Hi.
  - by injection Hi as <-.
  - by apply (IH (fun j => f (S j)) H2 i x).
Qed.

Lemma row_errors_nil (i : nat) (row : record) :
  row_errors i row = [] <-> row_valid row = true.
Proof.
  unfold row_errors, row_valid, trimmed.
  destruct (blank (cell row "Name")); simpl; [split; done|].
  destruct (cell row "Type") as [t|]; simpl; [|split; done].
  destruct (negb (nonempty t) || negb (nonempty (trim t))); simpl; [split; done|].
  destruct (has_truthy PROPERTY_TYPES (trim t)); split; done.
Qed.

Lemma blank_false (v : option jstring) :
  blank v = false -> exists s, v = Some s /\ nonempty (trim s) = true.
Proof.
  destruct v as [s|]; simpl; [|done]. intros H. exists s. split; [done|].
  apply orb_false_iff in H as [_ H]. by apply negb_false_iff in H.
Qed.

Lemma has_truthy_types (k : jstring) :
  has_truthy PROPERTY_TYPES k = true -> k ∈ VALID_TYPES \/ k ∈ inherited_names.
Proof.
  unfold has_truthy, object_lookup.
  destruct (List.find _ PROPERTY_TYPES) as [kv|] eqn:Hf.
  - intros _. left. apply find_some in Hf as [Hin Hk].
    apply bool_decide_eq_true in Hk. subst k. unfold VALID_TYPES.
    apply list_elem_of_In, in_map, Hin.
  - destruct (bool_decide (k ∈ inherited_names)) eqn:Hi; [|done].
    intros _. right. by apply bool_decide_eq_true in Hi.
Qed.

(** What a valid row gives after normalisation. *)
Lemma row_valid_normalised (row : record) :
  row_valid row = true ->
  let n := trimmed (cell row "Name") in
  let t := trimmed (cell row "Type") in
  nonempty n = true /\ nonempty t = true
  /\ (t ∈ VALID_TYPES \/ t ∈ inherited_names).
Proof.
  unfold row_valid. intros [[Hn Ht]%andb_true_iff Hk]%andb_true_iff.
  apply negb_true_iff, blank_false in Hn as (n & Hn & Hne).
  apply negb_true_iff, blank_false in Ht as (t & Ht & Hte).
  unfold trimmed in *. rewrite Hn, Ht in *. simpl.
  split; [done|]. split; [done|]. by apply has_truthy_types.
Qed.

Lemma parse_csv_ok_inv (u : upload) :
  res_status (parse_csv u) = 200%nat ->
  exists first rest, u = Parsed (first :: rest)
    /\ header_ok first = true
    /\ concat (imap row_errors (first :: rest)) = []
    /\ parse_csv u = accepted (List.map normalise (first :: rest)).
Proof.
  destruct u as [|m|[|first rest]]; try done.
  unfold parse_csv. cbv zeta.
  destruct (bool_decide (str "Name" ∈ _)) eqn:H1; simpl; [|done].
  destruct (bool_decide (str "Type" ∈ _)) eqn:H2; simpl; [|done].
  destruct (row_errors 0 first ++ concat (imap (row_errors ∘ S) rest)) eqn:He; [|done].
  intros _. exists first, rest. split; [done|]. split; [|split; [exact He|done]].
  unfold header_ok. apply andb_true_iff. split; [exact H1 | exact H2].
Qed.

(** X13: an upload is accepted (status 200) only when it was parsed into at
    least one record; the answer then holds one normalised row for every
    record, in order, and their number, and in every row the name is not
    empty and the type is one of the eleven display names or a name that
    every object inherits (such as constructor or toString), which the
    lookup in the table of types also answers. *)
Theorem parse_csv_accepted_rows (u : upload) :
  res_status (parse_csv u) = 200%nat ->
  exists records,
    u = Parsed records /\ records <> []
    /\ parse_csv u = accepted (List.map normalise records)
    /\ Forall (fun row =>
                 nonempty (trimmed (cell row "Name")) = true
                 /\ (trimmed (cell row "Type") ∈ VALID_TYPES
                     \/ trimmed (cell row "Type") ∈ inherited_names)) records.
Proof.
  intros (first & rest & -> & _ & He & Hok)%parse_csv_ok_inv.
  exists (first :: rest). split; [done|]. split; [done|]. split; [done|].
  apply Forall_lookup. intros i row Hi.
  pose proof (concat_imap_nil _ _ He i row Hi) as Hrow.
  apply row_errors_nil, row_valid_normalised in Hrow as (Hn & _ & Ht). done.
Qed.

Lemma parse_csv_accepted_rows_witness :
  exists records,
    sample_upload = Parsed records
    /\ Forall (fun row => trimmed (cell row "Type") ∈ VALID_TYPES
                          \/ trimmed (cell row "Type") ∈ inherited_names) records.
Proof.
  destruct (parse_csv_accepted_rows sample_upload) as (records & Hu & _ & _ & Hrows);
    [reflexivity|].
  exists records. split; [exact Hu|].
  eapply Forall_impl; [exact Hrows|]. by intros row [_ H].
Defined.

Lemma cell_normalise (row : record) :
  cell (normalise row) "Name" = Some (trimmed (cell row "Name"))
  /\ cell (normalise row) "Type" = Some (trimmed (cell row "Type"))
  /\ cell (normalise row) "Description" = Some (trimmed (cell row "Description"))
  /\ cell (normalise row) "Options" = Some (trimmed (cell row "Options")).
Proof. repeat split. Qed.

Lemma normalise_idempotent (row : record) : normalise (normalise row) = normalise row.
Proof.
  destruct (cell_normalise row) as (Hn & Ht & Hd & Ho).
  unfold normalise at 1. rewrite Hn, Ht, Hd, Ho. unfold trimmed at 1 3 5 7. simpl.
  unfold trimmed. by rewrite !trim_idempotent.
Qed.

Lemma row_valid_normalise (row : record) :
  row_valid row = true -> row_valid (normalise row) = true.
Proof.
  intros H. pose proof (row_valid_normalised row H) as (Hn & Ht & _).
  unfold row_valid in *. destruct (cell_normalise row) as (-> & -> & _).
  apply andb_true_iff in H as [_ Hk].
  unfold trimmed in *. simpl. rewrite !trim_idempotent, Hn, Ht, Hk.
  destruct (trim (default [] (cell row "Name"))); [done|].
  destruct (trim (default [] (cell row "Type"))); done.
Qed.

Lemma parse_csv_accepts (first : record) (rest : list record) :
  header_ok first = true -> concat (imap row_errors (first :: rest)) = [] ->
  parse_csv (Parsed (first :: rest)) = accepted (List.map normalise (first :: rest)).
Proof.
  unfold header_ok. intros [H1 H2]%andb_true_iff He. unfold parse_csv. cbv zeta.
  match goal with |- context [bool_decide (str "Name" ∈ ?h)] =>
    replace (bool_decide (str "Name" ∈ h)) with true by (symmetry; exact H1)
  end.
  match goal with |- context [bool_decide (str "Type" ∈ ?h)] =>
    replace (bool_decide (str "Type" ∈ h)) with true by (symmetry; exact H2)
  end.
  simpl negb. simpl orb. cbv iota. by rewrite He.
Qed.

Lemma header_ok_normalise (row : record) : header_ok (normalise row) = true.
Proof. vm_compute. reflexivity. Qed.

(** X14: the rows of an accepted upload are a fixed point of the handler:
    uploaded again as records, they are accepted and answered unchanged. *)
Theorem parse_csv_round_trip (records : list record) :
  res_status (parse_csv (Parsed records)) = 200%nat ->
  parse_csv (Parsed (List.map normalise records)) = parse_csv (Parsed records).
Proof.
  intros (first & rest & [= ->] & _ & He & Hok)%parse_csv_ok_inv.
  rewrite Hok.
  assert (Hidem : List.map normalise (List.map normalise (first :: rest))
                  = List.map normalise (first :: rest)).
  { rewrite List.map_map. apply map_ext. intros row. apply normalise_idempotent. }
  rewrite <- Hidem at 2.
  apply (parse_csv_accepts (normalise first) (List.map normalise rest)
           (header_ok_normalise first)).
  change (normalise first :: List.map normalise rest)
    with (List.map normalise (first :: rest)).
  apply concat_nil_Forall, Forall_forall. intros errs Hin.
  apply list_elem_of_lookup in Hin as [i Hi]. rewrite list_lookup_imap in Hi.
  rewrite list_lookup_fmap in Hi.
  destruct ((first :: rest) !! i) as [row|] eqn:Hrow; [|done].
  simpl in Hi. injection Hi as <-.
  apply row_errors_nil, row_valid_normalise, (row_errors_nil i).
  by apply (concat_imap_nil _ _ He i row).
Qed.

Lemma parse_csv_round_trip_witness :
  parse_csv (Parsed [normalise [(str "Name", str " Deal size "); (str "Type", str "Number")]])
  = parse_csv (Parsed [[(str "Name", str " Deal size "); (str "Type", str "Number")]]).
Proof.
  apply (parse_csv_round_trip [[(str "Name", str " Deal size "); (str "Type", str "Number")]]).
  reflexivity.
Defined.

Lemma row_errors_prefix (i : nat) (row : record) (e : jstring) :
  e ∈ row_errors i row ->
  exists tail, e = str "Row " ++ of_nat (i + 2) ++ str ": " ++ tail.
Proof.
  unfold row_errors. intros [H|H]%elem_of_app.
  - destruct (blank (cell row "Name")); [|by apply elem_of_nil in H].
    apply list_elem_of_singleton in H as ->. by exists (str "Name is required").
  - destruct (cell row "Type") as [t|].
    + destruct (blank (Some t)).
      * apply list_elem_of_singleton in H as ->. by exists (str "Type is required").
      * destruct (has_truthy PROPERTY_TYPES (trim t)); [by apply elem_of_nil in H|].
        apply list_elem_of_singleton in H as ->.
        by exists (str "Invalid type " ++ [34] ++ t ++ [34]
                   ++ str ". Must be one of: " ++ join (str ", ") VALID_TYPES).
    + apply list_elem_of_singleton in H as ->. by exists (str "Type is required").
Qed.

Lemma elem_of_concat_imap {A B : Type} (f : nat -> A -> list B) (l : list A) i x y :
  l !! i = Some x -> y ∈ f i x -> y ∈ concat (imap f l).
Proof.
  revert f i. induction l as [|z l IH]; intros f i Hi Hy; [done|].
  simpl. apply elem_of_app. destruct i as [|i]; simpl in Hi.
  - injection Hi as ->. by left.
  - right. by apply (IH (fun j => f (S j)) i).
Qed.

(** X15: an upload with an invalid row is rejected as a whole (status 400,
    no data), and the answer holds a message for that row that starts with
    its line number in the file: the index of the record plus two. *)
Theorem parse_csv_reports_row (first : record) (rest : list record) (i : nat)
    (row : record) :
  header_ok first = true ->
  (first :: rest) !! i = Some row -> row_valid row = false ->
  exists errors e tail,
    parse_csv (Parsed (first :: rest)) = rejected errors
    /\ e ∈ errors
    /\ e = str "Row " ++ of_nat (i + 2) ++ str ": " ++ tail.
Proof.
  intros Hh Hi Hv.
  assert (Hne : row_errors i row <> []).
  { intros H. apply row_errors_nil in H. congruence. }
  destruct (row_errors i row) as [|e es] eqn:He; [done|].
  assert (Hin : e ∈ concat (imap row_errors (first :: rest))).
  { apply (elem_of_concat_imap _ _ i row); [done|]. rewrite He. apply list_elem_of_here. }
  destruct (row_errors_prefix i row e) as [tail Ht]; [rewrite He; apply list_elem_of_here|].
  exists (concat (imap row_errors (first :: rest))), e, tail.
  split; [|done].
  unfold header_ok in Hh. apply andb_true_iff in Hh as [H1 H2].
  unfold parse_csv. cbv zeta.
  match goal with |- context [bool_decide (str "Name" ∈ ?h)] =>
    replace (bool_decide (str "Name" ∈ h)) with true by (symmetry; exact H1)
  end.
  match goal with |- context [bool_decide (str "Type" ∈ ?h)] =>
    replace (bool_decide (str "Type" ∈ h)) with true by (symmetry; exact H2)
  end.
  simpl negb. simpl orb. cbv iota.
  destruct (concat (imap row_errors (first :: rest))); [by apply elem_of_nil in Hin | done].
Qed.

Lemma parse_csv_reports_row_witness :
  exists errors,
    parse_csv (Parsed [ [(str "Name", str "Size"); (str "Type", str "Number")];
                        [(str "Name", str "  "); (str "Type", str "Numbr")] ])
    = rejected errors
    /\ exists e tail, e ∈ errors /\ e = str "Row 3: " ++ tail.
Proof.
  destruct (parse_csv_reports_row
              [(str "Name", str "Size"); (str "Type", str "Number")]
              [[(str "Name", str "  "); (str "Type", str "Numbr")]] 1
              [(str "Name", str "  "); (str "Type", str "Numbr")])
    as (errors & e & tail & Hr & Hin & He); [reflexivity..|].
  exists errors. split; [exact Hr|]. exists e, tail. split; [exact Hin | exact He].
Defined.

(** ** The other routes: reading the request *)

Lemma read_get_opt (v : json) (k : String.string) :
  v <> JNull -> read v k = Done (get_opt (Some v) k).
Proof. by destruct v. Qed.

Lemma truthy_not_null (v : json) : truthy v = true -> v <> JNull.
Proof. by destruct v. Qed.

Lemma io_bind_done {A B : Type} (a : A) (k : A -> io B) (log : list call) :
  io_bind (io_lift (Done a)) k log = k a log.
Proof. reflexivity. Qed.

Lemma io_bind_raised {A B : Type} (e : api_error) (k : A -> io B) (log : list call) :
  io_bind (io_lift (Raised e)) k log = (Raised e, log).
Proof. reflexivity. Qed.

(** ** Creating a property *)

(** X16: the handler of create-property answers 400 without calling the API
    when the token, the object type or the property is missing or falsy, and
    when the type of the property is not a key the table of types answers
    to; the second answer names the type as the request gave it. *)
Theorem create_property_validates (hs : hubspot) (body : json) :
  body <> JNull ->
  let token := get_opt (Some body) "token" in
  let objectType := get_opt (Some body) "objectType" in
  let property := get_opt (Some body) "property" in
  (truthy_value token && truthy_value objectType && truthy_value property = false ->
   create_property hs body [] = (Done (bad_request "Missing required fields."), []))
  /\ (forall key,
        truthy_value token && truthy_value objectType && truthy_value property = true ->
        template (get_opt property "Type") = Done key ->
        has_truthy PROPERTY_TYPES key = false ->
        create_property hs body []
        = (Done (mkResponse 400
                   (JObj [(str "success", JBool false);
                          (str "error", JStr (str "Unknown property type: " ++ key))])),
           [])).
Proof.
  intros Hbody token objectType property. unfold create_property.
  rewrite !(read_get_opt body) by done. rewrite !io_bind_done.
  fold token objectType property. split.
  - intros H. destruct token as [t|], objectType as [o|], property as [p|]; try done.
    simpl in H. by rewrite H.
  - intros key H Hkey Hmiss.
    destruct token as [t|], objectType as [o|], property as [p|];
      try (simpl in H; rewrite ?andb_false_r in H; done).
    simpl in H. rewrite H.
    assert (Hp : p <> JNull).
    { apply truthy_not_null. by repeat (apply andb_true_iff in H as [H ?]). }
    rewrite (read_get_opt p) by done. rewrite io_bind_done.
    change (get_opt (Some p) "Type") with (get_opt (Some p) "Type") in Hkey.
    rewrite Hkey, io_bind_done.
    unfold has_truthy in Hmiss. by destruct (object_lookup PROPERTY_TYPES key).
Qed.

Lemma create_property_validates_witness :
  create_property forbidden
    (JObj [(str "token", JStr (str "tok")); (str "objectType", JStr (str "contacts"));
           (str "property", JObj [(str "Name", JStr (str "Size"));
                                  (str "Type", JStr (str "number"))])]) []
  = (Done (mkResponse 400
             (JObj [(str "success", JBool false);
                    (str "error", JStr (str "Unknown property type: number"))])),
     []).
Proof.
  destruct (create_property_validates forbidden
              (JObj [(str "token", JStr (str "tok"));
                     (str "objectType", JStr (str "contacts"));
                     (str "property", JObj [(str "Name", JStr (str "Size"));
                                            (str "Type", JStr (str "number"))])])
              ltac:(discriminate)) as [_ H].
  apply (H (str "number")); reflexivity.
Defined.

Lemma read_normalised (row : record) :
  read (record_json (normalise row)) "Name" = Done (Some (JStr (trimmed (cell row "Name"))))
  /\ read (record_json (normalise row)) "Type"
     = Done (Some (JStr (trimmed (cell row "Type"))))
  /\ read (record_json (normalise row)) "Description"
     = Done (Some (JStr (trimmed (cell row "Description"))))
  /\ read (record_json (normalise row)) "Options"
     = Done (Some (JStr (trimmed (cell row "Options")))).
Proof. repeat split. Qed.

Lemma or_else_string (s : jstring) :
  or_else (Some (JStr s)) (Some (JStr [])) = Some (JStr s).
Proof. by destruct s. Qed.

(** X17: a row of the upload, normalised and posted for a standard object
    type, makes exactly one call: a POST to the properties of the object
    type, with the bearer token, whose body holds the sanitised name, the
    label, the type and field type of the table, the default group of the
    object type, the description, and the parsed options exactly when the
    type is an enumeration.  The answer is 200 with the name and label
    HubSpot returns, or the status of the failure (500 without one) with its
    message. *)
Theorem create_property_posts_row (hs : hubspot) (token objectType : jstring)
    (row : record) (info : type_info) (group : jstring) :
  nonempty token = true -> nonempty objectType = true ->
  object_lookup PROPERTY_TYPES (trimmed (cell row "Type")) = Own info ->
  object_lookup DEFAULT_GROUPS objectType = Own group ->
  let c := PostCall (properties_url objectType) (bearer token)
                    (create_payload row info group) in
  let run := create_property hs (create_body token objectType (normalise row)) [] in
  snd run = [c]
  /\ (forall data, hs c = Done data -> data <> JNull ->
        fst run = Done (mkResponse 200
                          (json_obj [ (str "success", Some (JBool true));
                                      (str "internalName", get_opt (Some data) "name");
                                      (str "label", get_opt (Some data) "label") ])))
  /\ (forall e, hs c = Raised e ->
        fst run = Done (mkResponse (status_of e)
                          (json_obj [ (str "success", Some (JBool false));
                                      (str "error", create_error_message e) ]))).
Proof.
  intros Ht Ho Htype Hgroup c run.
  destruct (read_normalised row) as (Hn & Hty & Hd & Hop).
  assert (Hrun : run = match hs c with
                       | Done data =>
                           match read data "name" with
                           | Done n =>
                               match read data "label" with
                               | Done l =>
                                   (Done (mkResponse 200
                                            (json_obj [ (str "success", Some (JBool true));
                                                        (str "internalName", n);
                                                        (str "label", l) ])), [c])
                               | Raised e =>
                                   (Done (mkResponse (status_of e)
                                            (json_obj [ (str "success", Some (JBool false));
                                                        (str "error",
                                                         create_error_message e) ])), [c])
                               end
                           | Raised e =>
                               (Done (mkResponse (status_of e)
                                        (json_obj [ (str "success", Some (JBool false));
                                                    (str "error",
                                                     create_error_message e) ])), [c])
                           end
                       | Raised e =>
                           (Done (mkResponse (status_of e)
                                    (json_obj [ (str "success", Some (JBool false));
                                                (str "error", create_error_message e) ])),
                            [c])
                       end).
  { subst run. unfold create_property, create_body.
    change (read (JObj ?l) "token") with (Done (Some (JStr token))).
    change (read (JObj ?l) "objectType") with (Done (Some (JStr objectType))).
    change (read (JObj ?l) "property") with (Done (Some (record_json (normalise row)))).
    change (read (JObj ?l) "defaultGroup") with (Done (@None json)).
    repeat (rewrite io_bind_done; cbv beta).
    change (truthy (JStr token)) with (nonempty token).
    change (truthy (JStr objectType)) with (nonempty objectType).
    rewrite Ht, Ho. change (true && true && truthy (record_json (normalise row))) with true.
    cbv iota. rewrite Hty, io_bind_done. cbv beta.
    change (template (Some (JStr ?x))) with (Done x).
    rewrite io_bind_done. cbv beta. rewrite Htype.
    change (truthy_value None) with false. cbv iota.
    unfold resolveGroupName at 1.
    change (text_of (JStr objectType)) with (Done objectType).
    unfold io_bind at 2. unfold io_lift at 1. rewrite Hgroup.
    unfold io_bind at 1. unfold io_ret at 1. cbv beta iota.
    rewrite Hn, io_bind_done. cbv beta.
    change (internal_name_of (Some (JStr ?x))) with (Done (toInternalName x)).
    rewrite io_bind_done. cbv beta. rewrite Hd, io_bind_done. cbv beta.
    rewrite or_else_string.
    assert (Hopts : options_of (Own info) (record_json (normalise row))
                    = Done (if ti_enumeration info
                            then Some (JArr (List.map option_json
                                      (parseOptions (Some (trimmed (cell row "Options"))))))
                            else None)).
    { unfold options_of. destruct (ti_enumeration info); [|done]. by rewrite Hop. }
    rewrite Hopts, io_bind_done. cbv beta.
    unfold io_catch. rewrite io_bind_done. cbv beta.
    change (text_of (JStr token)) with (Done token).
    rewrite io_bind_done. cbv beta.
    unfold io_bind at 1. unfold request_of at 1.
    change (hs (PostCall _ _ _)) with (hs c).
    destruct (hs c) as [data|e]; [|done].
    change ([] ++ [?x]) with [x].
    unfold io_bind at 1. unfold io_lift at 1.
    destruct (read data "name") as [n|e]; [|done].
    unfold io_bind at 1. unfold io_lift at 1.
    destruct (read data "label") as [l|e]; done. }
  rewrite Hrun. split; [|split].
  - destruct (hs c) as [data|e]; [|done].
    destruct (read data "name"); [|done]. by destruct (read data "label").
  - intros data -> Hnull. by rewrite !(read_get_opt data).
  - by intros e ->.
Qed.

Lemma create_property_posts_row_witness :
  fst (create_property sample_hubspot
         (create_body (str "tok") (str "deals")
            (normalise [(str "Name", str " Deal size "); (str "Type", str "Number")])) [])
  = Done (mkResponse 200
            (JObj [ (str "success", JBool true);
                    (str "internalName", JStr (str "deal_size"));
                    (str "label", JStr (str "Deal size")) ])).
Proof.
  destruct (create_property_posts_row sample_hubspot (str "tok") (str "deals")
              [(str "Name", str " Deal size "); (str "Type", str "Number")]
              (mkTypeInfo (str "number") (str "number") false) (str "dealinformation"))
    as (_ & H & _); [reflexivity..|].
  rewrite (H (JObj [(str "name", JStr (str "deal_size"));
                    (str "label", JStr (str "Deal size"))])); [reflexivity..|discriminate].
Defined.

(** ** Property groups *)

(** [find_group] on a list whose first element without a truthy
    [hubspotDefined] is [g], after elements that are not [null]. *)
Lemma find_group_first (pre : list json) (g : json) (rest : list json) :
  Forall (fun x => x <> JNull /\ truthy_value (get_opt (Some x) "hubspotDefined") = true) pre ->
  g <> JNull -> truthy_value (get_opt (Some g) "hubspotDefined") = false ->
  find_group (pre ++ g :: rest) = Done (Some g).
Proof.
  intros Hpre Hg Hd. induction Hpre as [|x pre [Hx Hxd] _ IH].
  - simpl app. unfold find_group. destruct g; try done; by rewrite Hd.
  - change ((x :: pre) ++ g :: rest) with (x :: (pre ++ g :: rest)).
    change (find_group (x :: pre ++ g :: rest))
      with (match x with
            | JNull => Raised (type_failure "Cannot read properties of null")
            | _ => if truthy_value (get_opt (Some x) "hubspotDefined")
                   then find_group (pre ++ g :: rest) else Done (Some x)
            end).
    destruct x; try done; by rewrite Hxd.
Qed.

(** The calls of [resolveGroupName] for a token and an object type that are
    strings, and the fact that it returns. *)
Lemma resolveGroupName_strings (hs : hubspot) (token objectType : jstring) :
  resolveGroupName hs (JStr token) (JStr objectType) []
  = match object_lookup DEFAULT_GROUPS objectType with
    | Own group => (Done (Some (JStr group)), [])
    | Inherited => (Done (inherited_json objectType), [])
    | Missing =>
        let c := GetCall (groups_url objectType) (bearer token) [] in
        (Done match hs c with
              | Done data =>
                  match preferred_group data with
                  | Done (Some p) =>
                      if truthy p then get_opt (Some p) "name"
                      else Some (JStr (objectType ++ str "information"))
                  | _ => Some (JStr (objectType ++ str "information"))
                  end
              | Raised _ => Some (JStr (objectType ++ str "information"))
              end, [c])
    end.
Proof.
  unfold resolveGroupName.
  change (text_of (JStr objectType)) with (Done objectType).
  rewrite io_bind_done. cbv beta.
  destruct (object_lookup DEFAULT_GROUPS objectType); [done..|].
  unfold io_catch.
  change (text_of (JStr token)) with (Done token).
  unfold io_bind, io_lift, request_of, io_ret. simpl app.
  destruct (hs _) as [data|e]; [|done].
  destruct (preferred_group data) as [[p|]|e]; [|done..].
  by destruct (truthy p).
Qed.

(** X18: for a token and an object type that are strings, resolving the
    group never throws.  A standard object type gives its default group
    without any call.  Any other type makes one call, for the groups of the
    type; a failure of that call gives the guessed name, the type followed
    by information; a list of groups gives the name of the first group that
    HubSpot did not define. *)
Theorem resolveGroupName_resolves (hs : hubspot) (token objectType : jstring) :
  let run := resolveGroupName hs (JStr token) (JStr objectType) [] in
  let c := GetCall (groups_url objectType) (bearer token) [] in
  (exists group, fst run = Done group)
  /\ (forall group, (objectType, group) ∈ DEFAULT_GROUPS ->
        run = (Done (Some (JStr group)), []))
  /\ (object_lookup DEFAULT_GROUPS objectType = Missing ->
        snd run = [c]
        /\ (forall e, hs c = Raised e ->
              fst run = Done (Some (JStr (objectType ++ str "information"))))
        /\ (forall data pre g rest,
              hs c = Done data ->
              get_opt (Some data) "results" = Some (JArr (pre ++ g :: rest)) ->
              Forall (fun x => x <> JNull
                               /\ truthy_value (get_opt (Some x) "hubspotDefined") = true)
                     pre ->
              truthy g = true ->
              truthy_value (get_opt (Some g) "hubspotDefined") = false ->
              fst run = Done (get_opt (Some g) "name"))).
Proof.
  intros run c. subst run. rewrite resolveGroupName_strings. split; [|split].
  - destruct (object_lookup DEFAULT_GROUPS objectType); by eexists.
  - intros group Hin. unfold DEFAULT_GROUPS in Hin.
    repeat (apply elem_of_cons in Hin as [[= -> ->]|Hin]; [reflexivity|]).
    by apply elem_of_nil in Hin.
  - intros ->. cbv zeta. fold c. split; [done|]. split.
    + by intros e ->.
    + intros data pre g rest -> Hres Hpre Hg Hd. simpl.
      assert (Hdata : data <> JNull) by (by destruct data).
      unfold preferred_group. rewrite (read_get_opt data) by done. rewrite Hres.
      simpl array_or_empty. cbv iota.
      rewrite (find_group_first pre g rest Hpre (truthy_not_null g Hg) Hd).
      unfold or_else. simpl truthy_value. by rewrite Hg, Hg.
Qed.

Lemma resolveGroupName_resolves_witness :
  resolveGroupName forbidden (JStr (str "tok")) (JStr (str "deals")) []
    = (Done (Some (JStr (str "dealinformation"))), [])
  /\ fst (resolveGroupName forbidden (JStr (str "tok")) (JStr (str "2-1")) [])
     = Done (Some (JStr (str "2-1information")))
  /\ fst (resolveGroupName sample_hubspot (JStr (str "tok")) (JStr (str "2-1")) [])
     = Done (Some (JStr (str "car_information"))).
Proof.
  split; [|split].
  - apply (resolveGroupName_resolves forbidden (str "tok") (str "deals")).
    do 2 apply list_elem_of_further. apply list_elem_of_here.
  - destruct (resolveGroupName_resolves forbidden (str "tok") (str "2-1"))
      as (_ & _ & H).
    destruct (H eq_refl) as (_ & Hf & _). by eapply Hf.
  - destruct (resolveGroupName_resolves sample_hubspot (str "tok") (str "2-1"))
      as (_ & _ & H).
    destruct (H eq_refl) as (_ & _ & Hg).
    apply (Hg (JObj [(str "results",
                      JArr [JObj [(str "name", JStr (str "hs_group"));
                                  (str "hubspotDefined", JBool true)];
                            JObj [(str "name", JStr (str "car_information"))]])])
              [JObj [(str "name", JStr (str "hs_group"));
                     (str "hubspotDefined", JBool true)]]
              (JObj [(str "name", JStr (str "car_information"))]) []);
      try reflexivity.
    constructor; [|constructor]. split; [discriminate | reflexivity].
Defined.

(** Whatever its arguments, [resolveGroupName] only reads. *)
Lemma resolveGroupName_reads (hs : hubspot) (t o : json) (log : list call) :
  exists r extra, resolveGroupName hs t o log = (r, log ++ extra) /\ Forall is_get extra.
Proof.
  unfold resolveGroupName, io_bind, io_catch, io_lift, io_ret, request_of.
  destruct (text_of o) as [key|e]; [|exists (Raised e), []; by rewrite app_nil_r].
  destruct (object_lookup DEFAULT_GROUPS key);
    try (eexists _, []; by rewrite app_nil_r).
  destruct (text_of t) as [auth|e]; [|eexists _, []; by rewrite app_nil_r].
  destruct (hs _) as [data|e];
    [|eexists _, [_]; split; [reflexivity | by repeat constructor]].
  destruct (preferred_group data) as [[p|]|e];
    try (eexists _, [_]; split; [reflexivity | by repeat constructor]).
  destruct (truthy p); eexists _, [_]; split; try reflexivity; by repeat constructor.
Qed.

(** X19: the handler of create-property does not check the name of the
    property: when the request passes the two checks and the name is not a
    string, the handler throws instead of answering, and it has made no call
    other than reading the groups of the object type: nothing is
    created. *)
Theorem create_property_throws_without_name (hs : hubspot) (body t o p : json)
    (key : jstring) :
  get_opt (Some body) "token" = Some t ->
  get_opt (Some body) "objectType" = Some o ->
  get_opt (Some body) "property" = Some p ->
  truthy t && truthy o && truthy p = true ->
  template (get_opt (Some p) "Type") = Done key ->
  has_truthy PROPERTY_TYPES key = true ->
  (forall s, get_opt (Some p) "Name" <> Some (JStr s)) ->
  exists e log,
    create_property hs body [] = (Raised e, log) /\ Forall is_get log.
Proof.
  intros Ht Ho Hp Hall Hkey Hknown Hname.
  assert (Hbody : body <> JNull) by (by destruct body).
  assert (Hpn : p <> JNull).
  { apply truthy_not_null. by apply andb_true_iff in Hall as [_ ?]. }
  unfold create_property.
  rewrite !(read_get_opt body) by done. rewrite Ht, Ho, Hp.
  repeat (rewrite io_bind_done; cbv beta). cbv iota. rewrite Hall. cbv iota.
  rewrite (read_get_opt p) by done. rewrite io_bind_done. cbv beta. rewrite Hkey.
  repeat (rewrite io_bind_done; cbv beta).
  assert (Hstep : forall (groupStep : io jsvalue)
                         (k : jsvalue -> jsvalue -> jstring -> io response),
            (exists r extra, groupStep [] = (r, extra) /\ Forall is_get extra) ->
            exists e log,
              (run* groupName := groupStep in
               run* name := io_lift (read p "Name") in
               run* internalName := io_lift (internal_name_of name) in
               k groupName name internalName) [] = (Raised e, log)
              /\ Forall is_get log).
  { intros groupStep k (r & extra & Hg & Hex). unfold io_bind at 1. rewrite Hg.
    destruct r as [g|e]; [|by exists e, extra].
    rewrite (read_get_opt p) by done. rewrite io_bind_done. cbv beta.
    unfold io_bind, io_lift. specialize (Hname).
    destruct (get_opt (Some p) "Name") as [[| | |s| |]|] eqn:Hn;
      try (eexists _, extra; by split).
    by destruct (Hname s). }
  unfold has_truthy in Hknown.
  destruct (object_lookup PROPERTY_TYPES key) as [info| |] eqn:Hl; [| |done].
  - apply (Hstep _ (fun groupName name internalName => _)).
    destruct (truthy_value (get_opt (Some body) "defaultGroup")).
    + by exists (Done (get_opt (Some body) "defaultGroup")), [].
    + destruct (resolveGroupName_reads hs t o []) as (r & extra & Hr & Hex).
      by exists r, extra.
  - apply (Hstep _ (fun groupName name internalName => _)).
    destruct (truthy_value (get_opt (Some body) "defaultGroup")).
    + by exists (Done (get_opt (Some body) "defaultGroup")), [].
    + destruct (resolveGroupName_reads hs t o []) as (r & extra & Hr & Hex).
      by exists r, extra.
Qed.

Lemma create_property_throws_without_name_witness :
  exists e log,
    create_property sample_hubspot
      (JObj [(str "token", JStr (str "tok")); (str "objectType", JStr (str "2-1"));
             (str "property", JObj [(str "Type", JStr (str "Number"))])]) []
    = (Raised e, log) /\ Forall is_get log.
Proof.
  apply (create_property_throws_without_name sample_hubspot _
           (JStr (str "tok")) (JStr (str "2-1"))
           (JObj [(str "Type", JStr (str "Number"))]) (str "Number"));
    try reflexivity.
  intros s. discriminate.
Defined.

(** ** Counting and deleting *)

Lemma required_fields_all (body t o n : json) :
  get_opt (Some body) "token" = Some t ->
  get_opt (Some body) "objectType" = Some o ->
  get_opt (Some body) "propertyName" = Some n ->
  truthy t && truthy o && truthy n = true ->
  required_fields body = Done (Some (t, o, n)).
Proof.
  intros Ht Ho Hn Hall. assert (Hbody : body <> JNull) by (by destruct body).
  unfold required_fields. rewrite !(read_get_opt body) by done.
  by rewrite Ht, Ho, Hn, Hall.
Qed.

Lemma required_fields_done (body : json) :
  body <> JNull -> exists f, required_fields body = Done f.
Proof.
  intros Hbody. unfold required_fields. rewrite !(read_get_opt body) by done.
  destruct (get_opt (Some body) "token") as [t|]; [|by eexists].
  destruct (get_opt (Some body) "objectType") as [o|]; [|by eexists].
  destruct (get_opt (Some body) "propertyName") as [n|]; [|by eexists].
  destruct (truthy t && truthy o && truthy n); by eexists.
Qed.

Lemma required_fields_missing (body : json) :
  body <> JNull ->
  truthy_value (get_opt (Some body) "token")
  && truthy_value (get_opt (Some body) "objectType")
  && truthy_value (get_opt (Some body) "propertyName") = false ->
  required_fields body = Done None.
Proof.
  intros Hbody H. unfold required_fields. rewrite !(read_get_opt body) by done.
  destruct (get_opt (Some body) "token") as [t|]; [|done].
  destruct (get_opt (Some body) "objectType") as [o|]; [|done].
  destruct (get_opt (Some body) "propertyName") as [n|]; [|done].
  simpl in H. by rewrite H.
Qed.

(** X20: the handler of check-property-records answers every request: 400
    without a call when the token, the object type or the property name is
    missing or falsy; otherwise it makes one call, the search for one record
    that has the property, and answers 200 with the total of the search (0
    when the search gives none), or with the status and message of the
    failure. *)
Theorem check_property_records_answers (hs : hubspot) (body : json) :
  body <> JNull ->
  let run := check_property_records hs body [] in
  (exists r, fst run = Done r)
  /\ (truthy_value (get_opt (Some body) "token")
      && truthy_value (get_opt (Some body) "objectType")
      && truthy_value (get_opt (Some body) "propertyName") = false ->
      run = (Done (bad_request "token, objectType, propertyName are required."), []))
  /\ (forall t o n path auth,
        get_opt (Some body) "token" = Some t ->
        get_opt (Some body) "objectType" = Some o ->
        get_opt (Some body) "propertyName" = Some n ->
        truthy t && truthy o && truthy n = true ->
        text_of o = Done path -> text_of t = Done auth ->
        let c := PostCall (search_url path) (bearer auth) (search_payload n) in
        snd run = [c]
        /\ (forall data, hs c = Done data -> data <> JNull ->
              fst run = Done (mkResponse 200
                                (JObj [ (str "success", JBool true);
                                        (str "total",
                                         total_or_zero (get_opt (Some data) "total")) ])))
        /\ (forall e, hs c = Raised e -> fst run = Done (failure_response e))).
Proof.
  intros Hbody run. split; [|split]; [subst run; unfold check_property_records..|].
  - destruct (required_fields_done body Hbody) as [f ->]. rewrite io_bind_done.
    destruct f as [[[t o] n]|]; [|by eexists].
    unfold io_catch, io_bind, io_lift, request_of, io_ret.
    destruct (text_of o); [|by eexists]. destruct (text_of t); [|by eexists].
    destruct (hs _) as [data|e]; [|by eexists].
    destruct (read data "total"); by eexists.
  - intros H. by rewrite (required_fields_missing body Hbody H).
  - intros t o n path auth Ht Ho Hn Hall Hpath Hauth c.
    subst run. unfold check_property_records.
    rewrite (required_fields_all body t o n Ht Ho Hn Hall), io_bind_done.
    unfold io_catch, io_bind, io_lift, request_of, io_ret.
    rewrite Hpath, Hauth. fold c. simpl app. split; [|split].
    + destruct (hs c) as [data|e]; [|done]. by destruct (read data "total").
    + intros data -> Hd. by rewrite (read_get_opt data).
    + by intros e ->.
Qed.

Lemma check_property_records_answers_witness :
  fst (check_property_records sample_hubspot
         (JObj [(str "token", JStr (str "tok")); (str "objectType", JStr (str "deals"));
                (str "propertyName", JStr (str "amount"))]) [])
  = Done (mkResponse 200 (JObj [(str "success", JBool true);
                                (str "total", JNum (str "12"))])).
Proof.
  destruct (check_property_records_answers sample_hubspot
              (JObj [(str "token", JStr (str "tok")); (str "objectType", JStr (str "deals"));
                     (str "propertyName", JStr (str "amount"))]) ltac:(discriminate))
    as (_ & _ & H).
  destruct (H (JStr (str "tok")) (JStr (str "deals")) (JStr (str "amount"))
              (str "deals") (str "tok")) as (_ & Hok & _); [reflexivity..|].
  apply (Hok (JObj [(str "total", JNum (str "12"))])); [reflexivity | discriminate].
Defined.

(** X21: the handler of delete-property answers every request: 400 without
    a call when the token, the object type or the property name is missing
    or falsy; otherwise it makes one call, a DELETE of the property under
    the object type, and answers 200, or the status and message of the
    failure. *)
Theorem delete_property_answers (hs : hubspot) (body : json) :
  body <> JNull ->
  let run := delete_property hs body [] in
  (exists r, fst run = Done r)
  /\ (truthy_value (get_opt (Some body) "token")
      && truthy_value (get_opt (Some body) "objectType")
      && truthy_value (get_opt (Some body) "propertyName") = false ->
      run = (Done (bad_request "token, objectType, propertyName are required."), []))
  /\ (forall t o n path name auth,
        get_opt (Some body) "token" = Some t ->
        get_opt (Some body) "objectType" = Some o ->
        get_opt (Some body) "propertyName" = Some n ->
        truthy t && truthy o && truthy n = true ->
        text_of o = Done path -> text_of n = Done name -> text_of t = Done auth ->
        let c := DeleteCall (properties_url path ++ str "/" ++ name) (bearer auth) in
        snd run = [c]
        /\ (forall data, hs c = Done data ->
              fst run = Done (mkResponse 200 (JObj [(str "success", JBool true)])))
        /\ (forall e, hs c = Raised e -> fst run = Done (failure_response e))).
Proof.
  intros Hbody run. split; [|split]; [subst run; unfold delete_property..|].
  - destruct (required_fields_done body Hbody) as [f ->]. rewrite io_bind_done.
    destruct f as [[[t o] n]|]; [|by eexists].
    unfold io_catch, io_bind, io_lift, request_of, io_ret.
    destruct (text_of o); [|by eexists]. destruct (text_of n); [|by eexists].
    destruct (text_of t); [|by eexists].
    destruct (hs _) as [data|e]; by eexists.
  - intros H. by rewrite (required_fields_missing body Hbody H).
  - intros t o n path name auth Ht Ho Hn Hall Hpath Hname Hauth c.
    subst run. unfold delete_property.
    rewrite (required_fields_all body t o n Ht Ho Hn Hall), io_bind_done.
    unfold io_catch, io_bind, io_lift, request_of, io_ret.
    rewrite Hpath, Hname, Hauth. fold c. simpl app. split; [|split].
    + by destruct (hs c).
    + by intros data ->.
    + by intros e ->.
Qed.

Lemma delete_property_answers_witness :
  fst (delete_property forbidden
         (JObj [(str "token", JStr (str "tok")); (str "objectType", JStr (str "deals"));
                (str "propertyName", JStr (str "amount"))]) [])
  = Done (mkResponse 403 (JObj [(str "success", JBool false);
                                (str "error", JStr (str "Missing scope"))])).
Proof.
  destruct (delete_property_answers forbidden
              (JObj [(str "token", JStr (str "tok")); (str "objectType", JStr (str "deals"));
                     (str "propertyName", JStr (str "amount"))]) ltac:(discriminate))
    as (_ & _ & H).
  destruct (H (JStr (str "tok")) (JStr (str "deals")) (JStr (str "amount"))
              (str "deals") (str "amount") (str "tok")) as (_ & _ & Hfail);
    [reflexivity..|].
  exact (Hfail (mkApiError
                  (Some (403%nat, JObj [(str "message", JStr (str "Missing scope"))]))
                  (str "Request failed with status code 403")) eq_refl).
Defined.

(** ** Listing the object types *)

Lemma schema_entry_object (hs : hubspot) (auth : jstring) (schema : json) (id : jstring)
    (log : list call) :
  schema_id schema = Some id ->
  schema_entry hs auth schema log
  = (Done (custom_entry hs auth schema id),
     log ++ [GetCall (groups_url id) (bearer auth) []]).
Proof.
  unfold schema_id. intros Hid.
  assert (Hs : schema <> JNull) by (by destruct schema).
  destruct (get_opt (Some schema) "objectTypeId") as [[| | |id'| |]|] eqn:Hget; try done.
  injection Hid as ->.
  unfold schema_entry, custom_entry, default_group_of.
  rewrite !(read_get_opt schema) by done. rewrite Hget.
  unfold io_catch, io_bind, io_lift, request_of, io_ret. simpl template.
  change (text_of (JStr id)) with (Done id). cbv iota beta.
  destruct (hs _) as [data|e]; [|done].
  by destruct (preferred_group data).
Qed.

Lemma promise_all_entries (hs : hubspot) (auth : jstring) (schemas : list json)
    (ids : list jstring) :
  Forall2 (fun schema id => schema_id schema = Some id) schemas ids ->
  forall log,
    promise_all (List.map (schema_entry hs auth) schemas) log
    = (Done (zip_with (custom_entry hs auth) schemas ids),
       log ++ List.map (fun id => GetCall (groups_url id) (bearer auth) []) ids).
Proof.
  induction 1 as [|schema id schemas ids Hid _ IH]; intros log; simpl.
  - by rewrite app_nil_r.
  - rewrite (schema_entry_object hs auth schema id log Hid), IH.
    by rewrite <- app_assoc.
Qed.

(** X22: the listing of the object types, for a token that is a string.
    When the call for the schemas fails with a message that can be printed,
    the answer is 200 with the five standard object types only and a warning
    that holds the message; one call was made.  When the call gives schemas
    whose ids are strings, the answer is 200 without warning, the standard
    object types are followed by one entry for every schema, in order, and
    the calls are the one for the schemas and then one for the groups of
    every schema, in order; a schema whose groups cannot be read is listed
    with the default group [null]. *)
Theorem list_object_types_lists (hs : hubspot) (query : json) (token : jstring) :
  get_opt (Some query) "token" = Some (JStr token) -> nonempty token = true ->
  let run := list_object_types hs query [] in
  (forall e text,
     hs (schemas_call token) = Raised e -> template (message_of e) = Done text ->
     run = (Done (object_types_response []
                    (JStr (str "Custom objects could not be loaded: " ++ text))),
            [schemas_call token]))
  /\ (forall data schemas ids,
        hs (schemas_call token) = Done data ->
        get_opt (Some data) "results" = Some (JArr schemas) ->
        Forall2 (fun schema id => schema_id schema = Some id) schemas ids ->
        run = (Done (object_types_response
                       (zip_with (custom_entry hs token) schemas ids) JNull),
               schemas_call token
               :: List.map (fun id => GetCall (groups_url id) (bearer token) []) ids)
        /\ forall id e, hs (GetCall (groups_url id) (bearer token) []) = Raised e ->
                        default_group_of hs token id = JNull).
Proof.
  intros Htoken Hne run.
  assert (Hq : query <> JNull) by (by destruct query).
  assert (Hrun : run
    = (run* loaded :=
         io_catch
           (run* data := request_of hs (schemas_call token) in
            run* results := io_lift (read data "results") in
            run* schemas := io_lift (array_or_empty results) in
            run* custom := promise_all (List.map (schema_entry hs token) schemas) in
            io_ret (custom, JNull))
           (fun err =>
              run* text := io_lift (template (message_of err)) in
              io_ret ([], JStr (str "Custom objects could not be loaded: " ++ text))) in
       io_ret (object_types_response (fst loaded) (snd loaded))) []).
  { subst run. unfold list_object_types.
    rewrite (read_get_opt query) by done. rewrite Htoken, io_bind_done. cbv beta iota.
    change (truthy (JStr token)) with (nonempty token). rewrite Hne. reflexivity. }
  rewrite Hrun. clear Hrun. split.
  - intros e text He Ht.
    unfold io_catch, io_bind, io_lift, request_of, io_ret. by rewrite He, Ht.
  - intros data schemas ids Hd Hres Hids. split.
    + assert (Hdata : data <> JNull) by (by destruct data).
      unfold io_catch, io_bind at 1 2. unfold request_of at 1. rewrite Hd.
      rewrite (read_get_opt data) by done. rewrite Hres.
      unfold io_bind at 1. unfold io_lift at 1. cbv beta iota.
      unfold io_bind at 1. unfold io_lift at 1. simpl array_or_empty. cbv beta iota.
      unfold io_bind at 1.
      by rewrite (promise_all_entries hs token schemas ids Hids).
    + intros id e He. unfold default_group_of. by rewrite He.
Qed.

Lemma list_object_types_lists_witness :
  list_object_types forbidden (JObj [(str "token", JStr (str "tok"))]) []
  = (Done (object_types_response []
             (JStr (str "Custom objects could not be loaded: Missing scope"))),
     [schemas_call (str "tok")]).
Proof.
  destruct (list_object_types_lists forbidden (JObj [(str "token", JStr (str "tok"))])
              (str "tok") eq_refl eq_refl) as [H _].
  exact (H (mkApiError
              (Some (403%nat, JObj [(str "message", JStr (str "Missing scope"))]))
              (str "Request failed with status code 403"))
           (str "Missing scope") eq_refl eq_refl).
Defined.

(** X23: the default group the listing gives for a custom object is the
    group that creating a property resolves on its own: when the listing
    finds a group for an object type that is not a standard one,
    [resolveGroupName] returns the same name for that type. *)
Theorem listing_agrees_with_resolveGroupName (hs : hubspot) (token id : jstring) :
  object_lookup DEFAULT_GROUPS id = Missing ->
  default_group_of hs token id <> JNull ->
  fst (resolveGroupName hs (JStr token) (JStr id) [])
  = Done (Some (default_group_of hs token id)).
Proof.
  intros Hmiss Hg. rewrite resolveGroupName_strings, Hmiss. cbv zeta.
  unfold default_group_of in *. simpl fst.
  destruct (hs _) as [data|e]; [|done].
  destruct (preferred_group data) as [[p|]|e]; [|done..].
  unfold or_null in *.
  destruct p as [| | | | |props]; try done. simpl get_opt in *. simpl truthy.
  destruct (lookup_prop (str "name") props) as [n|]; [|done].
  by destruct (truthy n).
Qed.

Lemma listing_agrees_with_resolveGroupName_witness :
  fst (resolveGroupName sample_hubspot (JStr (str "tok")) (JStr (str "2-1")) [])
  = Done (Some (JStr (str "car_information"))).
Proof.
  apply (listing_agrees_with_resolveGroupName sample_hubspot (str "tok") (str "2-1"));
    [reflexivity | discriminate].
Defined.

(** ** The page: escaping *)

Lemma replace_char_flat_map (c : char) (r : jstring) (f : char -> jstring) (s : jstring) :
  replace_char c r (flat_map f s) = flat_map (fun d => replace_char c r (f d)) s.
Proof.
  unfold replace_char. induction s as [|d s IH]; cbn [flat_map]; [done|].
  rewrite flat_map_app. f_equal. exact IH.
Qed.

Lemma esc_units (s : jstring) : esc s = flat_map esc_unit s.
Proof.
  unfold esc. unfold replace_char at 4. rewrite !replace_char_flat_map.
  apply flat_map_ext. intros c. unfold esc_unit.
  destruct (N.eqb_spec c 38) as [->|H1]; [reflexivity|].
  destruct (N.eqb_spec c 60) as [->|H2]; [reflexivity|].
  destruct (N.eqb_spec c 62) as [->|H3]; [reflexivity|].
  destruct (N.eqb_spec c 34) as [->|H4]; [reflexivity|].
  unfold replace_char. simpl.
  repeat match goal with
         | |- context [N.eqb c ?n] => destruct (N.eqb_spec c n); [done|]; simpl
         end.
  reflexivity.
Qed.

Lemma esc_unit_cases (c : char) :
  (c = 38 /\ esc_unit c = str "&amp;") \/ (c = 60 /\ esc_unit c = str "&lt;")
  \/ (c = 62 /\ esc_unit c = str "&gt;") \/ (c = 34 /\ esc_unit c = str "&quot;")
  \/ (c <> 38 /\ c <> 60 /\ c <> 62 /\ c <> 34 /\ esc_unit c = [c]).
Proof.
  unfold esc_unit.
  destruct (N.eqb_spec c 38) as [->|H1]; [auto|].
  destruct (N.eqb_spec c 60) as [->|H2]; [auto|].
  destruct (N.eqb_spec c 62) as [->|H3]; [auto 6|].
  destruct (N.eqb_spec c 34) as [->|H4]; [auto 7|].
  do 4 right. done.
Qed.

(** What is written for two code units does not start the same way. *)
Lemma esc_unit_prefix_free (x y : char) (a b : jstring) :
  esc_unit x ++ a = esc_unit y ++ b -> x = y /\ a = b.
Proof.
  destruct (esc_unit_cases x) as [[-> ->]|[[-> ->]|[[-> ->]|[[-> ->]|(?&?&?&?& ->)]]]];
  destruct (esc_unit_cases y) as [[-> ->]|[[-> ->]|[[-> ->]|[[-> ->]|(?&?&?&?& ->)]]]];
  simpl; intros Heq; try (injection Heq as ?; subst; done); try congruence.
Qed.

Lemma esc_injective_units (a b : jstring) :
  flat_map esc_unit a = flat_map esc_unit b -> a = b.
Proof.
  revert b. induction a as [|x a IH]; intros [|y b] H; simpl in H.
  - done.
  - destruct (esc_unit_cases y) as [[_ E]|[[_ E]|[[_ E]|[[_ E]|(_&_&_&_& E)]]]];
      rewrite E in H; discriminate.
  - destruct (esc_unit_cases x) as [[_ E]|[[_ E]|[[_ E]|[[_ E]|(_&_&_&_& E)]]]];
      rewrite E in H; discriminate.
  - apply esc_unit_prefix_free in H as [-> H]. by rewrite (IH b H).
Qed.

Lemma esc_plain_units (s : jstring) :
  Forall (fun c => c <> 38 /\ c <> 60 /\ c <> 62 /\ c <> 34) s -> flat_map esc_unit s = s.
Proof.
  induction 1 as [|c s (H1 & H2 & H3 & H4) _ IH]; [done|]. cbn [flat_map].
  destruct (esc_unit_cases c) as [[E _]|[[E _]|[[E _]|[[E _]|(_&_&_&_& ->)]]]];
    try done. simpl. by rewrite IH.
Qed.

(** X24: the escaping of the page.  The escaped text holds no [<], no [>]
    and no double quote; two texts escape to the same text only when they
    are the same; a text without [&], [<], [>] and double quote is left as it
    is, so that an apostrophe stays an apostrophe. *)
Theorem esc_escapes (s : jstring) :
  (60 ∉ esc s) /\ (62 ∉ esc s) /\ (34 ∉ esc s)
  /\ (forall s', esc s = esc s' -> s = s')
  /\ (Forall (fun c => c <> 38 /\ c <> 60 /\ c <> 62 /\ c <> 34) s -> esc s = s)
  /\ (39 ∈ s -> 39 ∈ esc s).
Proof.
  assert (Hno : forall d, d = 60 \/ d = 62 \/ d = 34 -> d ∉ esc s).
  { intros d Hd. rewrite esc_units. intros Hin.
    apply list_elem_of_In, in_flat_map in Hin as (c & _ & Hc).
    destruct (esc_unit_cases c) as [[_ E]|[[_ E]|[[_ E]|[[_ E]|(?&?&?&?& E)]]]];
      rewrite E in Hc; destruct Hd as [->|[->| ->]]; vm_compute in Hc;
      intuition (try discriminate; congruence). }
  split; [apply Hno; auto|]. split; [apply Hno; auto|]. split; [apply Hno; auto|].
  split; [|split].
  - intros s'. rewrite !esc_units. apply esc_injective_units.
  - intros H. rewrite esc_units. by apply esc_plain_units.
  - intros Hin. rewrite esc_units. apply list_elem_of_In, in_flat_map.
    exists 39. split; [by apply list_elem_of_In | by left].
Qed.

Lemma esc_escapes_witness :
  39 ∈ esc (str "x'); alert(1); ('").
Proof.
  apply (esc_escapes (str "x'); alert(1); ('")).
  apply list_elem_of_further, list_elem_of_here.
Defined.

Lemma includes_elem_of (c : char) (s : jstring) : includes c s = true <-> c ∈ s.
Proof.
  unfold includes. rewrite existsb_exists. split.
  - intros (d & Hd & ->%N.eqb_eq). by apply list_elem_of_In.
  - intros H. exists c. split; [by apply list_elem_of_In | apply N.eqb_refl].
Qed.

Lemma double_quotes_injective (a b : jstring) :
  replace_char 34 [34; 34] a = replace_char 34 [34; 34] b -> a = b.
Proof.
  unfold replace_char. revert b.
  induction a as [|x a IH]; intros [|y b]; simpl; intros H.
  - done.
  - destruct (y =? 34); discriminate.
  - destruct (x =? 34); discriminate.
  - destruct (N.eqb_spec x 34) as [->|Hx], (N.eqb_spec y 34) as [->|Hy]; simpl in H.
    + injection H as H. by rewrite (IH b H).
    + injection H as <- _. done.
    + injection H as -> _. done.
    + injection H as -> H. by rewrite (IH b H).
Qed.

(** X25: the CSV escaping of the page.  A field without comma, double quote
    and line feed is written as it is (a carriage return alone does not
    make it quoted); any other field is written between double quotes with
    every double quote of the field doubled; two fields are written the same
    way only when they are the same. *)
Theorem escapeCSV_fields (s : jstring) :
  ((44 ∉ s) /\ (34 ∉ s) /\ (10 ∉ s) -> escapeCSV s = s)
  /\ (44 ∈ s \/ 34 ∈ s \/ 10 ∈ s ->
      escapeCSV s = [34] ++ replace_char 34 [34; 34] s ++ [34])
  /\ (forall s', escapeCSV s = escapeCSV s' -> s = s').
Proof.
  assert (Hplain : forall t, (44 ∉ t) /\ (34 ∉ t) /\ (10 ∉ t) -> escapeCSV t = t).
  { intros t (H1 & H2 & H3). unfold escapeCSV.
    rewrite <- includes_elem_of in H1, H2, H3.
    by destruct (includes 44 t), (includes 34 t), (includes 10 t). }
  assert (Hquoted : forall t, 44 ∈ t \/ 34 ∈ t \/ 10 ∈ t ->
            escapeCSV t = [34] ++ replace_char 34 [34; 34] t ++ [34]).
  { intros t H. unfold escapeCSV. rewrite <- !includes_elem_of in H.
    destruct (includes 44 t), (includes 34 t), (includes 10 t); try done.
    by destruct H as [|[|]]. }
  assert (Hcases : forall t : jstring, ((44 ∉ t) /\ (34 ∉ t) /\ (10 ∉ t))
                                       \/ (44 ∈ t \/ 34 ∈ t \/ 10 ∈ t)).
  { intros t. destruct (decide (44 ∈ t)); [auto|].
    destruct (decide (34 ∈ t)); [auto|]. destruct (decide (10 ∈ t)); auto. }
  split; [apply Hplain|]. split; [apply Hquoted|].
  intros s'. destruct (Hcases s) as [Hs|Hs], (Hcases s') as [Hs'|Hs'].
  - by rewrite (Hplain s Hs), (Hplain s' Hs').
  - rewrite (Hplain s Hs), (Hquoted s' Hs'). intros ->.
    destruct Hs as (_ & Hq & _). exfalso. apply Hq, list_elem_of_here.
  - rewrite (Hquoted s Hs), (Hplain s' Hs'). intros <-.
    destruct Hs' as (_ & Hq & _). exfalso. apply Hq, list_elem_of_here.
  - rewrite (Hquoted s Hs), (Hquoted s' Hs'). intros H. simpl in H. injection H as H.
    apply app_inj_tail in H as [H _]. by apply double_quotes_injective.
Qed.

Lemma escapeCSV_fields_witness :
  escapeCSV (str "Website;Referral") = str "Website;Referral"
  /\ escapeCSV (str "a,b") = [34] ++ str "a,b" ++ [34].
Proof.
  split.
  - apply (escapeCSV_fields (str "Website;Referral")).
    repeat split; intros H; apply list_elem_of_In in H; vm_compute in H; intuition congruence.
  - destruct (escapeCSV_fields (str "a,b")) as (_ & H & _). rewrite H; [reflexivity|].
    left. apply list_elem_of_further, list_elem_of_here.
Defined.

(** ** The form walk on any value *)

Lemma prim_eqb_refl (x : json) : is_primitive x = true -> prim_eqb x x = true.
Proof.
  destruct x as [|b| | | |]; simpl; try done; intros _.
  - by destruct b.
  - by apply bool_decide_eq_true.
  - by apply bool_decide_eq_true.
Qed.

Lemma name_set_add (x : json) (names : list json) :
  truthy x = true -> name_set names -> name_set (jset_add x names).
Proof.
  intros Hx [Ht Hd]. unfold jset_add.
  destruct (is_primitive x && existsb (prim_eqb x) names) eqn:He; [done|].
  split; [apply Forall_app; by repeat constructor|].
  rewrite List.filter_app. simpl.
  destruct (is_primitive x) eqn:Hp; [|by rewrite app_nil_r].
  simpl in He. apply NoDup_app. split; [done|]. split; [|apply NoDup_singleton].
  intros y Hy ->%list_elem_of_singleton.
  apply list_elem_of_In, filter_In in Hy as [Hy _].
  assert (existsb (prim_eqb x) names = true); [|congruence].
  apply existsb_exists. exists x. split; [done | by apply prim_eqb_refl].
Qed.

Lemma for_each_keeps {A S : Type} (I : S -> Prop) (xs : list A)
    (body : A -> S -> outcome S) :
  (forall x st st', I st -> body x st = Ok st' -> I st') ->
  forall st st', I st -> for_each xs body st = Ok st' -> I st'.
Proof.
  intros Hb. induction xs as [|x xs IH]; intros st st' Hst; simpl.
  - by intros [= <-].
  - destruct (body x st) as [s1| |] eqn:Hs; simpl; try done.
    apply IH. by eapply Hb.
Qed.

Lemma scanFields_name_set (n : nat) :
  forall fields names names',
    name_set names -> scanFields n fields names = Ok names' -> name_set names'.
Proof.
  induction n as [|n IH]; intros fields names names' Hn; [done|]. simpl.
  destruct (iterate_or_empty fields) as [fl| |]; simpl; try done.
  apply for_each_keeps; [|done]. clear names names' Hn.
  intros field names names' Hn. unfold scanField.
  destruct (get field "name") as [nm| |]; simpl; try done.
  destruct (get field "dependentFields") as [deps| |]; simpl; try done.
  destruct (iterate_or_empty deps) as [dl| |]; simpl; try done.
  apply for_each_keeps.
  - intros dep acc acc' Hacc. unfold scanDep.
    destruct (get dep "dependentFieldFilters") as [filters| |]; simpl; try done.
    destruct (iterate_or_empty filters) as [fl1| |]; simpl; try done.
    match goal with |- context [for_each fl1 ?b acc] =>
      pose proof (for_each_keeps name_set fl1 b) as Hloop;
      destruct (for_each fl1 b acc) as [acc1| |] eqn:Hf end; simpl; try done.
    destruct (get dep "fields") as [fs| |]; simpl; try done.
    apply IH. eapply Hloop; [|exact Hacc|exact Hf].
    intros filter a a' Ha. unfold scanFilter.
    destruct (get filter "dependentFormField") as [[f|]| |]; simpl; try done.
    + destruct (truthy f); [by apply IH | by intros [= <-]].
    + by intros [= <-].
  - destruct nm as [x|]; [|done].
    destruct (truthy x) eqn:Hx; [by apply name_set_add | done].
Qed.

(** X26: whatever the form, the names its walk returns are truthy, and no
    string (nor any other primitive value) is returned twice. *)
Theorem extractFormProps_name_set (form : json) (names : list json) :
  extractFormProps form = Ok names -> name_set names.
Proof.
  unfold extractFormProps. remember (S (json_depth form)) as fuel eqn:Hfuel.
  destruct (get form "fieldGroups") as [groups| |]; simpl; try done.
  destruct (iterate_or_empty groups) as [gl| |]; simpl; try done.
  match goal with |- context [for_each gl ?b []] =>
    pose proof (for_each_keeps name_set gl b) as Hloop;
    destruct (for_each gl b []) as [names1| |] eqn:Hf end; simpl; try done.
  assert (H1 : name_set names1).
  { eapply Hloop; [| |exact Hf]; [|split; constructor].
    intros group a a' Ha. destruct (get group "fields") as [fs| |]; simpl; try done.
    by apply scanFields_name_set. }
  destruct (get form "formFields") as [[legacy|]| |]; simpl; try done;
    [|by intros [= <-]].
  destruct legacy as [| | | |l|]; try (by intros [= <-]).
  destruct l as [|[| | | |r|] l']; try (by apply scanFields_name_set).
  apply for_each_keeps; [|done]. intros row a a' Ha. by apply scanFields_name_set.
Qed.

Lemma extractFormProps_name_set_witness :
  exists names, extractFormProps sample_form = Ok names /\ name_set names.
Proof.
  eexists. split; [reflexivity|].
  apply (extractFormProps_name_set sample_form). reflexivity.
Defined.

(** ** Recording a use twice *)

Lemma same_source_refl (src : source_name) : same_source src src = true.
Proof.
  unfold same_source. destruct (is_primitive (sn_value src)) eqn:Hp.
  - by apply prim_eqb_refl.
  - simpl. by apply bool_decide_eq_true.
Qed.

Lemma find_array_set_same o k names arrs :
  is_Some (find_array o k arrs) -> find_array o k (set_array o k names arrs) = Some names.
Proof.
  unfold find_array. induction arrs as [|[[o' k'] n'] arrs IH]; simpl.
  - by intros [? ?].
  - destruct (bool_decide ((o', k') = (o, k))) eqn:He; simpl.
    + intros _. by rewrite bool_decide_eq_true_2.
    + rewrite He. simpl. exact IH.
Qed.

Lemma find_array_set_other o k o' k' names arrs :
  (o', k') <> (o, k) ->
  find_array o' k' (set_array o k names arrs) = find_array o' k' arrs.
Proof.
  intros Hne. unfold find_array. induction arrs as [|[[o2 k2] n2] arrs IH]; simpl.
  - by rewrite bool_decide_eq_false_2 by congruence.
  - destruct (bool_decide ((o2, k2) = (o, k))) eqn:He; simpl.
    + apply bool_decide_eq_true_1 in He. injection He as -> ->.
      by rewrite !bool_decide_eq_false_2 by congruence.
    + destruct (bool_decide ((o2, k2) = (o', k'))); simpl; [done | exact IH].
Qed.

Lemma find_array_snoc_other o k o' k' arrs :
  (o', k') <> (o, k) ->
  find_array o' k' (arrs ++ [(o, k, [])]) = find_array o' k' arrs.
Proof.
  intros Hne. unfold find_array. induction arrs as [|[[o2 k2] n2] arrs IH]; simpl.
  - by rewrite bool_decide_eq_false_2 by congruence.
  - destruct (bool_decide ((o2, k2) = (o', k'))); simpl; [done | exact IH].
Qed.

(** An array that exists keeps existing through a call of [addUsage]. *)
Lemma find_array_set_some o k o' k' names arrs :
  is_Some (find_array o k arrs) -> is_Some (find_array o' k' arrs) ->
  is_Some (find_array o' k' (set_array o k names arrs)).
Proof.
  intros Hs H. destruct (decide ((o', k') = (o, k))) as [[= -> ->]|Hne].
  - rewrite find_array_set_same by done. by eexists.
  - by rewrite find_array_set_other.
Qed.

Lemma find_array_snoc_some' o k o' k' arrs :
  is_Some (find_array o' k' arrs) -> is_Some (find_array o' k' (arrs ++ [(o, k, [])])).
Proof. intros [names H]. rewrite (find_array_snoc_some _ _ _ _ _ _ H). by eexists. Qed.

(** The object a property name resolves to stays the same when the own keys
    stay and no array disappears. *)
Lemma resolve_prop_stable (u u' : usage) (p : jstring) (o : objid) :
  resolve_prop u p = Some o -> own_keys u' = own_keys u ->
  (forall k, is_Some (find_array ObjectPrototype k (arrays u)) ->
             is_Some (find_array ObjectPrototype k (arrays u'))) ->
  resolve_prop u' p = Some o.
Proof.
  unfold resolve_prop. intros H -> Hk.
  destruct (bool_decide (p ∈ own_keys u)); [done|].
  destruct (bool_decide (p = str "__proto__")); [done|].
  destruct (bool_decide (p ∈ builtin_names)); [done|].
  destruct (kind_of_key p) as [k|]; [|done].
  specialize (Hk k).
  destruct (find_array ObjectPrototype k (arrays u)) as [n|]; [|done].
  destruct Hk as [n' ->]; [by eexists | done].
Qed.

Lemma resolve_prop_own (u : usage) (p : jstring) :
  p ∈ own_keys u -> resolve_prop u p = Some (Entry p).
Proof. intros H. unfold resolve_prop. by rewrite bool_decide_eq_true_2. Qed.

(** After [addUsage(propName, type, sourceName)] the property name resolves
    to an object that has, by itself or through [Object.prototype], an array
    for the type that holds the name of the source. *)
Lemma addUsage_key_recorded (p : jstring) (k : kind) (src : source_name) (u : usage) :
  let u' := addUsage_key p k src u in
  exists o owner names,
    resolve_prop u' p = Some o /\ resolve_type u' o k = Some owner
    /\ find_array owner k (arrays u') = Some names
    /\ existsb (same_source src) names = true.
Proof.
  intros u'. subst u'. unfold addUsage_key.
  set (step1 := match resolve_prop u p with
                | Some o => (o, u)
                | None => (Entry p, mkUsage (own_keys u ++ [p]) (arrays u))
                end).
  assert (H1 : resolve_prop (snd step1) p = Some (fst step1)
               /\ own_keys (snd step1) = own_keys (snd step1)).
  { subst step1. destruct (resolve_prop u p) as [o|] eqn:Hr; simpl; [done|].
    split; [|done]. apply resolve_prop_own. simpl. apply elem_of_app. right.
    apply list_elem_of_here. }
  destruct step1 as [o u1]. simpl in H1. destruct H1 as [Hp _].
  set (step2 := match resolve_type u1 o k with
                | Some owner => (owner, u1)
                | None => (o, mkUsage (own_keys u1) (arrays u1 ++ [(o, k, [])]))
                end).
  assert (H2 : resolve_prop (snd step2) p = Some o
               /\ resolve_type (snd step2) o k = Some (fst step2)
               /\ is_Some (find_array (fst step2) k (arrays (snd step2)))).
  { subst step2. unfold resolve_type.
    destruct (find_array o k (arrays u1)) as [n|] eqn:Ho; simpl.
    - rewrite Ho. split; [done|]. split; [done | by eexists].
    - destruct (find_array ObjectPrototype k (arrays u1)) as [n|] eqn:Hproto; simpl.
      + rewrite Ho, Hproto. split; [done|]. split; [done | by eexists].
      + rewrite (find_array_snoc o k _ Ho). split; [|split; [done | by eexists]].
        apply (resolve_prop_stable u1); [done|done|].
        intros k'. simpl. apply find_array_snoc_some'. }
  destruct step2 as [owner u2]. simpl in H2. destruct H2 as (Hp2 & Ht2 & [names Hn]).
  rewrite Hn. simpl default.
  destruct (existsb (same_source src) names) eqn:He.
  - by exists o, owner, names.
  - exists o, owner, (names ++ [src]).
    assert (Hset : find_array owner k (set_array owner k (names ++ [src]) (arrays u2))
                   = Some (names ++ [src])).
    { apply find_array_set_same. by eexists. }
    split; [|split; [|split]].
    + apply (resolve_prop_stable u2); [done|done|].
      intros k'. simpl. apply find_array_set_some. by eexists.
    + unfold resolve_type in *. simpl arrays.
      destruct (find_array o k (arrays u2)) as [n|] eqn:Ho.
      * injection Ht2 as <-. by rewrite Hset.
      * destruct (find_array ObjectPrototype k (arrays u2)) as [n|] eqn:Hproto; [|done].
        injection Ht2 as <-.
        assert (Hne : (o, k) <> (ObjectPrototype, k)).
        { intros [= ->]. congruence. }
        rewrite (find_array_set_other _ _ _ _ _ _ Hne), Ho. by rewrite Hset.
    + exact Hset.
    + rewrite existsb_app. simpl. by rewrite same_source_refl, orb_true_r.
Qed.

Lemma addUsage_key_twice (p : jstring) (k : kind) (src : source_name) (u : usage) :
  addUsage_key p k src (addUsage_key p k src u) = addUsage_key p k src u.
Proof.
  destruct (addUsage_key_recorded p k src u) as (o & owner & names & Hp & Ht & Hn & He).
  set (u' := addUsage_key p k src u) in *. clearbody u'.
  unfold addUsage_key. rewrite Hp, Ht, Hn. simpl default. by rewrite He.
Qed.

(** X27: recording the same use twice changes nothing: after a call of
    [addUsage], a second call with the same property name, type and source
    name leaves the usage details as the first call left them. *)
Theorem addUsage_idempotent (propName : json) (k : kind) (src : source_name)
    (u u' : usage) :
  addUsage propName k src u = Ok u' -> addUsage propName k src u' = Ok u'.
Proof.
  unfold addUsage. destruct (to_string propName) as [p| |]; simpl; try done.
  intros [= <-]. by rewrite addUsage_key_twice.
Qed.

Lemma addUsage_idempotent_witness :
  let src := mkSourceName (0%nat, 0%nat) (JStr (str "Welcome")) in
  exists u', addUsage (JStr (str "toString")) Workflows src empty_usage = Ok u'
             /\ addUsage (JStr (str "toString")) Workflows src u' = Ok u'.
Proof.
  intros src. eexists. split; [reflexivity|].
  apply (addUsage_idempotent (JStr (str "toString")) Workflows src empty_usage).
  reflexivity.
Defined.

Lemma resolve_prop_fresh (u : usage) (p : jstring) :
  p ∉ inherited_names -> prototype_clean u ->
  resolve_prop u p = if bool_decide (p ∈ own_keys u) then Some (Entry p) else None.
Proof.
  intros Hp Hc. unfold resolve_prop.
  destruct (bool_decide (p ∈ own_keys u)); [done|].
  unfold inherited_names in Hp. apply not_elem_of_cons in Hp as [Hp1 Hp2].
  rewrite (bool_decide_eq_false_2 _ Hp1), (bool_decide_eq_false_2 _ Hp2).
  destruct (kind_of_key p) as [k|]; [|done]. by rewrite (Hc k).
Qed.

(** X28: what [addUsage] records can be read back.  For a property name
    that no object inherits, and as long as nothing was recorded under such
    a name before ([Object.prototype] holds no list), after
    [addUsage(propName, type, sourceName)] the usage details hold, under the
    property name and the type, a list with the source name; and
    [Object.prototype] still holds no list. *)
Theorem addUsage_recorded (propName : json) (p : jstring) (k : kind)
    (src : source_name) (u u' : usage) :
  to_string propName = Ok p -> p ∉ inherited_names -> prototype_clean u ->
  addUsage propName k src u = Ok u' ->
  (exists names, provenance u' p k = Some names
                 /\ existsb (same_source src) names = true)
  /\ prototype_clean u'.
Proof.
  intros Hs Hp Hc. unfold addUsage. rewrite Hs. simpl. intros [= <-].
  unfold addUsage_key. rewrite (resolve_prop_fresh u p Hp Hc).
  set (u1 := if bool_decide (p ∈ own_keys u) then u
             else mkUsage (own_keys u ++ [p]) (arrays u)).
  assert (Hstep1 : (if bool_decide (p ∈ own_keys u) then Some (Entry p) else None)
                   = resolve_prop u p) by (by rewrite resolve_prop_fresh).
  assert (H1 : match (if bool_decide (p ∈ own_keys u) then Some (Entry p) else None) with
               | Some o => (o, u)
               | None => (Entry p, mkUsage (own_keys u ++ [p]) (arrays u))
               end = (Entry p, u1)).
  { subst u1. by destruct (bool_decide (p ∈ own_keys u)). }
  rewrite H1. clear H1 Hstep1.
  assert (Hown : p ∈ own_keys u1).
  { subst u1. destruct (bool_decide (p ∈ own_keys u)) eqn:Hb.
    - by apply bool_decide_eq_true in Hb.
    - simpl. apply elem_of_app. right. apply list_elem_of_here. }
  assert (Hc1 : prototype_clean u1).
  { subst u1. by destruct (bool_decide (p ∈ own_keys u)). }
  clearbody u1. unfold resolve_type. rewrite (Hc1 k).
  assert (Hne : forall k', (ObjectPrototype, k') <> (Entry p, k)) by (by intros k').
  destruct (find_array (Entry p) k (arrays u1)) as [names|] eqn:Hf.
  - rewrite Hf. simpl default.
    destruct (existsb (same_source src) names) eqn:He.
    + split; [|done]. exists names. split; [|done].
      unfold provenance. by rewrite (bool_decide_eq_true_2 _ Hown).
    + split.
      * exists (names ++ [src]). unfold provenance. simpl.
        rewrite (bool_decide_eq_true_2 _ Hown).
        rewrite find_array_set_same by (by eexists). split; [done|].
        rewrite existsb_app. simpl. by rewrite same_source_refl, orb_true_r.
      * intros k'. simpl. rewrite (find_array_set_other _ _ _ _ _ _ (Hne k')). apply Hc1.
  - simpl arrays. rewrite (find_array_snoc _ _ _ Hf). simpl default.
    change (existsb (same_source src) []) with false. cbv iota. split.
    + exists ([] ++ [src]). unfold provenance. simpl.
      rewrite (bool_decide_eq_true_2 _ Hown).
      rewrite find_array_set_same by (rewrite (find_array_snoc _ _ _ Hf); by eexists).
      split; [done|]. simpl. by rewrite same_source_refl.
    + intros k'. simpl. rewrite (find_array_set_other _ _ _ _ _ _ (Hne k')).
      rewrite (find_array_snoc_other _ _ _ _ _ (Hne k')). apply Hc1.
Qed.

Lemma addUsage_recorded_witness :
  let src := mkSourceName (0%nat, 0%nat) (JStr (str "Welcome")) in
  exists u', addUsage (JStr (str "lead_status")) Workflows src empty_usage = Ok u'
             /\ (exists names, provenance u' (str "lead_status") Workflows = Some names
                               /\ existsb (same_source src) names = true)
             /\ prototype_clean u'.
Proof.
  intros src. eexists. split; [reflexivity|].
  refine (addUsage_recorded (JStr (str "lead_status")) (str "lead_status") Workflows src
            empty_usage _ eq_refl _ _ eq_refl); [|done].
  intros H. apply list_elem_of_In in H. vm_compute in H. intuition congruence.
Defined.


(** ** The usage scan: what the other sources give when the forms fail *)

(** A block that ends without a new warning ran its body to the end. *)
Lemma try_catch_quiet (body : stm unit) (label : String.string) (st st' : scan_state) :
  silent body ->
  try_catch body (push_warning label) st = (Ok tt, st') ->
  warnings st' = warnings st ->
  body st = (Ok tt, st').
Proof.
  intros Hs Hrun Hw. unfold try_catch in Hrun. specialize (Hs st).
  destruct (body st) as [[[]|e|] s1]; simpl in *; [done| |done].
  exfalso. unfold push_warning, bind_stm, lift in Hrun.
  destruct (to_string (error_text e)); try done.
  injection Hrun as <-. simpl in Hw. rewrite Hs in Hw.
  apply (f_equal length) in Hw. rewrite length_app in Hw. simpl in Hw. lia.
Qed.

Lemma get_prop_of (data : json) (k : String.string) (v : json) :
  prop_of data k = Some v -> exists props, data = JObj props.
Proof. destruct data; try done. by eexists. Qed.

Lemma grows_scan_items k name_of extract fetch_no items :
  grows k (scan_items k name_of extract fetch_no items).
Proof. unfold scan_items. apply grows_for_each. intros x. apply grows_scan_item. Qed.

Lemma grows_pipelines_of http token fetch_no pipelineObj :
  grows Pipelines (pipelines_of http token fetch_no pipelineObj).
Proof.
  unfold pipelines_of.
  apply grows_bind; [by intros st x Hx|]. intros data.
  apply grows_bind; [by intros st x Hx|]. intros results.
  destruct (items_of results) as [pipelines count].
  apply grows_bind; [by intros st x Hx|]. intros _.
  apply grows_bind; [by intros st x Hx|]. intros items.
  apply grows_scan_items.
Qed.

(** One round of the pipeline loop that completes has scanned every
    pipeline of the response. *)
Lemma pipelines_of_collects http token fetch_no pipelineObj st st' data pipelines :
  pipelines_of http token fetch_no pipelineObj st = (Ok tt, st') ->
  http (pipelines_request token pipelineObj) = Ok data ->
  prop_of data "results" = Some (JArr pipelines) ->
  forall item n, item ∈ pipelines -> n ∈ extractPipelineProps item ->
                 JStr n ∈ props st' Pipelines.
Proof.
  intros Hrun Hreq Hres item n Hin Hn.
  destruct (get_prop_of _ _ _ Hres) as [props ->].
  unfold pipelines_of, bind_stm, axios_get, lift in Hrun.
  fold (pipelines_request token pipelineObj) in Hrun. rewrite Hreq in Hrun.
  unfold prop_of, get_opt in Hres. unfold get in Hrun. rewrite Hres in Hrun.
  change (items_of (Some (JArr pipelines)))
    with (Ok pipelines, Some (length pipelines)) in Hrun.
  cbv beta iota zeta in Hrun. unfold add_count in Hrun. cbv beta iota zeta in Hrun.
  eapply (scan_items_collects _ _ _ _ _ _ _ Hrun item); [done|reflexivity|].
  unfold strings. apply list_elem_of_fmap. by exists n.
Qed.

Lemma pipelines_block_collects http token st st' :
  pipelines_block http token st = (Ok tt, st') ->
  warnings st' = warnings st ->
  forall pipelineObj data pipelines,
    pipelineObj ∈ ["deals"; "tickets"]%string ->
    http (pipelines_request token pipelineObj) = Ok data ->
    prop_of data "results" = Some (JArr pipelines) ->
    forall item n, item ∈ pipelines -> n ∈ extractPipelineProps item ->
                   JStr n ∈ props st' Pipelines.
Proof.
  intros Hrun Hw pipelineObj data pipelines Hobj Hreq Hres item n Hin Hn.
  unfold pipelines_block in Hrun. apply try_catch_quiet in Hrun; [|silent_tac|done].
  unfold bind_stm in Hrun.
  destruct (pipelines_of http token 0 "deals" st) as [[[]| |] s1] eqn:H1; try done.
  apply elem_of_cons in Hobj as [->|Hobj].
  - pose proof (grows_pipelines_of http token 1 "tickets" s1 (JStr n)
                  (pipelines_of_collects _ _ _ _ _ _ _ _ H1 Hreq Hres item n Hin Hn)) as Hg.
    by rewrite Hrun in Hg.
  - apply list_elem_of_singleton in Hobj as ->.
    exact (pipelines_of_collects _ _ _ _ _ _ _ _ Hrun Hreq Hres item n Hin Hn).
Qed.

(** The reports block that ends without a warning has scanned every report
    of the response. *)
Lemma reports_block_collects http token st st' :
  reports_block http token st = (Ok tt, st') ->
  warnings st' = warnings st ->
  forall data reports,
    http (reports_request token) = Ok data ->
    or_else (prop_of data "objects") (prop_of data "results") = Some (JArr reports) ->
    forall item n, item ∈ reports -> n ∈ extractReportProps item ->
                   JStr n ∈ props st' Reports.
Proof.
  intros Hrun Hw data reports Hreq Hres item n Hin Hn.
  unfold reports_block in Hrun. apply try_catch_quiet in Hrun; [|silent_tac|done].
  assert (Hobj : exists props, data = JObj props).
  { unfold or_else in Hres.
    destruct (truthy_value (prop_of data "objects")); by eapply get_prop_of. }
  destruct Hobj as [props ->].
  unfold bind_stm, axios_get, lift in Hrun.
  fold (reports_request token) in Hrun. rewrite Hreq in Hrun.
  unfold or_else, prop_of, get_opt in Hres. unfold get, ret in Hrun.
  destruct (truthy_value (lookup_prop (str "objects") props)); rewrite Hres in Hrun;
    change (items_of (Some (JArr reports))) with (Ok reports, Some (length reports)) in Hrun;
    cbv beta iota zeta in Hrun; unfold set_count in Hrun; cbv beta iota zeta in Hrun;
    (eapply (scan_items_collects _ _ _ _ _ _ _ Hrun item); [done|reflexivity|]);
    unfold strings; apply list_elem_of_fmap; by exists n.
Qed.

(** X29: every source has its own try and catch, so that when each source
    settles on its own (it completes, or its failure is turned into a
    warning) the scan completes, every set is the one its source builds on
    its own and the warnings are those of the sources, in order.  When the
    request for the forms fails with a message that can be printed and the
    five other sources complete, the warnings are exactly the one warning of
    the forms, made of the label Forms and the message of the failure, the
    set of the forms is empty, and the set of every other source holds every
    name its extractor finds in an item that was fetched: the items of all
    pages for the workflows, the lists and the emails, the pipelines of the
    deals and of the tickets, and the reports of the response.  So none of
    these sets is empty when an item references a field. *)
Theorem forms_failure_is_local (http : http_get) (fuel : nat) (token : jstring) :
  let result := fetch_usage_context http fuel token in
  ((forall B k, (B, k) ∈ all_sources http fuel token -> fst (B initial_state) = Ok tt) ->
   fst result = Ok tt
   /\ warnings (snd result)
      = concat (List.map (fun Bk => warnings (snd (fst Bk initial_state)))
                         (all_sources http fuel token))
   /\ forall B k, (B, k) ∈ all_sources http fuel token ->
        props (snd result) k = props (snd (B initial_state)) k)
  /\ forall (e : js_error) (log : list request) (text : jstring),
       paginateHubSpot http token (api "/marketing/v3/forms") (str "results") [] fuel
         = (Throw e, log) ->
       to_string (error_text e) = Ok text ->
       (forall B k, (B, k) ∈ other_sources http fuel token ->
          fst (B initial_state) = Ok tt /\ warnings (snd (B initial_state)) = []) ->
       fst result = Ok tt
       /\ warnings (snd result) = [str "Forms: " ++ text]
       /\ props (snd result) Forms = []
       /\ (forall B k, (B, k) ∈ other_sources http fuel token ->
             props (snd result) k = props (snd (B initial_state)) k)
       /\ (forall k url key extra extract items log',
             paged_source k = Some (url, key, extra, extract) ->
             paginateHubSpot http token url key extra fuel = (Ok items, log') ->
             forall item n, item ∈ items -> n ∈ extract item ->
                            JStr n ∈ props (snd result) k)
       /\ (forall pipelineObj data pipelines,
             pipelineObj ∈ ["deals"; "tickets"]%string ->
             http (pipelines_request token pipelineObj) = Ok data ->
             prop_of data "results" = Some (JArr pipelines) ->
             forall item n, item ∈ pipelines -> n ∈ extractPipelineProps item ->
                            JStr n ∈ props (snd result) Pipelines)
       /\ (forall data reports,
             http (reports_request token) = Ok data ->
             or_else (prop_of data "objects") (prop_of data "results")
               = Some (JArr reports) ->
             forall item n, item ∈ reports -> n ∈ extractReportProps item ->
                            JStr n ∈ props (snd result) Reports).
Proof.
  intros result. split; [apply scan_is_blockwise|].
  intros e log text Hf Ht Hothers.
  destruct (forms_block_fails http fuel token e log text initial_state Hf Ht)
    as (sf & Ef & Hwf & Hpf).
  assert (Hmem : forall B k, (B, k) ∈ other_sources http fuel token ->
                   (B, k) ∈ all_sources http fuel token).
  { intros B k Hin. unfold other_sources in Hin. unfold all_sources.
    repeat (apply elem_of_cons in Hin as [->|Hin];
            [repeat first [apply list_elem_of_here | apply list_elem_of_further]|]).
    by apply elem_of_nil in Hin. }
  assert (Hall : forall B k, (B, k) ∈ all_sources http fuel token ->
                   fst (B initial_state) = Ok tt
                   /\ warnings (snd (B initial_state))
                      = if bool_decide (k = Forms) then [str "Forms: " ++ text] else []).
  { intros B k Hin. unfold all_sources in Hin.
    repeat (apply elem_of_cons in Hin as [Hin|Hin]; [injection Hin as -> ->|]);
      try (match goal with
           | |- context [bool_decide (?k0 = Forms)] =>
               rewrite bool_decide_eq_false_2 by done; apply (Hothers _ k0)
           end;
           unfold other_sources;
           solve [repeat first [apply list_elem_of_here | apply list_elem_of_further]]).
    - rewrite Ef, bool_decide_eq_true_2 by done. simpl. by rewrite Hwf.
    - by apply elem_of_nil in Hin. }
  destruct (scan_is_blockwise http fuel token (fun B k Hin => proj1 (Hall B k Hin)))
    as (Hr & Hw & Hp).
  fold result in Hr, Hw, Hp.
  assert (Hsets : forall B k, (B, k) ∈ other_sources http fuel token ->
                    props (snd result) k = props (snd (B initial_state)) k).
  { intros B k Hin. by apply Hp, Hmem. }
  split; [done|]. split; [|split; [|split; [exact Hsets|split; [|split]]]].
  - rewrite Hw. unfold all_sources. simpl.
    rewrite (proj2 (Hothers (workflows_block http fuel token) Workflows
               ltac:(unfold other_sources; apply list_elem_of_here))).
    rewrite (proj2 (Hothers (lists_block http fuel token) Lists
               ltac:(unfold other_sources; do 1 apply list_elem_of_further;
                     apply list_elem_of_here))).
    rewrite (proj2 (Hothers (pipelines_block http token) Pipelines
               ltac:(unfold other_sources; do 2 apply list_elem_of_further;
                     apply list_elem_of_here))).
    rewrite (proj2 (Hothers (emails_block http fuel token) Emails
               ltac:(unfold other_sources; do 3 apply list_elem_of_further;
                     apply list_elem_of_here))).
    rewrite (proj2 (Hothers (reports_block http token) Reports
               ltac:(unfold other_sources; do 4 apply list_elem_of_further;
                     apply list_elem_of_here))).
    rewrite Ef. simpl. by rewrite Hwf.
  - rewrite (Hp (forms_block http fuel token) Forms)
      by (unfold all_sources; do 1 apply list_elem_of_further; apply list_elem_of_here).
    rewrite Ef. simpl. by rewrite Hpf.
  - intros k url key extra extract items log' Hk Hpg item n Hin Hn.
    destruct k; simpl in Hk; try done; injection Hk as <- <- <- <-.
    + rewrite (Hsets (workflows_block http fuel token) Workflows)
        by (unfold other_sources; apply list_elem_of_here).
      destruct (Hothers (workflows_block http fuel token) Workflows
                  ltac:(unfold other_sources; apply list_elem_of_here)) as [R W].
      destruct (workflows_block http fuel token initial_state) as [r st'] eqn:Hb.
      simpl in R, W. subst r.
      exact (paged_block_collects _ _ _ _ _ _ _ _ _ _ _ _ Hb W items log' Hpg item n Hin Hn).
    + rewrite (Hsets (lists_block http fuel token) Lists)
        by (unfold other_sources; do 1 apply list_elem_of_further;
            apply list_elem_of_here).
      destruct (Hothers (lists_block http fuel token) Lists
                  ltac:(unfold other_sources; do 1 apply list_elem_of_further;
                        apply list_elem_of_here)) as [R W].
      destruct (lists_block http fuel token initial_state) as [r st'] eqn:Hb.
      simpl in R, W. subst r.
      exact (paged_block_collects _ _ _ _ _ _ _ _ _ _ _ _ Hb W items log' Hpg item n Hin Hn).
    + rewrite (Hsets (emails_block http fuel token) Emails)
        by (unfold other_sources; do 3 apply list_elem_of_further;
            apply list_elem_of_here).
      destruct (Hothers (emails_block http fuel token) Emails
                  ltac:(unfold other_sources; do 3 apply list_elem_of_further;
                        apply list_elem_of_here)) as [R W].
      destruct (emails_block http fuel token initial_state) as [r st'] eqn:Hb.
      simpl in R, W. subst r.
      exact (paged_block_collects _ _ _ _ _ _ _ _ _ _ _ _ Hb W items log' Hpg item n Hin Hn).
  - intros pipelineObj data pipelines Hobj Hreq Hres item n Hin Hn.
    rewrite (Hsets (pipelines_block http token) Pipelines)
      by (unfold other_sources; do 2 apply list_elem_of_further;
          apply list_elem_of_here).
    destruct (Hothers (pipelines_block http token) Pipelines
                ltac:(unfold other_sources; do 2 apply list_elem_of_further;
                      apply list_elem_of_here)) as [R W].
    destruct (pipelines_block http token initial_state) as [r st'] eqn:Hb.
    simpl in R, W. subst r.
    exact (pipelines_block_collects _ _ _ _ Hb W pipelineObj data pipelines Hobj Hreq Hres
             item n Hin Hn).
  - intros data reports Hreq Hres item n Hin Hn.
    rewrite (Hsets (reports_block http token) Reports)
      by (unfold other_sources; do 4 apply list_elem_of_further;
          apply list_elem_of_here).
    destruct (Hothers (reports_block http token) Reports
                ltac:(unfold other_sources; do 4 apply list_elem_of_further;
                      apply list_elem_of_here)) as [R W].
    destruct (reports_block http token initial_state) as [r st'] eqn:Hb.
    simpl in R, W. subst r.
    exact (reports_block_collects _ _ _ _ Hb W data reports Hreq Hres item n Hin Hn).
Qed.

Lemma forms_failure_is_local_witness :
  let result := fetch_usage_context forms_down 5 (str "tok") in
  fst result = Ok tt
  /\ warnings (snd result) = [str "Forms: This app lacks the forms scope"]
  /\ props (snd result) Forms = []
  /\ props (snd result) Lists = [JStr (str "lead_status")]
  /\ JStr (str "amount") ∈ props (snd result) Pipelines
  /\ JStr (str "closedate") ∈ props (snd result) Reports.
Proof.
  intros result.
  destruct (forms_failure_is_local forms_down 5 (str "tok")) as [_ Hforms].
  destruct (Hforms
              (mkError (Some (JStr (str "This app lacks the forms scope")))
                       (str "Request failed with status code 403"))
              [page_request (str "tok") (api "/marketing/v3/forms") [] JNull]
              (str "This app lacks the forms scope"))
    as (H1 & H2 & H3 & H4 & _ & H6 & H7).
  - vm_compute. reflexivity.
  - reflexivity.
  - intros B k Hin. unfold other_sources in Hin.
    repeat (apply elem_of_cons in Hin as [Hin|Hin]; [injection Hin as -> ->|]);
      try (split; vm_compute; reflexivity).
    by apply elem_of_nil in Hin.
  - split; [exact H1|]. split; [exact H2|]. split; [exact H3|].
    fold result in H4, H6, H7. split; [|split].
    + rewrite (H4 (lists_block forms_down 5 (str "tok")) Lists)
        by (unfold other_sources; do 1 apply list_elem_of_further;
            apply list_elem_of_here).
      vm_compute. reflexivity.
    + eapply (H6 "deals"%string _ _ ltac:(apply list_elem_of_here) eq_refl eq_refl).
      * apply list_elem_of_here.
      * apply list_elem_of_In. vm_compute. left. reflexivity.
    + eapply (H7 _ _ eq_refl eq_refl).
      * apply list_elem_of_here.
      * apply list_elem_of_In. vm_compute. left. reflexivity.
Defined.
